(** * The puzzle state machine of the poem fill-in-the-blank game

    A shallow embedding of [src/lib/game.js] (class [PoetryGame]): the page
    elements the game reads and writes are held in an explicit document
    record, the fields of the game object in a state record, and every
    event handler is a function on that state. *)

From Stdlib Require Import ZArith Lia String DecimalString DecimalNat Permutation.
From stdpp Require Import base decidable option numbers list strings.

Open Scope string_scope.
Open Scope list_scope.
Open Scope Z_scope.

(** ** JavaScript values *)

(** A JavaScript string is a sequence of UTF-16 code units; [s.length] is the
    length of the list and [s[i]] the one-unit string at index [i]. *)
Definition jsstring := list N.

(** [String(undefined)], the text a [dataset] field receives when it is
    assigned [undefined]. *)
Definition undefined_text : jsstring :=
  [117; 110; 100; 101; 102; 105; 110; 101; 100]%N.

(** [Number.prototype.toString] on an array index. *)
Definition toString (n : nat) : string :=
  NilEmpty.string_of_uint (Nat.to_uint n).

(** [a[i]] for a numeric index [i]: [undefined] (here [None]) outside the
    array. *)
Definition js_index {A} (l : list A) (i : Z) : option A :=
  if i <? 0 then None else l !! Z.to_nat i.

(** [a.slice(0, e)] for an integer [e]: a negative [e] counts from the end,
    and both bounds are clamped to the array. *)
Definition slice0 {A} (l : list A) (e : Z) : list A :=
  let len := Z.of_nat (length l) in
  let k := if e <? 0 then Z.max (len + e) 0 else Z.min e len in
  take (Z.to_nat k) l.

(** [[a[i], a[j]] = [a[j], a[i]]] for indices inside the array (the only
    ones the shuffles below produce). *)
Definition swap {A} (l : list A) (i j : nat) : list A :=
  match l !! j, l !! i with
  | Some x, Some y => <[j:=y]> (<[i:=x]> l)
  | _, _ => l
  end.

(** ** [Math.random] *)

(** A value of [Math.random()]: the number [numer / (numer + slack)], which
    ranges over the rationals of the interval [0, 1). *)
Record unit_interval := UnitInterval { numer : N; slack : positive }.

(** [Math.floor(r * n)]. *)
Definition floor_mul (r : unit_interval) (n : Z) : Z :=
  (n * Z.of_N (numer r)) / (Z.of_N (numer r) + Z.pos (slack r)).

(** ** Class lists *)

Definition contains (c : string) (cl : list string) : bool :=
  bool_decide (c ∈ cl).

Definition classList_add (c : string) (cl : list string) : list string :=
  if contains c cl then cl else cl ++ [c].

Definition classList_remove (c : string) (cl : list string) : list string :=
  filter (λ x, x ≠ c) cl.

(** ** The page *)

(** A character card, a child of [#line1] or [#line2].  [dropZone] records
    that [setupDropZone] has attached its listeners to the element. *)
Record card := Card {
  className : list string;
  textContent : jsstring;
  data_line : nat;
  data_index : nat;
  data_char : jsstring;
  data_lineText : jsstring;
  data_filled : option string;
  data_filledChar : option jsstring;
  dropZone : bool
}.

(** A draggable candidate, a child of [#dragChars]. *)
Record dragEl := DragEl {
  d_className : list string;
  d_textContent : jsstring;
  d_draggable : bool;
  d_char : jsstring;
  d_dragIndex : string;
  d_lineText : jsstring
}.

(** References to page elements.  A card is named by its container and its
    child index.  [lastDragAction] is reset at the two places where the
    children of the containers are replaced ([startGame] and
    [rebindEvents]), so a stored card reference always names the element
    that is in the page.  A candidate reference is [null], a child of
    [#dragChars], or an element that is no longer in the page (a touch
    sequence keeps its target after the page was rebuilt). *)
Inductive cardRef := InLine1 (i : nat) | InLine2 (i : nat).
Inductive dragRef := NullDrag | LiveDrag (k : nat) | DetachedDrag.

Record position := Position { p_line : nat; p_index : nat }.

Record removed := Removed {
  r_char : jsstring;
  r_line : nat;
  r_index : nat;
  r_lineText : option jsstring
}.

Record dragAction := DragAction {
  a_card : cardRef;
  a_dragChar : dragRef;
  a_char : jsstring
}.

(** The markup kept by [saveStateR].  [innerHTML] writes out the class, the
    text and the [data-*] attributes of every child; listeners are not part
    of it. *)
Record snapshot := Snapshot {
  line1HTML : list card;
  line2HTML : list card;
  dragCharsHTML : list dragEl;
  snap_removedChars : list removed
}.

Inductive messageBox := NoMessage | SuccessMessage (k : Z) | ErrorMessage (k : Z).

(** ** The browser *)

(** The value a call gives back, as far as the handlers of the game are
    concerned. *)
Inductive jsvalue := JsUndefined | JsBoolean (b : bool) | JsString (t : jsstring).

(** What the selector engine answers to
    [dragCharsEl.querySelector(selector)]: the index of the first child of
    [#dragChars] that matches, no element, or a selector it cannot parse. *)
Inductive matched := Matches (k : nat) | NoMatch | Invalid.

(** The part of the browser the game relies on and does not contain: the
    successive values of [Math.random()], and the answer of the selector
    engine to [[data-drag-index="t"]] for a text [t] that is not plain
    (see [selector_plain]), given the children of [#dragChars]. *)
Record browser := Browser {
  Math_random : nat → unit_interval;
  css_first : string → list dragEl → matched
}.

(** The outcome of [querySelector]: an element or [null], or a
    [SyntaxError] thrown. *)
Inductive selection := Element (d : dragRef) | SyntaxError.

(** How a listener or method ends once an event or a call reaches it: it
    gives back a value, or an exception leaves it; [NotCalled] stands for
    an event on an element that does not carry the listener. *)
Inductive completion := NotCalled | Returns (v : jsvalue) | Throws.

(** *** Selectors *)

(** The characters that end or escape a double-quoted string of a
    selector, or are replaced when the selector is read: NUL, line feed,
    form feed, carriage return, the double quote and the backslash. *)
Definition selector_special : list Ascii.ascii :=
  Ascii.ascii_of_nat <$> [0; 10; 12; 13; 34; 92]%nat.

(** A text without such a character stands for itself between the quotes
    of [[data-drag-index="..."]]: the selector is valid and matches the
    elements whose attribute is exactly that text. *)
Definition selector_plain (t : string) : bool :=
  forallb (λ a, negb (bool_decide (a ∈ selector_special)))
          (list_ascii_of_string t).

(** *** Markup *)

(** The parser reads markup after newline normalisation: a carriage
    return followed by a line feed becomes one line feed, and any other
    carriage return becomes a line feed. *)
Fixpoint normalize_newlines (t : jsstring) : jsstring :=
  match t with
  | [] => []
  | c :: t' =>
    if bool_decide (c = 13%N)
    then 10%N :: match t' with
                 | c' :: t'' =>
                   if bool_decide (c' = 10%N) then normalize_newlines t''
                   else normalize_newlines t'
                 | [] => []
                 end
    else c :: normalize_newlines t'
  end.

(** The text of an element after its markup was written out by the
    [innerHTML] getter and read back by the setter: besides the newlines,
    the parser leaves out every NUL of a text. *)
Definition parse_text (t : jsstring) : jsstring :=
  filter (λ c, c ≠ 0%N) (normalize_newlines t).

(** The value of an attribute after the same round trip: the parser puts
    U+FFFD for every NUL of an attribute value. *)
Definition parse_attr (t : jsstring) : jsstring :=
  (λ c, if bool_decide (c = 0%N) then 65533%N else c) <$> normalize_newlines t.

(** A card and a candidate read back from their markup.  The class, and
    the attributes [data-line], [data-index], [data-filled], [draggable]
    and [data-drag-index] are written by the game from constants and
    numbers and hold none of the characters above. *)
Definition reparse_card (c : card) : card :=
  Card (className c) (parse_text (textContent c)) (data_line c) (data_index c)
       (parse_attr (data_char c)) (parse_attr (data_lineText c)) (data_filled c)
       (parse_attr <$> data_filledChar c) (dropZone c).

Definition reparse_drag (d : dragEl) : dragEl :=
  DragEl (d_className d) (parse_text (d_textContent d)) (d_draggable d)
         (parse_attr (d_char d)) (d_dragIndex d) (parse_attr (d_lineText d)).

(** The game object together with the page it drives, the number of
    pending [setTimeout] callbacks, and the number of [Math.random] calls
    made so far. *)
Record state := State {
  sections : list (list jsstring);
  currentLines : option jsstring * option jsstring;
  removedChars : list removed;
  stateR : option snapshot;
  lastDragAction : option dragAction;
  lineLength : Z;
  removeCount : Z;
  line1 : list card;
  line2 : list card;
  dragChars : list dragEl;
  message : messageBox;
  undoDisabled : bool;
  timers : nat;
  rpos : nat
}.

#[global] Instance card_eq_dec : EqDecision card.
Proof. solve_decision. Defined.
#[global] Instance dragEl_eq_dec : EqDecision dragEl.
Proof. solve_decision. Defined.
#[global] Instance cardRef_eq_dec : EqDecision cardRef.
Proof. solve_decision. Defined.
#[global] Instance dragRef_eq_dec : EqDecision dragRef.
Proof. solve_decision. Defined.
#[global] Instance position_eq_dec : EqDecision position.
Proof. solve_decision. Defined.

(** Field updates. *)
Definition set_className (v : list string) (c : card) : card :=
  Card v (textContent c) (data_line c) (data_index c) (data_char c)
       (data_lineText c) (data_filled c) (data_filledChar c) (dropZone c).

Definition set_dropZone (v : bool) (c : card) : card :=
  Card (className c) (textContent c) (data_line c) (data_index c) (data_char c)
       (data_lineText c) (data_filled c) (data_filledChar c) v.

Definition set_d_className (v : list string) (d : dragEl) : dragEl :=
  DragEl v (d_textContent d) (d_draggable d) (d_char d) (d_dragIndex d)
         (d_lineText d).

Definition set_sections v (s : state) : state :=
  State v (currentLines s) (removedChars s) (stateR s) (lastDragAction s)
        (lineLength s) (removeCount s) (line1 s) (line2 s) (dragChars s)
        (message s) (undoDisabled s) (timers s) (rpos s).

Definition set_currentLines v (s : state) : state :=
  State (sections s) v (removedChars s) (stateR s) (lastDragAction s)
        (lineLength s) (removeCount s) (line1 s) (line2 s) (dragChars s)
        (message s) (undoDisabled s) (timers s) (rpos s).

Definition set_removedChars v (s : state) : state :=
  State (sections s) (currentLines s) v (stateR s) (lastDragAction s)
        (lineLength s) (removeCount s) (line1 s) (line2 s) (dragChars s)
        (message s) (undoDisabled s) (timers s) (rpos s).

Definition set_stateR v (s : state) : state :=
  State (sections s) (currentLines s) (removedChars s) v (lastDragAction s)
        (lineLength s) (removeCount s) (line1 s) (line2 s) (dragChars s)
        (message s) (undoDisabled s) (timers s) (rpos s).

Definition set_lastDragAction v (s : state) : state :=
  State (sections s) (currentLines s) (removedChars s) (stateR s) v
        (lineLength s) (removeCount s) (line1 s) (line2 s) (dragChars s)
        (message s) (undoDisabled s) (timers s) (rpos s).

Definition set_line1 v (s : state) : state :=
  State (sections s) (currentLines s) (removedChars s) (stateR s)
        (lastDragAction s) (lineLength s) (removeCount s) v (line2 s)
        (dragChars s) (message s) (undoDisabled s) (timers s) (rpos s).

Definition set_line2 v (s : state) : state :=
  State (sections s) (currentLines s) (removedChars s) (stateR s)
        (lastDragAction s) (lineLength s) (removeCount s) (line1 s) v
        (dragChars s) (message s) (undoDisabled s) (timers s) (rpos s).

Definition set_dragChars v (s : state) : state :=
  State (sections s) (currentLines s) (removedChars s) (stateR s)
        (lastDragAction s) (lineLength s) (removeCount s) (line1 s) (line2 s)
        v (message s) (undoDisabled s) (timers s) (rpos s).

Definition set_message v (s : state) : state :=
  State (sections s) (currentLines s) (removedChars s) (stateR s)
        (lastDragAction s) (lineLength s) (removeCount s) (line1 s) (line2 s)
        (dragChars s) v (undoDisabled s) (timers s) (rpos s).

Definition set_undoDisabled v (s : state) : state :=
  State (sections s) (currentLines s) (removedChars s) (stateR s)
        (lastDragAction s) (lineLength s) (removeCount s) (line1 s) (line2 s)
        (dragChars s) (message s) v (timers s) (rpos s).

Definition set_timers v (s : state) : state :=
  State (sections s) (currentLines s) (removedChars s) (stateR s)
        (lastDragAction s) (lineLength s) (removeCount s) (line1 s) (line2 s)
        (dragChars s) (message s) (undoDisabled s) v (rpos s).

Definition set_rpos v (s : state) : state :=
  State (sections s) (currentLines s) (removedChars s) (stateR s)
        (lastDragAction s) (lineLength s) (removeCount s) (line1 s) (line2 s)
        (dragChars s) (message s) (undoDisabled s) (timers s) v.

(** [document.getElementById(...).children[i]] and an update of that
    element in place. *)
Definition get_card (r : cardRef) (s : state) : option card :=
  match r with
  | InLine1 i => line1 s !! i
  | InLine2 i => line2 s !! i
  end.

Definition update_card (r : cardRef) (f : card → card) (s : state) : state :=
  match r with
  | InLine1 i => set_line1 (alter f i (line1 s)) s
  | InLine2 i => set_line2 (alter f i (line2 s)) s
  end.

Definition update_drag (k : nat) (f : dragEl → dragEl) (s : state) : state :=
  set_dragChars (alter f k (dragChars s)) s.

Definition add_class (c : string) (x : card) : card :=
  set_className (classList_add c (className x)) x.

Definition remove_class (c : string) (x : card) : card :=
  set_className (classList_remove c (className x)) x.

Definition d_add_class (c : string) (d : dragEl) : dragEl :=
  set_d_className (classList_add c (d_className d)) d.

Definition d_remove_class (c : string) (d : dragEl) : dragEl :=
  set_d_className (classList_remove c (d_className d)) d.

(** [this.currentLines[i]]. *)
Definition line_at (s : state) (i : nat) : option jsstring :=
  match i with
  | O => fst (currentLines s)
  | S O => snd (currentLines s)
  | _ => None
  end.

(** An exception leaves the handler at once; the writes made before it
    stay. *)
Inductive result := Normal (s : state) | Thrown (s : state).

Definition bind (r : result) (k : state → result) : result :=
  match r with
  | Normal s => k s
  | Thrown s => Thrown s
  end.

Notation "x <- r ;; k" := (bind r (λ x, k))
  (at level 100, r at next level, right associativity, only parsing).

Definition state_of (r : result) : state :=
  match r with Normal s | Thrown s => s end.

(** ** The built-in lines *)

Definition default_line0 : jsstring := [22826; 38451; 21704; 21704; 31505]%N.
Definition default_line1 : jsstring := [32972; 19978; 23567; 20070; 21253]%N.
Definition default_line2 : jsstring := [36335; 19978; 36935; 33457; 29483]%N.
Definition default_line3 : jsstring := [34676; 34678; 39134; 21568; 39134]%N.

Definition default_section : list jsstring :=
  [default_line0; default_line1; default_line2; default_line3].

(** ** Text of the poem file *)

Definition is_whitespace (c : N) : bool :=
  bool_decide (c ∈ [9; 10; 11; 12; 13; 32; 160; 5760; 8232; 8233; 8239; 8287;
                    12288; 65279]%N)
  || ((8192 <=? c)%N && (c <=? 8202)%N).

Fixpoint trimStart (s : jsstring) : jsstring :=
  match s with
  | c :: s' => if is_whitespace c then trimStart s' else s
  | [] => []
  end.

(** [s.trim()]. *)
Definition trim (s : jsstring) : jsstring :=
  reverse (trimStart (reverse (trimStart s))).

Fixpoint starts_with (sep s : jsstring) : bool :=
  match sep, s with
  | [], _ => true
  | a :: sep', b :: s' => bool_decide (a = b) && starts_with sep' s'
  | _ :: _, [] => false
  end.

(** [s.split(sep)] for a separator that is not empty: [cur] holds the piece
    being read, in reverse, and [skip] the units of a matched separator
    still to pass over. *)
Fixpoint split_go (sep : jsstring) (skip : nat) (cur : jsstring) (s : jsstring)
  : list jsstring :=
  match s with
  | [] => [reverse cur]
  | c :: s' =>
    match skip with
    | S k => split_go sep k cur s'
    | O =>
      if starts_with sep s
      then reverse cur :: split_go sep (length sep - 1) [] s'
      else split_go sep O (c :: cur) s'
    end
  end.

Definition split (sep s : jsstring) : list jsstring := split_go sep O [] s.

Definition section_mark : jsstring := [61; 61; 61]%N.
Definition newline : jsstring := [10]%N.

(** ** The game *)

Section Game.

(** The browser the page runs in. *)
Variable host : browser.

(** [Math.floor(Math.random() * n)]. *)
Definition random_floor (n : Z) (s : state) : Z * state :=
  (floor_mul (Math_random host (rpos s)) n, set_rpos (S (rpos s)) s).

(** The Fisher-Yates loop [for (let i = a.length - 1; i > 0; i--)], entered
    at index [i]; [rp] counts the [Math.random] calls. *)
Fixpoint shuffle_from {A} (i : nat) (l : list A) (rp : nat) : list A * nat :=
  match i with
  | O => (l, rp)
  | S i' =>
    let j := Z.to_nat (floor_mul (Math_random host rp) (Z.of_nat i + 1)) in
    shuffle_from i' (swap l i j) (S rp)
  end.

Definition shuffle {A} (l : list A) (rp : nat) : list A * nat :=
  shuffle_from (length l - 1)%nat l rp.

Definition loadPoems (response : option jsstring) (s : state) : state :=
  match response with
  | Some text =>
    let rawSections := split section_mark (trim text) in
    set_sections
      (filter (λ section : list jsstring, (2 ≤ length section)%nat)
         ((λ section,
             filter (λ line, Z.of_nat (length (trim line)) = lineLength s)
                    (split newline (trim section)))
          <$> rawSections))
      s
  | None => set_sections [default_section] s
  end.

Definition updateUndoButtonState (s : state) : state :=
  set_undoDisabled (negb (bool_decide (is_Some (lastDragAction s)))) s.

Definition empty_card (c : card) : card :=
  Card ["char-card"; "empty"] [] (data_line c) (data_index c) (data_char c)
       (data_lineText c) (Some "false") None (dropZone c).

Definition undoLastDrag (s : state) : state :=
  match lastDragAction s with
  | None => s
  | Some a =>
    let s := update_card (a_card a) empty_card s in
    let s :=
      match a_dragChar a with
      | LiveDrag k => update_drag k (d_remove_class "hidden") s
      | NullDrag | DetachedDrag => s
      end in
    updateUndoButtonState (set_lastDragAction None s)
  end.

(** How a call [undoLastDrag()] ends: the guard is a bare [return;] and
    the method has no other [return]. *)
Definition undoLastDrag_completion (s : state) : completion :=
  match lastDragAction s with
  | None => Returns JsUndefined
  | Some _ => Returns JsUndefined
  end.

Definition selectRandomLines (s : state) : result :=
  if bool_decide (length (sections s) = O)
  then Normal (set_currentLines (Some default_line0, Some default_line1) s)
  else
    let '(sectionIndex, s) := random_floor (Z.of_nat (length (sections s))) s in
    match js_index (sections s) sectionIndex with
    | None => Thrown s
    | Some section =>
      let maxIndex := Z.of_nat (length section) - 2 in
      let '(startIndex, s) := random_floor (maxIndex + 1) s in
      Normal (set_currentLines
                (js_index section startIndex, js_index section (startIndex + 1))
                s)
    end.

Definition createCharCard (s : state) (char : jsstring) (lineIndex charIndex : nat)
  : card :=
  Card ["char-card"; "filled"] char lineIndex charIndex char
       (default undefined_text (line_at s lineIndex)) None None false.

Definition renderPoem (s : state) : result :=
  let s := set_line2 [] (set_line1 [] s) in
  match line_at s 0 with
  | None => Thrown s
  | Some l0 =>
    let s := set_line1 (imap (λ i c, createCharCard s [c] 0 i) l0) s in
    match line_at s 1 with
    | None => Thrown s
    | Some l1 => Normal (set_line2 (imap (λ i c, createCharCard s [c] 1 i) l1) s)
    end
  end.

Definition renderDragChars (chars : list removed) (s : state) : state :=
  set_dragChars
    (imap (λ index charInfo,
           DragEl ["drag-char"] (r_char charInfo) true (r_char charInfo)
                  (toString index)
                  (default undefined_text (r_lineText charInfo)))
          chars)
    s.

Definition card_of (pos : position) : cardRef :=
  if bool_decide (p_line pos = O) then InLine1 (p_index pos)
  else InLine2 (p_index pos).

(** Blanking of one card, with the listeners of [setupDropZone]. *)
Definition blank_card (c : card) : card :=
  Card ["char-card"; "empty"] [] (data_line c) (data_index c) (data_char c)
       (data_lineText c) (Some "false") (data_filledChar c) true.

(** The body of [positionsToRemove.forEach]: reading [card.dataset] of a
    child that does not exist throws. *)
Definition remove_at (pos : position) (s : state) : result :=
  match get_card (card_of pos) s with
  | None => Thrown s
  | Some card =>
    let s :=
      set_removedChars
        (removedChars s ++
         [Removed (data_char card) (p_line pos) (p_index pos)
                  (line_at s (p_line pos))])
        s in
    Normal (update_card (card_of pos) blank_card s)
  end.

Fixpoint forEach (f : position → state → result) (l : list position) (s : state)
  : result :=
  match l with
  | [] => Normal s
  | p :: l' => s <- f p s;; forEach f l' s
  end.

(** The grid built by the nested loop: the outer loop runs for [line = 0]
    and [line = 1], the inner one for [index = 0 .. L - 1]. *)
Definition allPositions (L : Z) : list position :=
  (Position 0 <$> seq O (Z.to_nat L)) ++ (Position 1 <$> seq O (Z.to_nat L)).

Definition removeRandomChars (s : state) : result :=
  let s := set_removedChars [] s in
  let '(shuffled, rp) := shuffle (allPositions (lineLength s)) (rpos s) in
  let s := set_rpos rp s in
  let positionsToRemove := slice0 shuffled (removeCount s) in
  s <- forEach remove_at positionsToRemove s;;
  let '(shuffledChars, rp) := shuffle (removedChars s) (rpos s) in
  Normal (renderDragChars shuffledChars (set_rpos rp s)).

Definition strip_listeners (c : card) : card := set_dropZone false c.

(** [saveStateR]: the three [innerHTML] texts are kept as the elements
    they describe, without their listeners; what the parser makes of them
    is applied where they are read back, in [restoreStateR]. *)
Definition saveStateR (s : state) : state :=
  set_stateR
    (Some (Snapshot (strip_listeners <$> line1 s) (strip_listeners <$> line2 s)
                    (dragChars s) (removedChars s)))
    s.

Definition clearMessage (s : state) : state := set_message NoMessage s.

Definition startGame (s : state) : result :=
  let s := set_lastDragAction None s in
  s <- selectRandomLines s;;
  s <- renderPoem s;;
  s <- removeRandomChars s;;
  let s := saveStateR s in
  let s := clearMessage s in
  Normal (updateUndoButtonState s).

Definition is_empty_card (c : card) : bool :=
  contains "char-card" (className c) && contains "empty" (className c).

Definition setupDropZone (c : card) : card := set_dropZone true c.

Definition rebindEvents (s : state) : state :=
  let s := updateUndoButtonState (set_lastDragAction None s) in
  let rebind := fmap (λ c, if is_empty_card c then setupDropZone c else c) in
  set_line2 (rebind (line2 s)) (set_line1 (rebind (line1 s)) s).

(** [restoreStateR]: assigning [innerHTML] parses the saved markup into
    new children. *)
Definition restoreStateR (s : state) : state :=
  match stateR s with
  | None => s
  | Some r =>
    let s := set_line1 (reparse_card <$> line1HTML r) s in
    let s := set_line2 (reparse_card <$> line2HTML r) s in
    let s := set_dragChars (reparse_drag <$> dragCharsHTML r) s in
    clearMessage (rebindEvents s)
  end.

Definition showSuccess (s : state) : state :=
  let '(k, s) := random_floor 5 s in set_message (SuccessMessage k) s.

Definition showError (s : state) : state :=
  let '(k, s) := random_floor 4 s in set_message (ErrorMessage k) s.

(** The cards of the page, in document order. *)
Definition cards (s : state) : list card := line1 s ++ line2 s.

(** [document.querySelectorAll('.char-card.empty')]. *)
Definition emptyCards (s : state) : list card :=
  filter (λ c, is_empty_card c = true) (cards s).

(** [document.querySelectorAll('.char-card[data-filled="true"]')]. *)
Definition filledCards (s : state) : list card :=
  filter (λ c, contains "char-card" (className c) = true
               ∧ data_filled c = Some "true")
         (cards s).

Inductive verdict := Incomplete | Correct | Incorrect.

(** The decision taken by [checkCompletion]. *)
Definition evaluate (s : state) : verdict :=
  if bool_decide (0 < length (emptyCards s))%nat
     || bool_decide (Z.of_nat (length (filledCards s)) < removeCount s)
  then Incomplete
  else if forallb (λ c, bool_decide (Some (data_char c) = data_filledChar c))
                  (filledCards s)
  then Correct
  else Incorrect.

Definition checkCompletion (s : state) : state :=
  match evaluate s with
  | Incomplete => s
  | Correct => showSuccess s
  | Incorrect => let s := showError s in set_timers (S (timers s)) s
  end.

Definition fill_card (char : jsstring) (c : card) : card :=
  Card ["char-card"; "filled"] char (data_line c) (data_index c) (data_char c)
       (data_lineText c) (Some "true") (Some char) (dropZone c).

(** [dragCharsEl.querySelector(`[data-drag-index="${dragIndex}"]`)].  For
    a plain text it is the first child whose attribute is that text, or
    [null]; for any other text the selector is whatever the text makes of
    it, and the answer is the engine's. *)
Definition querySelector (dragIndex : string) (s : state) : selection :=
  if selector_plain dragIndex
  then
    match list_find (λ d, d_dragIndex d = dragIndex) (dragChars s) with
    | Some (k, _) => Element (LiveDrag k)
    | None => Element NullDrag
    end
  else
    match css_first host dragIndex (dragChars s) with
    | Matches k =>
      if bool_decide (k < length (dragChars s))%nat then Element (LiveDrag k)
      else Element NullDrag
    | NoMatch => Element NullDrag
    | Invalid => SyntaxError
    end.

(** *** Listeners of a blank card ([setupDropZone]).  An event reaches the
    listener only on an element that carries it. *)

Definition on_dropZone (ref : cardRef) (s : state) (k : card → state) : state :=
  match get_card ref s with
  | Some c => if dropZone c then k c else s
  | None => s
  end.

Definition dragover (ref : cardRef) (s : state) : state :=
  on_dropZone ref s (λ _, update_card ref (add_class "drag-over") s).

Definition dragleave (ref : cardRef) (s : state) : state :=
  on_dropZone ref s (λ _, update_card ref (remove_class "drag-over") s).

(** The [drop] listener; [char] and [dragIndex] are the two entries read
    from [e.dataTransfer].  A [SyntaxError] of [querySelector] leaves the
    listener before anything is recorded. *)
Definition drop (ref : cardRef) (char : jsstring) (dragIndex : string) (s : state)
  : state :=
  on_dropZone ref s (λ card,
    let s := update_card ref (remove_class "drag-over") s in
    if bool_decide (data_filled card = Some "true") then s
    else
      match querySelector dragIndex s with
      | SyntaxError => s
      | Element dragChar =>
        let s := set_lastDragAction (Some (DragAction ref dragChar char)) s in
        let s := updateUndoButtonState s in
        let s := update_card ref (fill_card char) s in
        let s :=
          match dragChar with
          | LiveDrag k => update_drag k (d_add_class "hidden") s
          | NullDrag | DetachedDrag => s
          end in
        checkCompletion s
      end).

(** How the [drop] listener ends: its guard is a bare [return;], its last
    statement is the call of [checkCompletion], and in between only
    [querySelector] can throw. *)
Definition drop_completion (ref : cardRef) (char : jsstring) (dragIndex : string)
    (s : state) : completion :=
  match get_card ref s with
  | Some card =>
    if dropZone card then
      if bool_decide (data_filled card = Some "true") then Returns JsUndefined
      else
        match querySelector dragIndex
                (update_card ref (remove_class "drag-over") s) with
        | SyntaxError => Throws
        | Element _ => Returns JsUndefined
        end
    else NotCalled
  | None => NotCalled
  end.

(** *** Listeners of a candidate ([renderDragChars], [rebindEvents],
    [setupTouchDrag]). *)

Definition dragstart (k : nat) (s : state) : state :=
  update_drag k (d_add_class "dragging") s.

Definition dragend (k : nat) (s : state) : state :=
  update_drag k (d_remove_class "dragging") s.

(** The candidate a touch sequence started on: a child of [#dragChars], or
    an element that has left the page since, of which only [dataset.char]
    matters. *)
Inductive touchSource := TouchLive (k : nat) | TouchDetached (char : jsstring).

Definition touch_ref (src : touchSource) : dragRef :=
  match src with
  | TouchLive k => LiveDrag k
  | TouchDetached _ => DetachedDrag
  end.

Definition touch_char (src : touchSource) (s : state) : option jsstring :=
  match src with
  | TouchLive k => d_char <$> dragChars s !! k
  | TouchDetached char => Some char
  end.

Definition update_source (src : touchSource) (f : dragEl → dragEl) (s : state)
  : state :=
  match src with
  | TouchLive k => update_drag k f s
  | TouchDetached _ => s
  end.

(** [document.querySelectorAll('.char-card.empty').forEach(card =>
    card.classList.remove('drag-over'))]. *)
Definition clear_drag_over (s : state) : state :=
  let clear := fmap (λ c, if is_empty_card c then remove_class "drag-over" c else c) in
  set_line2 (clear (line2 s)) (set_line1 (clear (line1 s)) s).

Definition touchstart (k : nat) (s : state) : state :=
  update_drag k (d_add_class "dragging") s.

(** [clone] says whether the listener still holds the clone made by its
    [touchstart] (the [touchend] of the same candidate clears it); [below]
    is the card returned by [document.elementFromPoint], if it returns a
    card; no other element of the page has the class [empty]. *)
Definition touchmove (clone : bool) (below : option cardRef) (s : state) : state :=
  if negb clone then s
  else
    let s := clear_drag_over s in
    match below with
    | Some ref =>
      match get_card ref s with
      | Some c =>
        if contains "empty" (className c)
        then update_card ref (add_class "drag-over") s
        else s
      | None => s
      end
    | None => s
    end.

Definition touchend (src : touchSource) (below : option cardRef) (s : state)
  : state :=
  match touch_char src s with
  | None => s
  | Some char =>
    let s := update_source src (d_remove_class "dragging") s in
    let s :=
      match below with
      | Some ref =>
        match get_card ref s with
        | Some elementBelow =>
          if contains "empty" (className elementBelow)
             && negb (bool_decide (data_filled elementBelow = Some "true"))
          then
            let s :=
              set_lastDragAction (Some (DragAction ref (touch_ref src) char)) s in
            let s := updateUndoButtonState s in
            let s := update_card ref (fill_card char) s in
            let s := update_card ref (remove_class "drag-over") s in
            let s := update_source src (d_add_class "hidden") s in
            checkCompletion s
          else s
        | None => s
        end
      | None => s
      end in
    clear_drag_over s
  end.

(** How the [touchend] listener ends: it has no [return] statement and
    nothing in it throws. *)
Definition touchend_completion (src : touchSource) (below : option cardRef)
    (s : state) : completion :=
  match touch_char src s with
  | None => NotCalled
  | Some _ => Returns JsUndefined
  end.

(** ** Start of the page and events *)

Record config := Config { cfg_lineLength : option Z; cfg_removeCount : option Z }.

(** [v || d] for a number or [undefined]. *)
Definition or_default (v : option Z) (d : Z) : Z :=
  match v with
  | Some x => if bool_decide (x = 0) then d else x
  | None => d
  end.

(** The constructor, on a page whose three containers are empty. *)
Definition constructor (cfg : config) : state :=
  State [] (None, None) [] None None
        (or_default (cfg_lineLength cfg) 5) (or_default (cfg_removeCount cfg) 4)
        [] [] [] NoMessage false O O.

(** [init()]; [response] is the text of [poet.txt], or [None] when the
    request fails. *)
Definition init (response : option jsstring) (s : state) : result :=
  startGame (loadPoems response s).

Inductive event :=
  | RestartClick
  | UndoClick
  | DragOver (ref : cardRef)
  | DragLeave (ref : cardRef)
  | Drop (ref : cardRef) (char : jsstring) (dragIndex : string)
  | DragStart (k : nat)
  | DragEnd (k : nat)
  | TouchStart (k : nat)
  | TouchMove (clone : bool) (below : option cardRef)
  | TouchEnd (src : touchSource) (below : option cardRef)
  | TimerFires.

(** One turn of the event loop.  An exception ends the handler and the
    page stays as the handler left it. *)
Definition step (e : event) (s : state) : state :=
  match e with
  | RestartClick => state_of (startGame s)
  | UndoClick => undoLastDrag s
  | DragOver ref => dragover ref s
  | DragLeave ref => dragleave ref s
  | Drop ref char dragIndex => drop ref char dragIndex s
  | DragStart k => dragstart k s
  | DragEnd k => dragend k s
  | TouchStart k => touchstart k s
  | TouchMove clone below => touchmove clone below s
  | TouchEnd src below => touchend src below s
  | TimerFires =>
    match timers s with
    | O => s
    | S n => restoreStateR (set_timers n s)
    end
  end.

Definition run (es : list event) (s : state) : state :=
  foldl (λ s e, step e s) s es.

(** The states the page can be in: after [init], and after any further
    event. *)
Inductive reachable : state → Prop :=
  | reachable_init cfg response :
      reachable (state_of (init response (constructor cfg)))
  | reachable_step e s : reachable s → reachable (step e s).

End Game.

(** ** Reading a state as a Round *)

(** The blank positions of the round, in the order they were removed. *)
Definition blankPositions (s : state) : list position :=
  (λ r, Position (r_line r) (r_index r)) <$> removedChars s.

(** A card is a blank when it carries [data-filled]: the attribute is
    written when the card is blanked and kept from then on. *)
Definition is_blank (c : card) : bool := bool_decide (is_Some (data_filled c)).

Definition blanks (s : state) : list card :=
  filter (λ c, is_blank c = true) (cards s).

(** An empty blank, as [removeRandomChars] and [undoLastDrag] leave it. *)
Definition empty_blank (c : card) : Prop :=
  is_empty_card c = true ∧ textContent c = [] ∧ data_filled c = Some "false".

(** A candidate is available while it does not have the class [hidden]. *)
Definition available (d : dragEl) : bool :=
  negb (contains "hidden" (d_className d)).

(** What a card holds: whether it shows as empty, its text, and the two
    fill attributes. *)
Definition assignment (c : card)
  : bool * jsstring * option string * option jsstring :=
  (contains "empty" (className c), textContent c, data_filled c,
   data_filledChar c).

(** The Round held by a state: everything but the classes [drag-over] and
    [dragging], which only follow the pointer. *)
Record round := Round {
  rd_lines : option jsstring * option jsstring;
  rd_blankPositions : list removed;
  rd_assignments : list (bool * jsstring * option string * option jsstring);
  rd_candidates : list (jsstring * string * bool);
  rd_lastAction : option dragAction;
  rd_snapshot : option snapshot;
  rd_message : messageBox;
  rd_timers : nat
}.

Definition round_of (s : state) : round :=
  Round (currentLines s) (removedChars s) (assignment <$> cards s)
        ((λ d, (d_char d, d_dragIndex d, available d)) <$> dragChars s)
        (lastDragAction s) (stateR s) (message s) (timers s).

(** ** Shapes of cards *)

(** A card as [createCharCard] makes it. *)
Definition fresh_card (c : card) : Prop :=
  className c = ["char-card"; "filled"] ∧ data_filled c = None
  ∧ data_filledChar c = None ∧ dropZone c = false.

(** A card as [removeRandomChars] blanks it. *)
Definition fresh_blank (c : card) : Prop :=
  className c = ["char-card"; "empty"] ∧ textContent c = []
  ∧ data_filled c = Some "false" ∧ data_filledChar c = None
  ∧ dropZone c = true.

Definition generated (c : card) : Prop := fresh_card c ∨ fresh_blank c.

(** The shape every card of the page keeps: a card without [data-filled]
    is never shown empty and has no drop listeners; a card with it has the
    listeners and is either shown empty and unfilled, or filled with some
    text. *)
Definition card_ok (c : card) : Prop :=
  contains "char-card" (className c) = true ∧
  match data_filled c with
  | None => contains "empty" (className c) = false ∧ dropZone c = false
  | Some f =>
    dropZone c = true ∧
    ((f = "false" ∧ contains "empty" (className c) = true)
     ∨ (f = "true" ∧ contains "empty" (className c) = false
        ∧ is_Some (data_filledChar c)))
  end.

(** The shape of the cards kept in a snapshot. *)
Definition snap_ok (c : card) : Prop :=
  contains "char-card" (className c) = true ∧ dropZone c = false ∧
  ((data_filled c = Some "false" ∧ contains "empty" (className c) = true)
   ∨ (data_filled c = None ∧ contains "empty" (className c) = false)).

Definition action_ok (s : state) : Prop :=
  ∀ a c, lastDragAction s = Some a → get_card (a_card a) s = Some c →
         dropZone c = true.

Definition snapshot_ok (s : state) : Prop :=
  ∀ r, stateR s = Some r → Forall snap_ok (line1HTML r ++ line2HTML r).

Definition page_ok (s : state) : Prop :=
  Forall card_ok (cards s) ∧ action_ok s ∧ snapshot_ok s.

(** Events that stay within the current round. *)
Definition in_round (e : event) : Prop := e ≠ RestartClick.

(** ** Sample runs *)

(** A sample sequence of [Math.random] values: [k / 11] for
    [k = (7 n + 3) mod 11]. *)
Definition sample_random (n : nat) : unit_interval :=
  let k := ((7 * n + 3) mod 11)%nat in
  UnitInterval (N.of_nat k) (Pos.of_nat (11 - k)).

(** A sample browser: these values of [Math.random], and a selector engine
    that refuses every selector that is not plain (the sample runs use
    plain ones only). *)
Definition sample_browser : browser := Browser sample_random (λ _ _, Invalid).

(** [new PoetryGame()] when [poet.txt] cannot be fetched, up to the call of
    [startGame]. *)
Definition default_start : state := loadPoems None (constructor (Config None None)).

Definition default_round : state :=
  state_of (init sample_browser None (constructor (Config None None))).

(** [new PoetryGame({removeCount: 11})], same page. *)
Definition start_11 : state :=
  loadPoems None (constructor (Config None (Some 11))).

Definition round_11 : state :=
  state_of (init sample_browser None (constructor (Config None (Some 11)))).

(** Drops that put every removed character back where it came from. *)
Definition original_fills (s : state) : list event :=
  (λ r, Drop (card_of (Position (r_line r) (r_index r))) (r_char r) "")
    <$> removedChars s.

Definition all_filled_11 : state :=
  run sample_browser (original_fills round_11) round_11.

(** The blanks of [default_round] are (0,2), (0,4), (1,4) and (1,3); its
    candidates 0 to 3 carry the characters of (0,2), (1,3), (1,4) and
    (0,4). *)
Definition first_fill : list event := [Drop (InLine1 2) [36935%N] "0"].

Definition right_fills : list event :=
  [Drop (InLine1 2) [36935%N] "0"; Drop (InLine1 4) [29483%N] "3";
   Drop (InLine2 4) [39134%N] "2"; Drop (InLine2 3) [21568%N] "1"].

Definition wrong_fills : list event :=
  [Drop (InLine1 2) [29483%N] "3"; Drop (InLine1 4) [36935%N] "0";
   Drop (InLine2 4) [39134%N] "2"; Drop (InLine2 3) [21568%N] "1"].

Definition after_first_fill : state := run sample_browser first_fill default_round.
Definition solved : state := run sample_browser right_fills default_round.
Definition failed : state := run sample_browser wrong_fills default_round.

(** The part of a card that says where it sits, what it originally showed
    and whether it is a blank. *)
Definition layout (c : card) : nat * nat * jsstring * jsstring * bool :=
  (data_line c, data_index c, data_char c, data_lineText c, is_blank c).

(** The fields of the game that are written by [startGame] only. *)
Definition round_setup (s : state)
  : list (list jsstring) * (option jsstring * option jsstring) * list removed
    * option snapshot * Z * Z :=
  (sections s, currentLines s, removedChars s, stateR s, lineLength s,
   removeCount s).

(** A restart while the restore scheduled by the Incorrect verdict of
    [failed] is pending, followed by a fill in the new round: its blank
    (0,4) receives candidate 0. *)
Definition restart_round : state := state_of (startGame sample_browser failed).

Definition new_fill : list event := [Drop (InLine1 4) [21253%N] "0"].

Definition restarted : state := run sample_browser new_fill restart_round.

(** Counts of filled blanks and of consumed candidates. *)
Definition filled_count (s : state) : nat :=
  length (filter (λ c, data_filled c = Some "true") (cards s)).

Definition consumed_count (s : state) : nat :=
  length (filter (λ d, available d = false) (dragChars s)).

(** A second drop that names candidate 0 again, after [first_fill] has
    consumed it. *)
Definition second_fill : state :=
  drop sample_browser (InLine1 4) [29483%N] "0" after_first_fill.

(** [new PoetryGame({lineLength: 6})] when [poet.txt] cannot be fetched. *)
Definition start_6 : state :=
  loadPoems None (constructor (Config (Some 6) None)).

(** The layout of the two lines of the page. *)
Definition lines_layout (s : state)
  : list (nat * nat * jsstring * jsstring * bool)
    * list (nat * nat * jsstring * jsstring * bool) :=
  (layout <$> line1 s, layout <$> line2 s).

(** The layout as the parser reads it back from saved markup: the same,
    with the two texts passed through [parse_attr]. *)
Definition markup_layout (c : card) : nat * nat * jsstring * jsstring * bool :=
  (data_line c, data_index c, parse_attr (data_char c),
   parse_attr (data_lineText c), is_blank c).

Definition lines_markup_layout (s : state)
  : list (nat * nat * jsstring * jsstring * bool)
    * list (nat * nat * jsstring * jsstring * bool) :=
  (markup_layout <$> line1 s, markup_layout <$> line2 s).

(** Events other than the firing of a pending restore. *)
Definition no_timer (e : event) : Prop := e ≠ TimerFires.

(** A text the markup round trip gives back as it is: it holds no
    carriage return and no NUL. *)
Definition markup_stable (t : jsstring) : Prop := (13%N ∉ t) ∧ (0%N ∉ t).

(** ** Further readings of a state *)

(** The message box shows one of the listed messages: the index chosen by
    [showSuccess] lies within its five messages, the one chosen by
    [showError] within its four. *)
Definition message_ok (m : messageBox) : Prop :=
  match m with
  | NoMessage => True
  | SuccessMessage k => 0 ≤ k < 5
  | ErrorMessage k => 0 ≤ k < 4
  end.

Definition ui_ok (s : state) : Prop :=
  (is_Some (lastDragAction s) → undoDisabled s = false) ∧ message_ok (message s).

(** A record of [removedChars] agrees with the page and the current lines:
    the card at its position still carries its character as [data-char],
    and its line text is the current line of that index. *)
Definition removed_ok (s : state) (r : removed) : Prop :=
  data_char <$> get_card (card_of (Position (r_line r) (r_index r))) s
  = Some (r_char r)
  ∧ r_lineText r = line_at s (r_line r).

(** The card at column [i] of line [ln] shows the character of [line] at
    that column: it keeps it as [data-char], keeps the line as
    [data-line-text], and displays it unless the card is a blank. *)
Definition card_shows (line : jsstring) (ln i : nat) (c : card) : Prop :=
  ∃ u, line !! i = Some u
       ∧ data_char c = [u] ∧ data_lineText c = line
       ∧ data_line c = ln ∧ data_index c = i
       ∧ (is_blank c = false →
          textContent c = [u] ∧ className c = ["char-card"; "filled"]).

(** The corpus fits the configured line length: every section has two
    lines or more, every line has a code unit for every column of the
    grid, and when there is no section the grid is no wider than the five
    characters of the two built-in lines. *)
Definition corpus_fits (s : state) : Prop :=
  (∀ section, section ∈ sections s →
     (2 ≤ length section)%nat
     ∧ ∀ line, line ∈ section → lineLength s ≤ Z.of_nat (length line))
  ∧ (sections s = [] → lineLength s ≤ 5).

(** Two lines that follow each other in one section of the corpus, or the
    two built-in lines when the corpus has no section. *)
Definition adjacent_lines (s : state) (l0 l1 : jsstring) : Prop :=
  (sections s = [] ∧ l0 = default_line0 ∧ l1 = default_line1)
  ∨ ∃ section i, section ∈ sections s
                 ∧ section !! i = Some l0 ∧ section !! S i = Some l1.

(** A sample [poet.txt]: two sections of two lines of five letters, the
    second line ending in a carriage return, a stray letter before the
    mark, and leading blanks after it. *)
Definition sample_text : jsstring :=
  [65; 66; 67; 68; 69; 10; 70; 71; 72; 73; 74; 13; 10; 75; 61; 61; 61; 10; 10;
   32; 32; 76; 77; 78; 79; 80; 10; 81; 82; 83; 84; 85]%N.

Definition sample_loaded : state :=
  loadPoems (Some sample_text) (constructor (Config None None)).

(** The card a removed record points at. *)
Definition removed_ref (r : removed) : cardRef :=
  card_of (Position (r_line r) (r_index r)).

(** Drops that put the removed characters of [rs] back where they came
    from, each carrying the candidate id [ix] gives it. *)
Definition fills_of (ix : removed → string) (rs : list removed) : list event :=
  (λ r, Drop (removed_ref r) (r_char r) (ix r)) <$> rs.

(** ** Pronunciation *)








(** ** Pointer feedback *)

(** The page without the two classes that only follow the pointer:
    [drag-over] on cards and [dragging] on candidates. *)
Definition at_rest (s : state) : state :=
  set_dragChars (d_remove_class "dragging" <$> dragChars s)
    (set_line2 (remove_class "drag-over" <$> line2 s)
       (set_line1 (remove_class "drag-over" <$> line1 s) s)).

(** ** Candidate indices *)

(** The candidates of a list carry their own position as
    [data-drag-index]. *)
Definition indexed (l : list dragEl) : Prop :=
  ∀ k d, l !! k = Some d → d_dragIndex d = toString k.

(** The candidates of the page and those of the snapshot are indexed. *)
Definition candidates_ok (s : state) : Prop :=
  indexed (dragChars s) ∧ ∀ r, stateR s = Some r → indexed (dragCharsHTML r).

(** A handler that changes neither the indices of the candidates nor the
    snapshot. *)
Definition drag_frame (s s' : state) : Prop :=
  d_dragIndex <$> dragChars s' = d_dragIndex <$> dragChars s
  ∧ stateR s' = stateR s.

(** ** What a restart reads *)

(** The fields a new round is drawn from: the corpus, the two settings,
    the pending timers and the position in the [Math.random] sequence. *)
Definition same_inputs (s s' : state) : Prop :=
  sections s = sections s' ∧ lineLength s = lineLength s'
  ∧ removeCount s = removeCount s' ∧ timers s = timers s'
  ∧ rpos s = rpos s'.

(** The state [t] with the snapshot, the candidates, the message and the
    undo button of [s]. *)
Definition overlay (s t : state) : state :=
  State (sections t) (currentLines t) (removedChars t) (stateR s)
        (lastDragAction t) (lineLength t) (removeCount t) (line1 t) (line2 t)
        (dragChars s) (message s) (undoDisabled s) (timers t) (rpos t).

Definition result_map (f : state → state) (r : result) : result :=
  match r with
  | Normal s => Normal (f s)
  | Thrown s => Thrown (f s)
  end.

(** * Properties *)

(** ** Random integers and shuffles *)

Lemma floor_mul_range (r : unit_interval) (n : Z) :
  0 < n → 0 ≤ floor_mul r n < n.
Proof.
  intros Hn. unfold floor_mul.
  pose proof (N2Z.is_nonneg (numer r)) as Ha.
  pose proof (Pos2Z.is_pos (slack r)) as Hb.
  split.
  - apply Z.div_pos; nia.
  - apply Z.div_lt_upper_bound; nia.
Qed.

Lemma swap_Permutation {A} (l : list A) (i j : nat) : swap l i j ≡ₚ l.
Proof.
  unfold swap.
  destruct (l !! j) as [x|] eqn:Hj; [|done].
  destruct (l !! i) as [y|] eqn:Hi; [|done].
  by apply Permutation_insert_swap.
Qed.

Section ShuffleFacts.
Variable host : browser.

Lemma shuffle_from_Permutation {A} (i : nat) (l : list A) (rp : nat) :
  (shuffle_from host i l rp).1 ≡ₚ l.
Proof.
  revert l rp. induction i as [|i IH]; intros l rp; simpl; [done|].
  rewrite IH. apply swap_Permutation.
Qed.

Lemma shuffle_Permutation {A} (l : list A) (rp : nat) :
  (shuffle host l rp).1 ≡ₚ l.
Proof. apply shuffle_from_Permutation. Qed.

Lemma shuffle_from_calls {A} (i : nat) (l : list A) (rp : nat) :
  (shuffle_from host i l rp).2 = (rp + i)%nat.
Proof.
  revert l rp. induction i as [|i IH]; intros l rp; simpl; [lia|].
  rewrite IH. lia.
Qed.
End ShuffleFacts.

(** ** The position grid and [slice] *)

Lemma elem_of_allPositions (L : Z) (p : position) :
  p ∈ allPositions L ↔ (p_line p < 2)%nat ∧ Z.of_nat (p_index p) < L.
Proof.
  unfold allPositions. rewrite elem_of_app, !list_elem_of_fmap.
  setoid_rewrite elem_of_seq. split.
  - intros [(i & -> & Hi)|(i & -> & Hi)]; simpl; lia.
  - intros [Hl Hi]. destruct p as [[|[|ln]] ix]; simpl in *; [left|right|lia];
      exists ix; (split; [done|lia]).
Qed.

Lemma NoDup_allPositions (L : Z) : NoDup (allPositions L).
Proof.
  unfold allPositions. apply NoDup_app. split_and!.
  - apply NoDup_fmap_2; [by intros ?? [=]|apply NoDup_seq].
  - intros p (i & -> & _)%list_elem_of_fmap (j & [=] & _)%list_elem_of_fmap.
  - apply NoDup_fmap_2; [by intros ?? [=]|apply NoDup_seq].
Qed.

Lemma length_allPositions (L : Z) :
  length (allPositions L) = (2 * Z.to_nat L)%nat.
Proof. unfold allPositions. rewrite length_app, !length_fmap, length_seq. lia. Qed.

Lemma slice0_sublist {A} (l : list A) (e : Z) : slice0 l e `sublist_of` l.
Proof. apply sublist_take. Qed.

Lemma length_slice0 {A} (l : list A) (e : Z) :
  Z.of_nat (length (slice0 l e)) =
  if bool_decide (e < 0) then Z.max (Z.of_nat (length l) + e) 0
  else Z.min e (Z.of_nat (length l)).
Proof.
  unfold slice0. rewrite length_take. case_bool_decide as He.
  - rewrite (proj2 (Z.ltb_lt _ _) He). lia.
  - rewrite (proj2 (Z.ltb_ge _ _)) by lia. lia.
Qed.

(** ** Cards of the page *)

Lemma get_card_update_card_eq r f s :
  get_card r (update_card r f s) = f <$> get_card r s.
Proof. destruct r; simpl; apply list_lookup_alter_eq. Qed.

Lemma get_card_update_card_ne r r' f s :
  r ≠ r' → get_card r (update_card r' f s) = get_card r s.
Proof.
  intros Hne. destruct r, r'; simpl; try done;
    apply list_lookup_alter_ne; congruence.
Qed.

Lemma get_card_update_card r r' f s :
  get_card r (update_card r' f s) =
  if bool_decide (r = r') then f <$> get_card r s else get_card r s.
Proof.
  case_bool_decide as H.
  - subst. apply get_card_update_card_eq.
  - by apply get_card_update_card_ne.
Qed.

Lemma cards_update_card P r f s :
  Forall P (cards s) →
  (∀ c, get_card r s = Some c → P c → P (f c)) →
  Forall P (cards (update_card r f s)).
Proof.
  unfold cards. rewrite !Forall_app. intros [H1 H2] Hf.
  destruct r; simpl in *; split; try done; by apply Forall_alter.
Qed.

Lemma get_card_elem_of r s c : get_card r s = Some c → c ∈ cards s.
Proof.
  unfold cards. rewrite elem_of_app.
  destruct r; simpl; intros H%list_elem_of_lookup_2; auto.
Qed.

Lemma elem_of_cards s c : c ∈ cards s → ∃ r, get_card r s = Some c.
Proof.
  unfold cards. rewrite elem_of_app.
  intros [[i Hi]%list_elem_of_lookup_1|[i Hi]%list_elem_of_lookup_1];
    [by exists (InLine1 i)|by exists (InLine2 i)].
Qed.

(** ** Round generation *)

Lemma blank_card_fresh_blank c : fresh_card c → fresh_blank (blank_card c).
Proof. intros (_ & _ & Hc & _). by repeat split. Qed.

Lemma blank_card_generated c : generated c → generated (blank_card c).
Proof.
  intros [H|(_ & _ & _ & Hc & _)]; right; [by apply blank_card_fresh_blank|].
  by repeat split.
Qed.

Lemma remove_at_Normal p s s' :
  remove_at p s = Normal s' →
  ∃ c, get_card (card_of p) s = Some c ∧
       s' = update_card (card_of p) blank_card
              (set_removedChars
                 (removedChars s ++
                  [Removed (data_char c) (p_line p) (p_index p)
                           (line_at s (p_line p))]) s).
Proof.
  unfold remove_at. destruct (get_card (card_of p) s) as [c|]; [|done].
  intros [= <-]. by exists c.
Qed.

(** The fields [forEach remove_at] leaves alone, whichever way it ends. *)
Lemma forEach_remove_at_frame ps s :
  let s' := state_of (forEach remove_at ps s) in
  sections s' = sections s ∧ currentLines s' = currentLines s
  ∧ stateR s' = stateR s ∧ lastDragAction s' = lastDragAction s
  ∧ lineLength s' = lineLength s ∧ removeCount s' = removeCount s
  ∧ dragChars s' = dragChars s ∧ message s' = message s
  ∧ undoDisabled s' = undoDisabled s ∧ timers s' = timers s
  ∧ rpos s' = rpos s
  ∧ length (line1 s') = length (line1 s)
  ∧ length (line2 s') = length (line2 s).
Proof.
  cbv zeta. revert s. induction ps as [|p ps IH]; intros s; simpl; [done|].
  destruct (remove_at p s) as [t|t] eqn:Hp; simpl.
  - apply remove_at_Normal in Hp as (c & _ & ->).
    match goal with |- context [forEach remove_at ps ?t] => specialize (IH t) end.
    destruct IH as (-> & -> & -> & -> & -> & -> & -> & -> & -> & -> & -> & -> & ->).
    destruct (card_of p); simpl; rewrite ?length_alter; done.
  - unfold remove_at in Hp. destruct (get_card (card_of p) s); [done|].
    by injection Hp as <-.
Qed.

Lemma forEach_remove_at_blankPositions ps s s' :
  forEach remove_at ps s = Normal s' →
  blankPositions s' = blankPositions s ++ ps.
Proof.
  revert s. induction ps as [|p ps IH]; intros s; simpl.
  - intros [= <-]. by rewrite app_nil_r.
  - destruct (remove_at p s) as [t|t] eqn:Hp; simpl; [|done].
    intros H. rewrite (IH _ H).
    apply remove_at_Normal in Hp as (c & _ & ->).
    unfold blankPositions. destruct (card_of p), p; simpl;
      rewrite fmap_app, <- app_assoc; done.
Qed.

Lemma forEach_remove_at_cards P ps s s' :
  forEach remove_at ps s = Normal s' →
  (∀ c, P c → P (blank_card c)) →
  Forall P (cards s) → Forall P (cards s').
Proof.
  intros H HP. revert s H. induction ps as [|p ps IH]; intros s; simpl.
  - by intros [= <-].
  - destruct (remove_at p s) as [t|t] eqn:Hp; simpl; [|done].
    intros H Hs. apply (IH _ H).
    apply remove_at_Normal in Hp as (c & _ & ->).
    apply cards_update_card; [|by auto].
    destruct s; exact Hs.
Qed.

Lemma forEach_remove_at_get_card ps s s' r :
  forEach remove_at ps s = Normal s' →
  get_card r s' =
  if bool_decide (r ∈ card_of <$> ps) then blank_card <$> get_card r s
  else get_card r s.
Proof.
  revert s. induction ps as [|p ps IH]; intros s; cbn [forEach].
  - intros [= <-]. case_bool_decide as H; [by apply elem_of_nil in H|done].
  - destruct (remove_at p s) as [t|t] eqn:Hp; cbn [bind]; [|done].
    intros H. rewrite (IH _ H).
    apply remove_at_Normal in Hp as (c & Hc & ->).
    rewrite get_card_update_card.
    assert (∀ u, get_card r (set_removedChars u s) = get_card r s) as ->
      by (intros; by destruct r).
    rewrite fmap_cons. destruct (decide (r = card_of p)) as [->|Hne].
    + rewrite (bool_decide_eq_true_2 (_ = _)) by done.
      rewrite (bool_decide_eq_true_2 (_ ∈ _ :: _)) by apply list_elem_of_here.
      case_bool_decide; [|done]. by destruct (get_card (card_of p) s).
    + rewrite (bool_decide_eq_false_2 (_ = _)) by done.
      rewrite (bool_decide_ext (r ∈ card_of p :: (card_of <$> ps))
                               (r ∈ card_of <$> ps)); [done|].
      rewrite elem_of_cons. tauto.
Qed.

Lemma forEach_remove_at_success ps s :
  Forall (λ p, is_Some (get_card (card_of p) s)) ps →
  ∃ s', forEach remove_at ps s = Normal s'.
Proof.
  revert s. induction ps as [|p ps IH]; intros s; simpl; [by eauto|].
  intros [Hp Hps]%Forall_cons. unfold remove_at at 1.
  destruct Hp as [c ->]. simpl. apply IH.
  eapply Forall_impl; [exact Hps|]. intros q [d Hd]. simpl.
  rewrite get_card_update_card.
  assert (∀ u, get_card (card_of q) (set_removedChars u s) = get_card (card_of q) s)
    as -> by (intros; by destruct (card_of q)).
  rewrite Hd. case_bool_decide; by eauto.
Qed.

Section Generation.
Variable host : browser.

Lemma selectRandomLines_frame s :
  let s' := state_of (selectRandomLines host s) in
  sections s' = sections s ∧ removedChars s' = removedChars s
  ∧ stateR s' = stateR s ∧ lastDragAction s' = lastDragAction s
  ∧ lineLength s' = lineLength s ∧ removeCount s' = removeCount s
  ∧ line1 s' = line1 s ∧ line2 s' = line2 s ∧ dragChars s' = dragChars s
  ∧ message s' = message s ∧ undoDisabled s' = undoDisabled s
  ∧ timers s' = timers s.
Proof.
  cbv zeta. unfold selectRandomLines. case_bool_decide; [done|]. simpl.
  destruct (js_index _ _); done.
Qed.

Lemma renderPoem_Normal s s' :
  renderPoem s = Normal s' →
  ∃ l0 l1,
    currentLines s = (Some l0, Some l1)
    ∧ s' = set_line2 (imap (λ i c, createCharCard s [c] 1 i) l1)
             (set_line1 (imap (λ i c, createCharCard s [c] 0 i) l0) s).
Proof.
  unfold renderPoem. destruct s as [? [[l0|] [l1|]] ? ? ? ? ? ? ? ? ? ? ? ?];
    simpl; try done.
  intros [= <-]. by exists l0, l1.
Qed.

Lemma renderPoem_fresh s s' :
  renderPoem s = Normal s' → Forall fresh_card (cards s').
Proof.
  intros (l0 & l1 & _ & ->)%renderPoem_Normal. unfold cards. simpl.
  apply Forall_app; split; apply Forall_lookup; intros i c;
    rewrite list_lookup_imap_Some; intros (y & _ & ->); by repeat split.
Qed.

Lemma removeRandomChars_Normal s s' :
  removeRandomChars host s = Normal s' →
  ∃ sd,
    forEach remove_at
      (slice0 (shuffle host (allPositions (lineLength s)) (rpos s)).1
              (removeCount s))
      (set_rpos (shuffle host (allPositions (lineLength s)) (rpos s)).2
                (set_removedChars [] s)) = Normal sd
    ∧ s' = renderDragChars (shuffle host (removedChars sd) (rpos sd)).1
             (set_rpos (shuffle host (removedChars sd) (rpos sd)).2 sd).
Proof.
  unfold removeRandomChars. cbn [lineLength set_removedChars rpos removeCount].
  destruct (shuffle host (allPositions (lineLength s)) (rpos s)) as [sh rp].
  cbn [removeCount set_rpos fst snd].
  destruct (forEach remove_at _ _) as [sd|sd] eqn:Hd; cbn [bind]; [|done].
  destruct (shuffle host (removedChars sd) (rpos sd)) as [sh' rp'] eqn:Hs'.
  intros [= <-]. exists sd. by rewrite Hs'.
Qed.

Lemma removeRandomChars_blankPositions s s' :
  removeRandomChars host s = Normal s' →
  blankPositions s' =
  slice0 (shuffle host (allPositions (lineLength s)) (rpos s)).1 (removeCount s).
Proof.
  intros (sd & Hd & ->)%removeRandomChars_Normal.
  apply forEach_remove_at_blankPositions in Hd. exact Hd.
Qed.

Lemma removeRandomChars_fields s s' :
  removeRandomChars host s = Normal s' →
  sections s' = sections s ∧ currentLines s' = currentLines s
  ∧ stateR s' = stateR s ∧ lastDragAction s' = lastDragAction s
  ∧ lineLength s' = lineLength s ∧ removeCount s' = removeCount s
  ∧ message s' = message s ∧ undoDisabled s' = undoDisabled s
  ∧ timers s' = timers s.
Proof.
  intros (sd & Hd & ->)%removeRandomChars_Normal.
  pose proof (forEach_remove_at_frame
                (slice0 (shuffle host (allPositions (lineLength s)) (rpos s)).1
                        (removeCount s))
                (set_rpos (shuffle host (allPositions (lineLength s)) (rpos s)).2
                          (set_removedChars [] s))) as Hf.
  rewrite Hd in Hf. cbv zeta in Hf. simpl in Hf. simpl. tauto.
Qed.

Lemma removeRandomChars_generated s s' :
  removeRandomChars host s = Normal s' →
  Forall fresh_card (cards s) → Forall generated (cards s').
Proof.
  intros (sd & Hd & ->)%removeRandomChars_Normal Hs.
  change (Forall generated (cards sd)).
  eapply forEach_remove_at_cards; [exact Hd|exact blank_card_generated|].
  eapply Forall_impl; [exact Hs|]. by left.
Qed.

Lemma removeRandomChars_available s s' :
  removeRandomChars host s = Normal s' →
  Forall (λ d, d_className d = ["drag-char"]) (dragChars s').
Proof.
  intros (sd & Hd & ->)%removeRandomChars_Normal. simpl.
  apply Forall_lookup. intros i d.
  rewrite list_lookup_imap_Some. by intros (y & _ & ->).
Qed.

Lemma startGame_Normal s s1 :
  startGame host s = Normal s1 →
  ∃ sa sb sc,
    selectRandomLines host (set_lastDragAction None s) = Normal sa
    ∧ renderPoem sa = Normal sb
    ∧ removeRandomChars host sb = Normal sc
    ∧ s1 = updateUndoButtonState (clearMessage (saveStateR sc)).
Proof.
  unfold startGame.
  destruct (selectRandomLines host _) as [sa|] eqn:Ha; cbn [bind]; [|done].
  destruct (renderPoem sa) as [sb|] eqn:Hb; cbn [bind]; [|done].
  destruct (removeRandomChars host sb) as [sc|] eqn:Hc; cbn [bind]; [|done].
  intros [= <-]. by exists sa, sb, sc.
Qed.

(** What a completed [startGame] leaves behind. *)
Lemma startGame_generated s s1 :
  startGame host s = Normal s1 →
  Forall generated (cards s1)
  ∧ Forall (λ d, d_className d = ["drag-char"]) (dragChars s1)
  ∧ stateR s1 = Some (Snapshot (strip_listeners <$> line1 s1)
                               (strip_listeners <$> line2 s1)
                               (dragChars s1) (removedChars s1))
  ∧ lastDragAction s1 = None
  ∧ message s1 = NoMessage
  ∧ lineLength s1 = lineLength s ∧ removeCount s1 = removeCount s
  ∧ sections s1 = sections s ∧ timers s1 = timers s.
Proof.
  intros (sa & sb & sc & Ha & Hb & Hc & ->)%startGame_Normal.
  pose proof (selectRandomLines_frame (set_lastDragAction None s)) as Hf.
  rewrite Ha in Hf. cbv zeta in Hf. simpl in Hf.
  destruct Hf as (Hs1 & _ & _ & Hl & HL & HR & _ & _ & _ & _ & _ & HT).
  pose proof (removeRandomChars_fields _ _ Hc)
    as (Hs2 & _ & _ & Hl' & HL' & HR' & _ & _ & HT').
  apply renderPoem_Normal in Hb as Hb'. destruct Hb' as (l0 & l1 & _ & Hsb).
  split_and!; simpl.
  - change (Forall generated (cards sc)).
    eapply removeRandomChars_generated; [exact Hc|].
    by eapply renderPoem_fresh.
  - by eapply removeRandomChars_available.
  - done.
  - by rewrite Hl', Hsb.
  - done.
  - by rewrite HL', Hsb.
  - by rewrite HR', Hsb.
  - by rewrite Hs2, Hsb.
  - by rewrite HT', Hsb.
Qed.
End Generation.

Lemma slice0_all {A} (l : list A) (e : Z) :
  Z.of_nat (length l) ≤ e → slice0 l e = l.
Proof.
  intros He. unfold slice0.
  rewrite (proj2 (Z.ltb_ge _ _)) by lia.
  apply take_ge. lia.
Qed.

Lemma blank_positions_of_startGame host s s' :
  startGame host s = Normal s' →
  ∃ rp, blankPositions s' =
        slice0 (shuffle host (allPositions (lineLength s')) rp).1 (removeCount s').
Proof.
  intros H. pose proof (startGame_generated _ _ _ H)
    as (_ & _ & _ & _ & _ & HL & HR & _).
  apply startGame_Normal in H as (sa & sb & sc & Ha & Hb & Hc & ->).
  pose proof (removeRandomChars_blankPositions _ _ _ Hc) as Hbp.
  pose proof (removeRandomChars_fields _ _ _ Hc) as (_ & _ & _ & _ & HL' & HR' & _).
  simpl in HL, HR. exists (rpos sb).
  change (blankPositions sc =
          slice0 (shuffle host (allPositions (lineLength sc)) (rpos sb)).1
                 (removeCount sc)).
  by rewrite Hbp, HL', HR'.
Qed.

Lemma startGame_page_blanks host s s' r c :
  startGame host s = Normal s' →
  get_card r s' = Some c →
  (is_blank c = true ↔ r ∈ card_of <$> blankPositions s').
Proof.
  intros (sa & sb & sc & Ha & Hb & Hc & ->)%startGame_Normal.
  pose proof (removeRandomChars_blankPositions _ _ _ Hc) as Hbp.
  pose proof (renderPoem_fresh _ _ Hb) as Hfresh.
  apply removeRandomChars_Normal in Hc as (sd & Hd & ->).
  assert (∀ t, get_card r (updateUndoButtonState (clearMessage (saveStateR t)))
               = get_card r t) as -> by (intros; by destruct r).
  assert (∀ l n t, get_card r (renderDragChars l (set_rpos n t)) = get_card r t)
    as -> by (intros; by destruct r).
  change (blankPositions sd = slice0
            (shuffle host (allPositions (lineLength sb)) (rpos sb)).1
            (removeCount sb)) in Hbp.
  assert (∀ l n t, blankPositions (updateUndoButtonState (clearMessage
            (saveStateR (renderDragChars l (set_rpos n t))))) = blankPositions t)
    as -> by done.
  rewrite Hbp, (forEach_remove_at_get_card _ _ _ r Hd).
  assert (∀ n u, get_card r (set_rpos n (set_removedChars u sb)) = get_card r sb)
    as -> by (intros; by destruct r).
  case_bool_decide as Hin.
  - destruct (get_card r sb) as [x|]; [|done]. by intros [= <-].
  - intros Hr. apply get_card_elem_of in Hr as Hx.
    rewrite Forall_forall in Hfresh. destruct (Hfresh _ Hx) as (_ & Hf & _).
    unfold is_blank. rewrite Hf. split; [|done].
    intros [[] ?]%bool_decide_eq_true; done.
Qed.

Lemma removeRandomChars_unfold host s :
  removeRandomChars host s =
  (sd <- forEach remove_at
           (slice0 (shuffle host (allPositions (lineLength s)) (rpos s)).1
                   (removeCount s))
           (set_rpos (shuffle host (allPositions (lineLength s)) (rpos s)).2
                     (set_removedChars [] s));;
   Normal (renderDragChars (shuffle host (removedChars sd) (rpos sd)).1
             (set_rpos (shuffle host (removedChars sd) (rpos sd)).2 sd))).
Proof.
  unfold removeRandomChars. cbn [lineLength set_removedChars rpos removeCount].
  destruct (shuffle host (allPositions (lineLength s)) (rpos s)) as [sh rp].
  cbn [removeCount set_rpos fst snd set_removedChars].
  destruct (forEach remove_at _ _) as [sd|sd]; cbn [bind]; [|done].
  by destruct (shuffle host (removedChars sd) (rpos sd)).
Qed.

(** Generation goes through whenever both rendered lines have a card for
    every column of the grid. *)
Lemma removeRandomChars_success host s :
  (Z.to_nat (lineLength s) ≤ length (line1 s))%nat →
  (Z.to_nat (lineLength s) ≤ length (line2 s))%nat →
  ∃ s', removeRandomChars host s = Normal s'.
Proof.
  intros H1 H2. rewrite removeRandomChars_unfold.
  edestruct (forEach_remove_at_success
               (slice0 (shuffle host (allPositions (lineLength s)) (rpos s)).1
                       (removeCount s))
               (set_rpos (shuffle host (allPositions (lineLength s)) (rpos s)).2
                         (set_removedChars [] s))) as [sd Hd].
  - apply Forall_forall. intros p Hp.
    eapply elem_of_sublist in Hp; [|apply slice0_sublist].
    rewrite shuffle_Permutation in Hp.
    apply elem_of_allPositions in Hp as [Hl Hi].
    unfold card_of. case_bool_decide; simpl; apply lookup_lt_is_Some; lia.
  - rewrite Hd. simpl. eauto.
Qed.

(** ** Class lists *)

Lemma contains_true c cl : contains c cl = true ↔ c ∈ cl.
Proof. unfold contains. apply bool_decide_eq_true. Qed.

Lemma contains_false c cl : contains c cl = false ↔ c ∉ cl.
Proof. unfold contains. apply bool_decide_eq_false. Qed.

Lemma contains_classList_remove c c' cl :
  contains c (classList_remove c' cl)
  = contains c cl && negb (bool_decide (c = c')).
Proof.
  unfold contains, classList_remove.
  destruct (bool_decide (c ∈ cl)) eqn:Hin, (bool_decide (c = c')) eqn:Heq; simpl;
    [apply bool_decide_eq_false|apply bool_decide_eq_true
     |apply bool_decide_eq_false|apply bool_decide_eq_false];
    rewrite list_elem_of_filter;
    try apply bool_decide_eq_true in Hin; try apply bool_decide_eq_false in Hin;
    try apply bool_decide_eq_true in Heq; try apply bool_decide_eq_false in Heq;
    tauto.
Qed.

Lemma contains_classList_add c c' cl :
  contains c (classList_add c' cl) = contains c cl || bool_decide (c = c').
Proof.
  unfold classList_add. destruct (contains c' cl) eqn:Hc'.
  - case_bool_decide as Heq; [subst; rewrite Hc'; done|by rewrite orb_false_r].
  - unfold contains.
    destruct (bool_decide (c ∈ cl)) eqn:Hin, (bool_decide (c = c')) eqn:Heq; simpl;
      [apply bool_decide_eq_true|apply bool_decide_eq_true
       |apply bool_decide_eq_true|apply bool_decide_eq_false];
      rewrite elem_of_app, list_elem_of_singleton;
      try apply bool_decide_eq_true in Hin; try apply bool_decide_eq_false in Hin;
      try apply bool_decide_eq_true in Heq; try apply bool_decide_eq_false in Heq;
      tauto.
Qed.

Lemma fmap_alter_same {A B} (g : A → B) (f : A → A) (i : nat) (l : list A) :
  (∀ x, l !! i = Some x → g (f x) = g x) → g <$> alter f i l = g <$> l.
Proof.
  intros Hg. apply list_eq. intros j. rewrite !list_lookup_fmap, list_lookup_alter.
  case_decide; [subst|done]. destruct (l !! j) as [x|] eqn:Hx; simpl; [|done].
  by rewrite Hg.
Qed.

(** ** Changes that do not touch the Round *)

Lemma assignment_remove_drag_over c :
  assignment (remove_class "drag-over" c) = assignment c.
Proof.
  unfold assignment. simpl. rewrite contains_classList_remove.
  by rewrite andb_true_r.
Qed.

Lemma assignment_add_drag_over c :
  assignment (add_class "drag-over" c) = assignment c.
Proof.
  unfold assignment. simpl. rewrite contains_classList_add.
  by rewrite orb_false_r.
Qed.

Lemma round_of_update_card r f s :
  (∀ c, get_card r s = Some c → assignment (f c) = assignment c) →
  round_of (update_card r f s) = round_of s.
Proof.
  intros Hf. unfold round_of, cards.
  destruct r; simpl in *; rewrite !fmap_app, fmap_alter_same; done.
Qed.

Lemma round_of_update_drag k f s :
  (∀ d, dragChars s !! k = Some d →
        d_char (f d) = d_char d ∧ d_dragIndex (f d) = d_dragIndex d
        ∧ available (f d) = available d) →
  round_of (update_drag k f s) = round_of s.
Proof.
  intros Hf. unfold round_of. simpl. rewrite fmap_alter_same; [done|].
  intros d Hd. destruct (Hf d Hd) as (-> & -> & ->). done.
Qed.

Lemma round_of_dragging_add k s :
  round_of (update_drag k (d_add_class "dragging") s) = round_of s.
Proof.
  apply round_of_update_drag. intros d _. unfold available. simpl.
  by rewrite contains_classList_add, orb_false_r.
Qed.

Lemma round_of_dragging_remove k s :
  round_of (update_drag k (d_remove_class "dragging") s) = round_of s.
Proof.
  apply round_of_update_drag. intros d _. unfold available. simpl.
  by rewrite contains_classList_remove, andb_true_r.
Qed.

Lemma round_of_clear_drag_over s : round_of (clear_drag_over s) = round_of s.
Proof.
  unfold round_of, clear_drag_over, cards. simpl.
  rewrite !fmap_app, <- !list_fmap_compose.
  f_equal. f_equal; apply list_fmap_ext; intros i c _; simpl;
    destruct (is_empty_card c); by rewrite ?assignment_remove_drag_over.
Qed.

Lemma get_card_clear_drag_over r s :
  get_card r (clear_drag_over s)
  = (λ c, if is_empty_card c then remove_class "drag-over" c else c)
    <$> get_card r s.
Proof. destruct r; simpl; by rewrite list_lookup_fmap. Qed.

(** ** The shape of the page is kept by every event *)

Lemma generated_card_ok c : generated c → card_ok c.
Proof.
  intros [(Hc & Hf & _ & Hd)|(Hc & _ & Hf & _ & Hd)];
    unfold card_ok; rewrite Hc, Hf; split; try done.
  split; [done|]. by left.
Qed.

Lemma generated_snap_ok c : generated c → snap_ok (strip_listeners c).
Proof.
  intros [(Hc & Hf & _)|(Hc & _ & Hf & _)];
    unfold snap_ok; simpl; rewrite Hc, Hf; split_and!; try done; [right|left]; done.
Qed.

Lemma generated_rebind c :
  generated c →
  (if is_empty_card (strip_listeners c) then setupDropZone (strip_listeners c)
   else strip_listeners c) = c.
Proof.
  intros [(Hc & _ & _ & Hd)|(Hc & _ & _ & _ & Hd)];
    destruct c; simpl in *; subst; done.
Qed.

Lemma snap_ok_rebind c :
  snap_ok c → card_ok (if is_empty_card c then setupDropZone c else c).
Proof.
  intros (Hcc & Hd & [[Hf He]|[Hf He]]); unfold is_empty_card;
    rewrite Hcc, He; simpl; unfold card_ok; simpl; rewrite Hcc, Hf;
    split; try done. split; [done|]. by left.
Qed.

Lemma card_ok_add_class c :
  card_ok c → card_ok (add_class "drag-over" c).
Proof.
  unfold card_ok. simpl. rewrite !contains_classList_add.
  rewrite !(bool_decide_eq_false_2 (_ = "drag-over")) by done.
  by rewrite !orb_false_r.
Qed.

Lemma card_ok_remove_class c :
  card_ok c → card_ok (remove_class "drag-over" c).
Proof.
  unfold card_ok. simpl. rewrite !contains_classList_remove.
  rewrite !(bool_decide_eq_false_2 (_ = "drag-over")) by done.
  by rewrite !andb_true_r.
Qed.

Lemma card_ok_fill_card char c :
  dropZone c = true → card_ok (fill_card char c).
Proof.
  intros Hd. unfold card_ok. simpl. split; [done|]. split; [done|].
  right. by eauto.
Qed.

Lemma card_ok_empty_card c : dropZone c = true → card_ok (empty_card c).
Proof.
  intros Hd. unfold card_ok. simpl. split; [done|]. split; [done|]. by left.
Qed.

Lemma card_ok_empty_class c :
  card_ok c → contains "empty" (className c) = true →
  dropZone c = true ∧ data_filled c = Some "false".
Proof.
  intros [_ H] He. destruct (data_filled c) as [f|].
  - destruct H as [Hd [[-> _]|[_ [He' _]]]]; [done|congruence].
  - destruct H as [He' _]. congruence.
Qed.

Lemma card_ok_dropZone c :
  card_ok c → dropZone c = true → is_blank c = true.
Proof.
  intros [_ H] Hd. unfold is_blank. destruct (data_filled c); [done|].
  destruct H. congruence.
Qed.

Lemma page_ok_ext s t :
  line1 t = line1 s → line2 t = line2 s →
  lastDragAction t = lastDragAction s → stateR t = stateR s →
  page_ok s → page_ok t.
Proof.
  intros H1 H2 Ha Hr (Hc & Hact & Hsnap). split_and!.
  - unfold cards. by rewrite H1, H2.
  - intros a c. rewrite Ha.
    assert (get_card (a_card a) t = get_card (a_card a) s) as ->
      by (destruct (a_card a); simpl; congruence).
    apply Hact.
  - intros r. rewrite Hr. apply Hsnap.
Qed.

Lemma page_ok_update_card r f s :
  page_ok s →
  (∀ c, get_card r s = Some c → card_ok c →
        card_ok (f c) ∧ dropZone (f c) = dropZone c) →
  page_ok (update_card r f s).
Proof.
  intros (Hc & Hact & Hsnap) Hf. split_and!.
  - apply cards_update_card; [done|]. intros c Hr Hok. by apply Hf.
  - intros a c.
    assert (lastDragAction (update_card r f s) = lastDragAction s) as ->
      by (by destruct r).
    intros Ha. rewrite get_card_update_card. case_bool_decide as Heq.
    + destruct (get_card (a_card a) s) as [c0|] eqn:Hc0; [|done].
      intros [= <-]. subst r.
      rewrite Forall_forall in Hc.
      destruct (Hf c0 Hc0 (Hc _ (get_card_elem_of _ _ _ Hc0))) as [_ ->].
      by eapply Hact.
    + by apply Hact.
  - intros r'. assert (stateR (update_card r f s) = stateR s) as ->
      by (by destruct r).
    apply Hsnap.
Qed.

Lemma page_ok_card s r c : page_ok s → get_card r s = Some c → card_ok c.
Proof.
  intros (Hc & _) Hr. rewrite Forall_forall in Hc.
  by apply Hc, (get_card_elem_of r).
Qed.

Lemma page_ok_clear_action s : page_ok s → page_ok (set_lastDragAction None s).
Proof. intros (Hc & _ & Hsnap). split_and!; [done| |done]. by intros a c. Qed.

Lemma page_ok_set_action act s :
  page_ok s →
  (∀ c, get_card (a_card act) s = Some c → dropZone c = true) →
  page_ok (set_lastDragAction (Some act) s).
Proof.
  intros (Hc & _ & Hsnap) Hd. split_and!; [done| |done].
  intros a c [= <-]. assert (get_card (a_card act) (set_lastDragAction (Some act) s)
    = get_card (a_card act) s) as -> by (by destruct (a_card act)).
  apply Hd.
Qed.

Lemma page_ok_clear_drag_over s : page_ok s → page_ok (clear_drag_over s).
Proof.
  intros (Hc & Hact & Hsnap). split_and!.
  - unfold cards, clear_drag_over in *. simpl.
    rewrite <- fmap_app. apply Forall_fmap. eapply Forall_impl; [exact Hc|].
    intros c Hok. simpl. destruct (is_empty_card c); [|done].
    by apply card_ok_remove_class.
  - intros a c Ha. rewrite get_card_clear_drag_over.
    destruct (get_card (a_card a) s) as [c0|] eqn:Hc0; [|done].
    intros [= <-]. specialize (Hact a c0 Ha Hc0).
    by destruct (is_empty_card c0).
  - exact Hsnap.
Qed.

Section Invariant.
Variable host : browser.

Lemma checkCompletion_fields s :
  let s' := checkCompletion host s in
  line1 s' = line1 s ∧ line2 s' = line2 s ∧ dragChars s' = dragChars s
  ∧ lastDragAction s' = lastDragAction s ∧ stateR s' = stateR s
  ∧ currentLines s' = currentLines s ∧ removedChars s' = removedChars s
  ∧ lineLength s' = lineLength s ∧ removeCount s' = removeCount s
  ∧ sections s' = sections s.
Proof. cbv zeta. unfold checkCompletion. by destruct (evaluate s). Qed.

Lemma page_ok_checkCompletion s : page_ok s → page_ok (checkCompletion host s).
Proof.
  pose proof (checkCompletion_fields s) as (H1 & H2 & _ & Ha & Hr & _).
  by apply page_ok_ext.
Qed.

Lemma page_ok_update_drag k f s : page_ok s → page_ok (update_drag k f s).
Proof. by apply page_ok_ext. Qed.

Lemma page_ok_undoLastDrag s : page_ok s → page_ok (undoLastDrag s).
Proof.
  intros Hok. unfold undoLastDrag.
  destruct (lastDragAction s) as [a|] eqn:Ha; [|done].
  assert (page_ok (update_card (a_card a) empty_card s)) as Hok1.
  { apply page_ok_update_card; [done|]. intros c Hc _.
    destruct Hok as (_ & Hact & _). specialize (Hact a c Ha Hc).
    split; [by apply card_ok_empty_card|done]. }
  eapply (page_ok_ext (set_lastDragAction None _)); [done..|].
  apply page_ok_clear_action.
  destruct (a_dragChar a); [done|by apply page_ok_update_drag|done].
Qed.

(** The fill shared by the [drop] and [touchend] listeners, on a card
    that carries the drop listeners. *)
Lemma page_ok_fill ref dragChar char c s :
  page_ok s → get_card ref s = Some c → dropZone c = true →
  page_ok (update_card ref (fill_card char)
             (updateUndoButtonState
                (set_lastDragAction (Some (DragAction ref dragChar char)) s))).
Proof.
  intros Hok Hc Hd. apply page_ok_update_card.
  - eapply (page_ok_ext (set_lastDragAction _ s)); [done..|].
    apply page_ok_set_action; [done|]. simpl. intros c'. rewrite Hc.
    by intros [= <-].
  - intros c' Hc' _.
    assert (get_card ref (updateUndoButtonState
              (set_lastDragAction (Some (DragAction ref dragChar char)) s))
            = get_card ref s) as Heq by (by destruct ref).
    rewrite Heq, Hc in Hc'. injection Hc' as <-.
    split; [by apply card_ok_fill_card|done].
Qed.

Lemma page_ok_drop ref char dragIndex s :
  page_ok s → page_ok (drop host ref char dragIndex s).
Proof.
  intros Hok. unfold drop, on_dropZone.
  destruct (get_card ref s) as [c|] eqn:Hc; [|done].
  destruct (dropZone c) eqn:Hd; [|done].
  assert (page_ok (update_card ref (remove_class "drag-over") s)) as Hok1.
  { apply page_ok_update_card; [done|]. intros c' _ Hc'.
    split; [by apply card_ok_remove_class|done]. }
  case_bool_decide; [done|].
  destruct (querySelector host _ _) as [q|]; [|done].
  apply page_ok_checkCompletion.
  assert (page_ok (update_card ref (fill_card char)
            (updateUndoButtonState
               (set_lastDragAction
                  (Some (DragAction ref q char))
                  (update_card ref (remove_class "drag-over") s))))) as Hok2.
  { eapply page_ok_fill; [done| |].
    - by rewrite get_card_update_card_eq, Hc.
    - done. }
  destruct q; [done|by apply page_ok_update_drag|done].
Qed.

Lemma page_ok_touchend src below s :
  page_ok s → page_ok (touchend host src below s).
Proof.
  intros Hok. unfold touchend.
  destruct (touch_char src s) as [char|]; [|done].
  apply page_ok_clear_drag_over.
  assert (page_ok (update_source src (d_remove_class "dragging") s)) as Hok1.
  { destruct src; [by apply page_ok_update_drag|done]. }
  destruct below as [ref|]; [|done].
  destruct (get_card ref _) as [c|] eqn:Hc; [|done].
  destruct (contains "empty" (className c)) eqn:He; [|done].
  case_bool_decide as Hf; [done|]. simpl.
  apply page_ok_checkCompletion.
  destruct (card_ok_empty_class c (page_ok_card _ _ _ Hok1 Hc) He) as [Hd _].
  match goal with
  | |- page_ok (update_source _ _ ?t) =>
      assert (page_ok t) as Hok2
  end.
  { apply page_ok_update_card.
    - by eapply page_ok_fill.
    - intros c' _ Hc'. split; [by apply card_ok_remove_class|done]. }
  destruct src; [by apply page_ok_update_drag|done].
Qed.

Lemma page_ok_touchmove clone below s :
  page_ok s → page_ok (touchmove clone below s).
Proof.
  destruct clone; [|done].
  intros Hok%page_ok_clear_drag_over. unfold touchmove. cbn [negb].
  destruct below as [ref|]; [|done].
  destruct (get_card ref _) as [c|] eqn:Hc; [|done].
  destruct (contains "empty" (className c)); [|done].
  apply page_ok_update_card; [done|]. intros c' _ Hc'.
  split; [by apply card_ok_add_class|done].
Qed.

Lemma page_ok_dragover ref s : page_ok s → page_ok (dragover ref s).
Proof.
  intros Hok. unfold dragover, on_dropZone.
  destruct (get_card ref s) as [c|]; [|done]. destruct (dropZone c); [|done].
  apply page_ok_update_card; [done|]. intros c' _ Hc'.
  split; [by apply card_ok_add_class|done].
Qed.

Lemma page_ok_dragleave ref s : page_ok s → page_ok (dragleave ref s).
Proof.
  intros Hok. unfold dragleave, on_dropZone.
  destruct (get_card ref s) as [c|]; [|done]. destruct (dropZone c); [|done].
  apply page_ok_update_card; [done|]. intros c' _ Hc'.
  split; [by apply card_ok_remove_class|done].
Qed.

Lemma snap_ok_reparse_card c : snap_ok c → snap_ok (reparse_card c).
Proof. by destruct c. Qed.

Lemma page_ok_restoreStateR s : page_ok s → page_ok (restoreStateR s).
Proof.
  intros (Hc & Hact & Hsnap). unfold restoreStateR.
  destruct (stateR s) as [r|] eqn:Hr; [|done].
  specialize (Hsnap r Hr). apply Forall_app in Hsnap as [Hs1 Hs2].
  split_and!.
  - unfold cards. simpl. apply Forall_app; split; apply Forall_fmap, Forall_fmap;
      (eapply Forall_impl; [eassumption|]); intros c Hsc;
      apply snap_ok_rebind, snap_ok_reparse_card, Hsc.
  - by intros a c.
  - intros r'. simpl. rewrite Hr. intros [= <-]. by apply Forall_app.
Qed.
End Invariant.

Lemma forEach_remove_at_cards_any P ps s :
  (∀ c, P c → P (blank_card c)) →
  Forall P (cards s) → Forall P (cards (state_of (forEach remove_at ps s))).
Proof.
  intros HP. revert s. induction ps as [|p ps IH]; intros s Hs; cbn [forEach]; [done|].
  destruct (remove_at p s) as [t|t] eqn:Hp; cbn [bind].
  - apply IH. apply remove_at_Normal in Hp as (c & _ & ->).
    apply cards_update_card; [|by auto]. destruct s; exact Hs.
  - unfold remove_at in Hp. destruct (get_card (card_of p) s); [done|].
    by injection Hp as <-.
Qed.

Section StartGame.
Variable host : browser.

Lemma renderPoem_any s :
  let s' := state_of (renderPoem s) in
  Forall fresh_card (cards s')
  ∧ lastDragAction s' = lastDragAction s ∧ stateR s' = stateR s.
Proof.
  cbv zeta. destruct (renderPoem s) as [s'|s'] eqn:Hr.
  - split; [by eapply renderPoem_fresh|].
    by apply renderPoem_Normal in Hr as (l0 & l1 & _ & ->).
  - unfold renderPoem in Hr.
    destruct s as [? [[l0|] [l1|]] ? ? ? ? ? ? ? ? ? ? ? ?]; simpl in *;
      try done; injection Hr as <-; (split; [|done]); unfold cards; simpl;
      rewrite ?app_nil_r; try done.
    apply Forall_lookup; intros i c.
    rewrite list_lookup_imap_Some; intros (y & _ & ->); by repeat split.
Qed.

Lemma removeRandomChars_any P s :
  let s' := state_of (removeRandomChars host s) in
  ((∀ c, P c → P (blank_card c)) → Forall P (cards s) → Forall P (cards s'))
  ∧ lastDragAction s' = lastDragAction s ∧ stateR s' = stateR s.
Proof.
  cbv zeta. rewrite removeRandomChars_unfold.
  match goal with |- context [forEach remove_at ?ps ?t] =>
    pose proof (forEach_remove_at_frame ps t) as Hf;
    pose proof (forEach_remove_at_cards_any P ps t) as Hc
  end.
  cbv zeta in Hf. destruct Hf as (_ & _ & Hr & Ha & _).
  destruct (forEach remove_at _ _) as [sd|sd]; cbn [bind state_of] in *;
    (split; [|split; [exact Ha|exact Hr]]); intros HP Hs; by apply Hc.
Qed.

Lemma page_ok_startGame s : page_ok s → page_ok (state_of (startGame host s)).
Proof.
  intros Hok. unfold startGame.
  pose proof (selectRandomLines_frame host (set_lastDragAction None s)) as Hf.
  cbv zeta in Hf. simpl in Hf.
  destruct Hf as (_ & _ & Hr & Ha & _ & _ & H1 & H2 & _).
  destruct (selectRandomLines host _) as [sa|sa]; cbn [bind state_of] in *.
  2: { eapply (page_ok_ext (set_lastDragAction None s)); [done..|].
       by apply page_ok_clear_action. }
  pose proof (renderPoem_any sa) as (Hfresh & Ha' & Hr').
  destruct (renderPoem sa) as [sb|sb]; cbn [bind state_of] in *.
  2: { split_and!.
       - eapply Forall_impl; [exact Hfresh|]. intros c Hc.
         apply generated_card_ok. by left.
       - intros a c. by rewrite Ha', Ha.
       - intros r. rewrite Hr', Hr. apply Hok. }
  pose proof (removeRandomChars_any generated sb) as (Hgen & Ha'' & Hr'').
  assert (Forall generated (cards (state_of (removeRandomChars host sb)))) as Hg.
  { apply Hgen; [exact blank_card_generated|].
    eapply Forall_impl; [exact Hfresh|]. by left. }
  destruct (removeRandomChars host sb) as [sc|sc]; cbn [bind state_of] in *.
  - split_and!.
    + change (Forall card_ok (cards sc)).
      eapply Forall_impl; [exact Hg|]. apply generated_card_ok.
    + intros a c. simpl. by rewrite Ha'', Ha', Ha.
    + intros r. simpl. intros [= <-]. simpl. rewrite <- fmap_app.
      apply Forall_fmap. eapply Forall_impl; [exact Hg|].
      apply generated_snap_ok.
  - split_and!.
    + eapply Forall_impl; [exact Hg|]. apply generated_card_ok.
    + intros a c. by rewrite Ha'', Ha', Ha.
    + intros r. rewrite Hr'', Hr', Hr. apply Hok.
Qed.

Lemma page_ok_step e s : page_ok s → page_ok (step host e s).
Proof.
  intros Hok. destruct e; simpl.
  - by apply page_ok_startGame.
  - by apply page_ok_undoLastDrag.
  - by apply page_ok_dragover.
  - by apply page_ok_dragleave.
  - by apply page_ok_drop.
  - by apply page_ok_update_drag.
  - by apply page_ok_update_drag.
  - by apply page_ok_update_drag.
  - by apply page_ok_touchmove.
  - by apply page_ok_touchend.
  - destruct (timers s) as [|n]; [done|].
    apply page_ok_restoreStateR. by eapply page_ok_ext.
Qed.

Lemma page_ok_run es s : page_ok s → page_ok (run host es s).
Proof.
  revert s. induction es as [|e es IH]; intros s Hok; simpl; [done|].
  by apply IH, page_ok_step.
Qed.

Lemma page_ok_reachable s : reachable host s → page_ok s.
Proof.
  induction 1 as [cfg response|e s _ IH].
  - apply page_ok_startGame. unfold loadPoems. split_and!.
    + by destruct response.
    + intros a c. by destruct response.
    + intros r. by destruct response.
  - by apply page_ok_step.
Qed.

Lemma reachable_run es s : reachable host s → reachable host (run host es s).
Proof.
  revert s. induction es as [|e es IH]; intros s Hs; simpl; [done|].
  apply IH. by constructor.
Qed.
End StartGame.

(** ** Evaluation *)

Lemma filter_ext_Forall {A} (P1 P2 : A → Prop)
  `{!∀ x, Decision (P1 x)} `{!∀ x, Decision (P2 x)} (l : list A) :
  Forall (λ x, P1 x ↔ P2 x) l → filter P1 l = filter P2 l.
Proof.
  induction 1 as [|x l Hx _ IH]; [done|].
  rewrite !filter_cons, IH. repeat case_decide; tauto.
Qed.

Lemma card_ok_blank_cases c :
  card_ok c → is_blank c = true →
  (data_filled c = Some "false" ∧ is_empty_card c = true)
  ∨ (data_filled c = Some "true" ∧ is_empty_card c = false
     ∧ contains "char-card" (className c) = true
     ∧ is_Some (data_filledChar c)).
Proof.
  unfold card_ok, is_blank, is_empty_card. intros [Hcc H] Hb.
  destruct (data_filled c) as [f|]; [|by apply bool_decide_eq_true in Hb as [? ?]].
  rewrite Hcc. destruct H as [_ [[-> ->]|(-> & -> & ?)]]; [by left|by right].
Qed.

Lemma card_ok_not_blank c :
  card_ok c → is_blank c = false →
  data_filled c = None ∧ is_empty_card c = false.
Proof.
  unfold card_ok, is_blank, is_empty_card. intros [Hcc H] Hb.
  destruct (data_filled c) as [f|].
  - apply bool_decide_eq_false in Hb. destruct Hb. by eauto.
  - destruct H as [-> _]. by rewrite andb_false_r.
Qed.

Lemma elem_of_blanks s c : c ∈ blanks s ↔ is_blank c = true ∧ c ∈ cards s.
Proof. unfold blanks. by rewrite list_elem_of_filter. Qed.

Lemma elem_of_emptyCards s c :
  Forall card_ok (cards s) →
  c ∈ emptyCards s ↔ c ∈ blanks s ∧ data_filled c = Some "false".
Proof.
  intros Hok. rewrite Forall_forall in Hok.
  unfold emptyCards. rewrite list_elem_of_filter, elem_of_blanks. split.
  - intros [He Hc]. specialize (Hok c Hc).
    destruct (is_blank c) eqn:Hb.
    + destruct (card_ok_blank_cases c Hok Hb) as [[? _]|(_ & ? & _)];
        [done|congruence].
    + destruct (card_ok_not_blank c Hok Hb). congruence.
  - intros [[Hb Hc] Hf]. split; [|done]. specialize (Hok c Hc).
    destruct (card_ok_blank_cases c Hok Hb) as [[_ ?]|(? & _)]; [done|congruence].
Qed.

Lemma filledCards_blanks s :
  Forall card_ok (cards s) →
  (∀ c, c ∈ blanks s → data_filled c ≠ Some "false") →
  filledCards s = blanks s.
Proof.
  intros Hok Hfull. unfold filledCards, blanks. apply filter_ext_Forall.
  rewrite Forall_forall in *. intros c Hc. specialize (Hok c Hc).
  destruct (is_blank c) eqn:Hb.
  - destruct (card_ok_blank_cases c Hok Hb) as [[Hf _]|(Hf & _ & Hcc & _)].
    + destruct (Hfull c); [|done]. by apply elem_of_blanks.
    + tauto.
  - destruct (card_ok_not_blank c Hok Hb) as [Hf _]. rewrite Hf.
    split; [by intros [_ ?]|done].
Qed.

Lemma blank_filled_or_empty s c :
  Forall card_ok (cards s) → c ∈ blanks s →
  data_filled c = Some "false" ∨ data_filled c = Some "true".
Proof.
  intros Hok [Hb Hc]%elem_of_blanks. rewrite Forall_forall in Hok.
  destruct (card_ok_blank_cases c (Hok c Hc) Hb) as [[? _]|[? _]]; auto.
Qed.

Lemma evaluate_all_filled s :
  Forall card_ok (cards s) →
  (∀ c, c ∈ blanks s → data_filled c ≠ Some "false") →
  evaluate s =
  if bool_decide (Z.of_nat (length (blanks s)) < removeCount s) then Incomplete
  else if forallb (λ c, bool_decide (Some (data_char c) = data_filledChar c))
                  (blanks s)
  then Correct else Incorrect.
Proof.
  intros Hok Hfull. unfold evaluate.
  rewrite (filledCards_blanks s Hok Hfull).
  assert (emptyCards s = []) as ->.
  { destruct (emptyCards s) as [|c l] eqn:He; [done|].
    assert (c ∈ emptyCards s) as Hc by (rewrite He; apply list_elem_of_here).
    apply elem_of_emptyCards in Hc as [Hc Hf]; [|done]. by destruct (Hfull c). }
  rewrite (bool_decide_eq_false_2 (0 < length [])%nat) by (simpl; lia). done.
Qed.

Lemma evaluate_some_empty s c :
  Forall card_ok (cards s) →
  c ∈ blanks s → data_filled c = Some "false" → evaluate s = Incomplete.
Proof.
  intros Hok Hc Hf. unfold evaluate.
  assert (c ∈ emptyCards s) as He by (by apply elem_of_emptyCards).
  rewrite (bool_decide_eq_true_2 (0 < length (emptyCards s))%nat); [done|].
  destruct (emptyCards s); [by apply elem_of_nil in He|simpl; lia].
Qed.

(** ** What stays fixed within a round *)

Section InRound.
Variable host : browser.

Lemma round_setup_update_card r f s :
  round_setup (update_card r f s) = round_setup s.
Proof. by destruct r. Qed.

Lemma round_setup_checkCompletion s :
  round_setup (checkCompletion host s) = round_setup s.
Proof. unfold checkCompletion. by destruct (evaluate s). Qed.

Lemma round_setup_update_source src f s :
  round_setup (update_source src f s) = round_setup s.
Proof. by destruct src. Qed.

Lemma round_setup_undoLastDrag s : round_setup (undoLastDrag s) = round_setup s.
Proof.
  unfold undoLastDrag. destruct (lastDragAction s) as [a|]; [|done].
  destruct (a_dragChar a), (a_card a); done.
Qed.

Lemma round_setup_drop ref char dragIndex s :
  round_setup (drop host ref char dragIndex s) = round_setup s.
Proof.
  unfold drop, on_dropZone. destruct (get_card ref s) as [c|]; [|done].
  destruct (dropZone c); [|done].
  case_bool_decide; [apply round_setup_update_card|].
  destruct (querySelector host _ _) as [q|]; [|apply round_setup_update_card].
  rewrite round_setup_checkCompletion.
  destruct q; unfold update_drag;
    change (round_setup (set_dragChars ?v ?t)) with (round_setup t);
    rewrite round_setup_update_card; simpl; apply round_setup_update_card.
Qed.

Lemma round_setup_touchend src below s :
  round_setup (touchend host src below s) = round_setup s.
Proof.
  unfold touchend. destruct (touch_char src s) as [char|]; [|done].
  change (round_setup (clear_drag_over ?t)) with (round_setup t).
  destruct below as [ref|]; [|apply round_setup_update_source].
  destruct (get_card ref _) as [c|]; [|apply round_setup_update_source].
  destruct (_ && _); [|apply round_setup_update_source].
  rewrite round_setup_checkCompletion, round_setup_update_source,
    !round_setup_update_card.
  change (round_setup (updateUndoButtonState (set_lastDragAction ?a ?t)))
    with (round_setup t).
  apply round_setup_update_source.
Qed.

Lemma round_setup_touchmove clone below s :
  round_setup (touchmove clone below s) = round_setup s.
Proof.
  destruct clone; [|done].
  unfold touchmove. cbn [negb]. destruct below as [ref|]; [|done].
  destruct (get_card ref _) as [c|]; [|done].
  destruct (contains _ _); [|done]. by rewrite round_setup_update_card.
Qed.

Lemma round_setup_restoreStateR s :
  round_setup (restoreStateR s) = round_setup s.
Proof. unfold restoreStateR. by destruct (stateR s). Qed.

Lemma round_setup_step e s :
  in_round e → round_setup (step host e s) = round_setup s.
Proof.
  intros He. destruct e; simpl.
  - done.
  - apply round_setup_undoLastDrag.
  - unfold dragover, on_dropZone. destruct (get_card ref s) as [c|]; [|done].
    destruct (dropZone c); [apply round_setup_update_card|done].
  - unfold dragleave, on_dropZone. destruct (get_card ref s) as [c|]; [|done].
    destruct (dropZone c); [apply round_setup_update_card|done].
  - apply round_setup_drop.
  - done.
  - done.
  - done.
  - apply round_setup_touchmove.
  - apply round_setup_touchend.
  - destruct (timers s); [done|]. by rewrite round_setup_restoreStateR.
Qed.

Lemma round_setup_run es s :
  Forall in_round es → round_setup (run host es s) = round_setup s.
Proof.
  revert s. induction es as [|e es IH]; intros s Hes; simpl; [done|].
  apply Forall_cons in Hes as [He Hes].
  by rewrite IH, round_setup_step.
Qed.
End InRound.

(** ** Fills that are turned away *)

Section Blocked.
Variable host : browser.

Lemma get_card_update_source ref src f s :
  get_card ref (update_source src f s) = get_card ref s.
Proof. by destruct src, ref. Qed.

Lemma drop_on_filled s ref c char dragIndex :
  get_card ref s = Some c → data_filled c = Some "true" →
  drop host ref char dragIndex s
  = (if dropZone c then update_card ref (remove_class "drag-over") s else s).
Proof.
  intros Hc Hfilled. unfold drop, on_dropZone. rewrite Hc.
  destruct (dropZone c); [|done]. by rewrite bool_decide_eq_true_2.
Qed.

Lemma round_of_drop_on_filled s ref c char dragIndex :
  get_card ref s = Some c → data_filled c = Some "true" →
  round_of (drop host ref char dragIndex s) = round_of s.
Proof.
  intros Hc Hfilled. rewrite (drop_on_filled s ref c) by done.
  destruct (dropZone c); [|done].
  apply round_of_update_card. intros. apply assignment_remove_drag_over.
Qed.

Lemma touchend_no_fill s src below :
  (∀ ref c, below = Some ref → get_card ref s = Some c →
            contains "empty" (className c)
            && negb (bool_decide (data_filled c = Some "true")) = false) →
  touchend host src below s = s
  ∨ touchend host src below s
    = clear_drag_over (update_source src (d_remove_class "dragging") s).
Proof.
  intros Hb. unfold touchend. destruct (touch_char src s); [right|by left].
  destruct below as [ref|]; [|done]. rewrite get_card_update_source.
  destruct (get_card ref s) as [c|] eqn:Hc; [|done].
  by rewrite (Hb ref c).
Qed.

Lemma round_of_touchend_no_fill s src below :
  (∀ ref c, below = Some ref → get_card ref s = Some c →
            contains "empty" (className c)
            && negb (bool_decide (data_filled c = Some "true")) = false) →
  round_of (touchend host src below s) = round_of s.
Proof.
  intros Hb. destruct (touchend_no_fill s src below Hb) as [->| ->]; [done|].
  rewrite round_of_clear_drag_over.
  destruct src; [apply round_of_dragging_remove|done].
Qed.
End Blocked.

(** ** Restoring the snapshot *)

Section Restore.
Variable host : browser.

Lemma rebind_generated (l : list card) :
  Forall generated l →
  (λ c, if is_empty_card c then setupDropZone c else c)
    <$> (strip_listeners <$> l) = l.
Proof.
  intros Hl. rewrite <- list_fmap_compose.
  rewrite <- (list_fmap_id l) at 2. apply Forall_fmap_ext_1.
  eapply Forall_impl; [exact Hl|]. intros c Hc. by apply generated_rebind.
Qed.

Lemma generated_reparse_card c : generated c → generated (reparse_card c).
Proof.
  destruct c. unfold generated, fresh_card, fresh_blank. cbn.
  intros [(? & ? & -> & ?)|(? & -> & ? & -> & ?)]; [left|right]; done.
Qed.

Lemma rebind_reparse_generated (l : list card) :
  Forall generated l →
  (λ c, if is_empty_card c then setupDropZone c else c)
    <$> (reparse_card <$> (strip_listeners <$> l)) = reparse_card <$> l.
Proof.
  intros Hl.
  replace (reparse_card <$> (strip_listeners <$> l))
    with (strip_listeners <$> (reparse_card <$> l)).
  - apply rebind_generated, Forall_fmap.
    eapply Forall_impl; [exact Hl|]. apply generated_reparse_card.
  - rewrite <- !list_fmap_compose. apply list_fmap_ext. by intros i [].
Qed.

(** In any state that still holds the snapshot of a generated round,
    [restoreStateR] puts back the page of that round as the parser reads
    it from the saved markup. *)
Lemma restoreStateR_generated s s1 t :
  startGame host s = Normal s1 →
  stateR t = stateR s1 →
  line1 (restoreStateR t) = reparse_card <$> line1 s1
  ∧ line2 (restoreStateR t) = reparse_card <$> line2 s1
  ∧ dragChars (restoreStateR t) = reparse_drag <$> dragChars s1
  ∧ lastDragAction (restoreStateR t) = None
  ∧ message (restoreStateR t) = NoMessage
  ∧ undoDisabled (restoreStateR t) = true
  ∧ round_setup (restoreStateR t) = round_setup t
  ∧ timers (restoreStateR t) = timers t.
Proof.
  intros Hs Hr.
  pose proof (startGame_generated _ _ _ Hs) as (Hgen & _ & Hsnap & _).
  apply Forall_app in Hgen as [Hg1 Hg2].
  unfold restoreStateR. rewrite Hr, Hsnap. simpl.
  rewrite !rebind_reparse_generated by done. by split_and!.
Qed.

Lemma generated_blank_is_empty c :
  generated c → is_blank c = true →
  empty_blank c ∧ data_filledChar c = None.
Proof.
  intros [(_ & Hf & _)|(Hc & Ht & Hf & Hfc & _)] Hb.
  - unfold is_blank in Hb. rewrite Hf in Hb.
    by apply bool_decide_eq_true in Hb as [? ?].
  - unfold empty_blank, is_empty_card. by rewrite Hc.
Qed.

Lemma drag_char_available d : d_className d = ["drag-char"] → available d = true.
Proof. unfold available. by intros ->. Qed.
End Restore.

(** ** After a Correct verdict *)



(** ** Fills and counts *)

Lemma length_filter_alter {A} (P : A → Prop) `{!∀ x, Decision (P x)}
    (f : A → A) (i : nat) (l : list A) (x : A) :
  l !! i = Some x → ¬ P x → P (f x) →
  length (filter P (alter f i l)) = S (length (filter P l)).
Proof.
  revert i. induction l as [|y l IH]; intros [|i] Hi Hx Hfx; try done.
  - injection Hi as ->. change (alter f 0%nat (x :: l)) with (f x :: l).
    rewrite !filter_cons. rewrite decide_True, decide_False by done. done.
  - change (alter f (S i) (y :: l)) with (y :: alter f i l).
    rewrite !filter_cons. specialize (IH i Hi Hx Hfx).
    case_decide; simpl; by rewrite IH.
Qed.

Lemma length_filter_alter_same {A} (P : A → Prop) `{!∀ x, Decision (P x)}
    (f : A → A) (i : nat) (l : list A) :
  (∀ x, l !! i = Some x → (P (f x) ↔ P x)) →
  length (filter P (alter f i l)) = length (filter P l).
Proof.
  revert i. induction l as [|y l IH]; intros [|i] Hf; try done.
  - change (alter f 0%nat (y :: l)) with (f y :: l).
    rewrite !filter_cons. specialize (Hf y eq_refl).
    repeat case_decide; simpl; tauto || done.
  - change (alter f (S i) (y :: l)) with (y :: alter f i l).
    rewrite !filter_cons. specialize (IH i Hf).
    case_decide; simpl; by rewrite IH.
Qed.

Section Fill.
Variable host : browser.

Lemma querySelector_update_card dragIndex r f s :
  querySelector host dragIndex (update_card r f s) = querySelector host dragIndex s.
Proof. by destruct r. Qed.

Lemma querySelector_plain dragIndex s :
  selector_plain dragIndex = true →
  querySelector host dragIndex s
  = match list_find (λ d, d_dragIndex d = dragIndex) (dragChars s) with
    | Some (k, _) => Element (LiveDrag k)
    | None => Element NullDrag
    end.
Proof. intros Hp. unfold querySelector. by rewrite Hp. Qed.

Lemma querySelector_plain_Element dragIndex s :
  selector_plain dragIndex = true →
  ∃ q, querySelector host dragIndex s = Element q.
Proof.
  intros Hp. rewrite querySelector_plain by done.
  destruct (list_find _ _) as [[k d]|]; by eauto.
Qed.

Lemma querySelector_Null dragIndex s :
  selector_plain dragIndex = true →
  (∀ d, d ∈ dragChars s → d_dragIndex d ≠ dragIndex) →
  querySelector host dragIndex s = Element NullDrag.
Proof.
  intros Hp Hno. rewrite querySelector_plain by done.
  destruct (list_find _ _) as [[k d]|] eqn:Hfind; [|done].
  apply list_find_Some in Hfind as (Hk & Hd & _).
  destruct (Hno d); [|done]. by eapply list_elem_of_lookup_2.
Qed.

Lemma querySelector_Live dragIndex s k :
  querySelector host dragIndex s = Element (LiveDrag k) →
  ∃ d, dragChars s !! k = Some d
       ∧ (selector_plain dragIndex = true → d_dragIndex d = dragIndex).
Proof.
  unfold querySelector. destruct (selector_plain dragIndex).
  - destruct (list_find _ _) as [[k' d]|] eqn:Hfind; [|done].
    intros [= <-]. apply list_find_Some in Hfind as (Hk & Hd & _). by eauto.
  - destruct (css_first host dragIndex (dragChars s)) as [k'| |]; [|done..].
    case_bool_decide as Hlen; [|done]. intros [= <-].
    apply lookup_lt_is_Some_2 in Hlen as [d Hd]. exists d. by split.
Qed.

(** The [drop] listener on a card that carries the listeners and is not
    filled, when the selector is accepted: the state just before
    [checkCompletion]. *)
Lemma drop_on_empty s ref c char dragIndex q :
  get_card ref s = Some c → dropZone c = true →
  data_filled c ≠ Some "true" →
  querySelector host dragIndex s = Element q →
  drop host ref char dragIndex s
  = checkCompletion host
      (match q with
       | LiveDrag k => update_drag k (d_add_class "hidden")
       | NullDrag | DetachedDrag => λ t, t
       end
         (update_card ref (fill_card char)
            (updateUndoButtonState
               (set_lastDragAction
                  (Some (DragAction ref q char))
                  (update_card ref (remove_class "drag-over") s))))).
Proof.
  intros Hc Hd Hf Hq. unfold drop, on_dropZone. rewrite Hc, Hd.
  rewrite bool_decide_eq_false_2 by done.
  rewrite querySelector_update_card, Hq. by destruct q.
Qed.

(** The same listener when [querySelector] throws. *)
Lemma drop_selector_error s ref c char dragIndex :
  get_card ref s = Some c → dropZone c = true →
  data_filled c ≠ Some "true" →
  querySelector host dragIndex s = SyntaxError →
  drop host ref char dragIndex s
  = update_card ref (remove_class "drag-over") s.
Proof.
  intros Hc Hd Hf Hq. unfold drop, on_dropZone. rewrite Hc, Hd.
  rewrite bool_decide_eq_false_2 by done.
  by rewrite querySelector_update_card, Hq.
Qed.

Lemma filled_count_update_card s ref f :
  (∀ c, get_card ref s = Some c →
        (data_filled (f c) = Some "true" ↔ data_filled c = Some "true")) →
  filled_count (update_card ref f s) = filled_count s.
Proof.
  intros Hf. unfold filled_count, cards.
  destruct ref; simpl in *; rewrite !filter_app, !length_app;
    erewrite length_filter_alter_same; done.
Qed.

Lemma filled_count_fill s ref c char :
  get_card ref s = Some c → data_filled c ≠ Some "true" →
  filled_count (update_card ref (fill_card char) s) = S (filled_count s).
Proof.
  intros Hc Hf. unfold filled_count, cards.
  destruct ref; simpl in *; rewrite !filter_app, !length_app;
    erewrite length_filter_alter; try done; lia.
Qed.

Lemma undoLastDrag_fields s a :
  lastDragAction s = Some a →
  (∀ r, get_card r (undoLastDrag s)
        = if bool_decide (r = a_card a) then empty_card <$> get_card r s
          else get_card r s)
  ∧ dragChars (undoLastDrag s)
    = match a_dragChar a with
      | LiveDrag k => alter (d_remove_class "hidden") k (dragChars s)
      | NullDrag | DetachedDrag => dragChars s
      end
  ∧ lastDragAction (undoLastDrag s) = None.
Proof.
  intros Ha. unfold undoLastDrag. rewrite Ha. split_and!.
  - intros r.
    assert (∀ t, get_card r (updateUndoButtonState (set_lastDragAction None t))
                 = get_card r t) as -> by (intros; by destruct r).
    assert (∀ k f t, get_card r (update_drag k f t) = get_card r t) as Hd
        by (intros; by destruct r).
    destruct (a_dragChar a); rewrite ?Hd; apply get_card_update_card.
  - destruct (a_dragChar a), (a_card a); done.
  - done.
Qed.

Lemma drop_on_empty_fields s ref c char dragIndex q :
  get_card ref s = Some c → dropZone c = true →
  data_filled c ≠ Some "true" →
  querySelector host dragIndex s = Element q →
  (∀ r, get_card r (drop host ref char dragIndex s)
        = if bool_decide (r = ref) then Some (fill_card char c)
          else get_card r s)
  ∧ dragChars (drop host ref char dragIndex s)
    = match q with
      | LiveDrag k => alter (d_add_class "hidden") k (dragChars s)
      | NullDrag | DetachedDrag => dragChars s
      end
  ∧ lastDragAction (drop host ref char dragIndex s)
    = Some (DragAction ref q char)
  ∧ filled_count (drop host ref char dragIndex s) = S (filled_count s).
Proof.
  intros Hc Hd Hf Hsel.
  rewrite (drop_on_empty s ref c char dragIndex q Hc Hd Hf Hsel).
  match goal with |- context [checkCompletion host ?t] =>
    pose proof (checkCompletion_fields host t) as (H1 & H2 & Hdc & Ha & _);
    assert (∀ r, get_card r (checkCompletion host t) = get_card r t) as Hget
      by (intros r; destruct r; simpl; congruence);
    assert (filled_count (checkCompletion host t) = filled_count t) as Hcount
      by (unfold filled_count, cards; congruence)
  end.
  rewrite Hcount, Hdc, Ha. setoid_rewrite Hget. clear H1 H2 Hdc Ha Hget Hcount.
  assert (∀ r t, get_card r
            (match q with
             | LiveDrag k => update_drag k (d_add_class "hidden")
             | NullDrag | DetachedDrag => λ t, t
             end t) = get_card r t) as Hq1 by (intros r t; by destruct q, r).
  assert (∀ t, filled_count
            (match q with
             | LiveDrag k => update_drag k (d_add_class "hidden")
             | NullDrag | DetachedDrag => λ t, t
             end t) = filled_count t) as Hq2 by (intros t; by destruct q).
  split_and!.
  - intros r. rewrite Hq1, get_card_update_card.
    assert (∀ a t, get_card r (updateUndoButtonState (set_lastDragAction a t))
                   = get_card r t) as -> by (intros; by destruct r).
    rewrite get_card_update_card. case_bool_decide as Hr; [|done].
    subst r. rewrite Hc. by destruct c.
  - by destruct q, ref.
  - by destruct q, ref.
  - rewrite Hq2.
    rewrite (filled_count_fill _ ref (remove_class "drag-over" c)).
    + f_equal. change (filled_count (updateUndoButtonState
                         (set_lastDragAction ?a ?t))) with (filled_count t).
      by apply filled_count_update_card.
    + assert (∀ a t, get_card ref (updateUndoButtonState (set_lastDragAction a t))
                     = get_card ref t) as -> by (intros; by destruct ref).
      by rewrite get_card_update_card_eq, Hc.
    + done.
Qed.
End Fill.

(** ** The built-in lines as a fallback *)

Section Fallback.
Variable host : browser.

Lemma loadPoems_sections response s section :
  section ∈ sections (loadPoems response s) →
  (2 ≤ length section)%nat
  ∧ (response = None → section = default_section)
  ∧ (is_Some response →
     ∀ line, line ∈ section → Z.of_nat (length (trim line)) = lineLength s).
Proof.
  destruct response as [text|]; simpl.
  - intros [Hlen Hin]%list_elem_of_filter. split; [done|]. split; [done|].
    intros _ line Hline.
    apply list_elem_of_fmap in Hin as (raw & -> & _).
    by apply list_elem_of_filter in Hline as [? _].
  - intros ->%list_elem_of_singleton. split; [simpl; lia|]. split; [done|].
    by intros [? ?].
Qed.

Lemma js_index_nat {A} (l : list A) (k : Z) :
  0 ≤ k → js_index l k = l !! Z.to_nat k.
Proof. intros Hk. unfold js_index. by rewrite (proj2 (Z.ltb_ge _ _)). Qed.

(** With no usable section, or after a failed load, [selectRandomLines]
    takes two consecutive lines of the built-in section. *)
Lemma fallback_lines cfg response :
  response = None ∨ sections (loadPoems response (constructor cfg)) = [] →
  ∃ sa i,
    selectRandomLines host
      (set_lastDragAction None (loadPoems response (constructor cfg)))
    = Normal sa
    ∧ (i < 3)%nat
    ∧ currentLines sa = (default_section !! i, default_section !! S i)
    ∧ line1 sa = [] ∧ line2 sa = []
    ∧ lineLength sa = or_default (cfg_lineLength cfg) 5.
Proof.
  intros [-> |Hnil].
  - pose proof (floor_mul_range (Math_random host 0) 1 ltac:(lia)) as H0.
    pose proof (floor_mul_range (Math_random host 1) 3 ltac:(lia)) as H1.
    assert (floor_mul (Math_random host 0) 1 = 0) as E0 by lia.
    unfold selectRandomLines, random_floor.
    cbn [sections set_lastDragAction loadPoems set_sections constructor rpos
         set_rpos length bool_decide decide_rel Z.of_nat Pos.of_succ_nat].
    rewrite bool_decide_eq_false_2 by done.
    change (Z.of_nat 1) with 1. rewrite E0.
    change (js_index [default_section] 0) with (Some default_section).
    change (Z.of_nat (length default_section) - 2 + 1) with 3.
    eexists _, (Z.to_nat (floor_mul (Math_random host 1) 3)). split; [done|].
    split; [lia|]. cbn [currentLines set_currentLines line1 line2 lineLength].
    split; [|done].
    rewrite (js_index_nat _ (floor_mul (Math_random host 1) 3)) by lia.
    rewrite (js_index_nat _ (floor_mul (Math_random host 1) 3 + 1)) by lia.
    by replace (Z.to_nat (floor_mul (Math_random host 1) 3 + 1))
      with (S (Z.to_nat (floor_mul (Math_random host 1) 3))) by lia.
  - unfold selectRandomLines. cbn [sections set_lastDragAction].
    rewrite Hnil. simpl. eexists _, O. split; [done|]. split; [lia|].
    split; [done|]. by destruct response.
Qed.

(** Such a round is generated without an exception as long as
    [lineLength] does not exceed the five characters of the built-in
    lines. *)
Lemma fallback_round_generated cfg response :
  response = None ∨ sections (loadPoems response (constructor cfg)) = [] →
  or_default (cfg_lineLength cfg) 5 ≤ 5 →
  ∃ s1 i,
    startGame host (loadPoems response (constructor cfg)) = Normal s1
    ∧ (i < 3)%nat
    ∧ currentLines s1 = (default_section !! i, default_section !! S i).
Proof.
  intros Hfb HL.
  destruct (fallback_lines cfg response Hfb)
    as (sa & i & Ha & Hi & Hlines & _ & _ & HLa).
  unfold startGame. rewrite Ha. cbn [bind].
  assert (∃ l0 l1, default_section !! i = Some l0
                   ∧ default_section !! S i = Some l1
                   ∧ length l0 = 5%nat ∧ length l1 = 5%nat)
    as (l0 & l1 & Hl0 & Hl1 & Hn0 & Hn1).
  { destruct i as [|[|[|i]]]; [| | |lia]; by eexists _, _. }
  assert (renderPoem sa
          = Normal (set_line2 (imap (λ i c, createCharCard sa [c] 1 i) l1)
                      (set_line1 (imap (λ i c, createCharCard sa [c] 0 i) l0) sa)))
    as Hb.
  { assert (currentLines sa = (Some l0, Some l1)) as Hlines'
      by (rewrite Hlines; exact (f_equal2 pair Hl0 Hl1)).
    unfold renderPoem. destruct sa as [? [o0 o1] ? ? ? ? ? ? ? ? ? ? ? ?].
    simpl in Hlines' |- *. by injection Hlines' as -> ->. }
  rewrite Hb. cbn [bind].
  match goal with |- context [removeRandomChars host ?t] =>
    destruct (removeRandomChars_success host t) as [sc Hc]
  end.
  - simpl. rewrite length_imap, HLa. lia.
  - simpl. rewrite length_imap, HLa. lia.
  - rewrite Hc. cbn [bind]. eexists _, i. split; [done|]. split; [done|].
    pose proof (removeRandomChars_fields _ _ _ Hc) as (_ & Hcl & _).
    cbn [currentLines updateUndoButtonState clearMessage saveStateR
         set_undoDisabled set_message set_stateR].
    rewrite Hcl. exact Hlines.
Qed.
End Fallback.

(** ** The blank layout stays fixed within a round *)

Lemma lines_layout_update_card r f s :
  (∀ c, get_card r s = Some c → layout (f c) = layout c) →
  lines_layout (update_card r f s) = lines_layout s.
Proof.
  intros Hf. unfold lines_layout.
  destruct r; simpl in *; by rewrite fmap_alter_same.
Qed.

Lemma layout_fill_card char c : is_blank c = true → layout (fill_card char c) = layout c.
Proof. unfold layout, is_blank. simpl. by intros ->. Qed.

Lemma layout_empty_card c : is_blank c = true → layout (empty_card c) = layout c.
Proof. unfold layout, is_blank. simpl. by intros ->. Qed.

Lemma lines_layout_clear_drag_over s :
  lines_layout (clear_drag_over s) = lines_layout s.
Proof.
  unfold lines_layout, clear_drag_over. simpl. rewrite <- !list_fmap_compose.
  f_equal; apply list_fmap_ext; intros i c _; simpl; by destruct (is_empty_card c).
Qed.

Lemma length_filter_fmap {A B} (f : A → B) (P : B → Prop)
    `{!∀ x, Decision (P x)} (l : list A) :
  length (filter P (f <$> l)) = length (filter (λ x, P (f x)) l).
Proof.
  induction l as [|x l IH]; [done|].
  rewrite fmap_cons, !filter_cons. case_decide; simpl; by rewrite IH.
Qed.

Lemma length_blanks_layout s t :
  lines_layout s = lines_layout t → length (blanks s) = length (blanks t).
Proof.
  unfold lines_layout, blanks, cards. intros [= H1 H2].
  assert (∀ l, length (filter (λ c, is_blank c = true) l)
               = length (filter (λ x : nat * nat * jsstring * jsstring * bool,
                                   x.2 = true) (layout <$> l))) as Hl.
  { intros l. by rewrite (length_filter_fmap layout). }
  by rewrite !filter_app, !length_app, !Hl, H1, H2.
Qed.

(** ** The markup round trip *)

Lemma normalize_newlines_facts n :
  ∀ t, (length t ≤ n)%nat →
       (13%N ∉ normalize_newlines t)
       ∧ (13%N ∉ t → normalize_newlines t = t)
       ∧ (0%N ∉ t → 0%N ∉ normalize_newlines t).
Proof.
  induction n as [|n IH]; intros [|c t] Hlen; cbn in Hlen; try lia;
    try (split_and!; [apply not_elem_of_nil|done|done]).
  assert (length t ≤ n)%nat as Ht by lia.
  destruct (IH t Ht) as (H1 & H2 & H3).
  cbn [normalize_newlines]. case_bool_decide as Hc.
  - subst c. destruct t as [|c' t'].
    + split_and!.
      * intros [?|?%elem_of_nil]%elem_of_cons; done.
      * intros Hno. destruct Hno. apply list_elem_of_here.
      * intros _ [?|?%elem_of_nil]%elem_of_cons; done.
    + assert (length t' ≤ n)%nat as Ht' by (cbn in Ht; lia).
      destruct (IH t' Ht') as (H1' & H2' & H3').
      case_bool_decide as Hc'.
      * split_and!.
        -- intros [?|?]%elem_of_cons; done.
        -- intros Hno. destruct Hno. apply list_elem_of_here.
        -- intros H0 [?|?]%elem_of_cons; [done|].
           apply H3'; [|done]. intros Hin. apply H0.
           by apply list_elem_of_further, list_elem_of_further.
      * split_and!.
        -- intros [?|?]%elem_of_cons; done.
        -- intros Hno. destruct Hno. apply list_elem_of_here.
        -- intros H0 [?|?]%elem_of_cons; [done|].
           apply H3; [|done]. intros Hin. apply H0.
           by apply list_elem_of_further.
  - split_and!.
    + intros [?|?]%elem_of_cons; done.
    + intros Hno. f_equal. apply H2. intros Hin. apply Hno.
      by apply list_elem_of_further.
    + intros H0 [?|?]%elem_of_cons.
      * subst c. apply H0, list_elem_of_here.
      * apply H3; [|done]. intros Hin. apply H0. by apply list_elem_of_further.
Qed.

Lemma normalize_newlines_no_CR t : 13%N ∉ normalize_newlines t.
Proof. by apply (normalize_newlines_facts (length t) t). Qed.

Lemma normalize_newlines_stable t : 13%N ∉ t → normalize_newlines t = t.
Proof. by apply (normalize_newlines_facts (length t) t). Qed.

Lemma parse_attr_stable t : markup_stable t → parse_attr t = t.
Proof.
  intros [H13 H0]. unfold parse_attr. rewrite normalize_newlines_stable by done.
  rewrite <- (list_fmap_id t) at 2. apply list_fmap_ext. intros i c Hc.
  rewrite bool_decide_eq_false_2; [done|].
  intros ->. apply H0. by eapply list_elem_of_lookup_2.
Qed.

Lemma parse_text_stable t : markup_stable t → parse_text t = t.
Proof.
  intros [H13 H0]. unfold parse_text. rewrite normalize_newlines_stable by done.
  induction t as [|c t IH]; [done|].
  rewrite (filter_cons _ c t). rewrite decide_True.
  - f_equal. apply IH.
    + intros Hin. apply H13. by apply list_elem_of_further.
    + intros Hin. apply H0. by apply list_elem_of_further.
  - intros ->. apply H0, list_elem_of_here.
Qed.

Lemma parse_attr_markup_stable t : markup_stable (parse_attr t).
Proof.
  unfold parse_attr. split.
  - intros (c & Hc & Hin)%list_elem_of_fmap.
    case_bool_decide; [done|]. subst c. by apply normalize_newlines_no_CR in Hin.
  - intros (c & Hc & Hin)%list_elem_of_fmap.
    by case_bool_decide.
Qed.

Lemma parse_text_markup_stable t : markup_stable (parse_text t).
Proof.
  unfold parse_text. split.
  - intros [_ Hin]%list_elem_of_filter. by apply normalize_newlines_no_CR in Hin.
  - by intros [? _]%list_elem_of_filter.
Qed.

Lemma parse_attr_idemp t : parse_attr (parse_attr t) = parse_attr t.
Proof. apply parse_attr_stable, parse_attr_markup_stable. Qed.

Lemma parse_text_idemp t : parse_text (parse_text t) = parse_text t.
Proof. apply parse_text_stable, parse_text_markup_stable. Qed.

Lemma reparse_card_idemp c : reparse_card (reparse_card c) = reparse_card c.
Proof.
  destruct c as [? ? ? ? ? ? ? fc ?]. unfold reparse_card.
  cbn -[parse_text parse_attr].
  rewrite parse_text_idemp, !parse_attr_idemp. f_equal.
  destruct fc; cbn -[parse_attr]; by rewrite ?parse_attr_idemp.
Qed.

Lemma reparse_drag_idemp d : reparse_drag (reparse_drag d) = reparse_drag d.
Proof.
  destruct d. unfold reparse_drag. cbn -[parse_text parse_attr].
  by rewrite parse_text_idemp, !parse_attr_idemp.
Qed.

Lemma markup_layout_reparse_card c :
  markup_layout (reparse_card c) = markup_layout c.
Proof.
  destruct c. unfold markup_layout. cbn -[parse_attr].
  by rewrite !parse_attr_idemp.
Qed.

Lemma markup_layout_of_layout c c' :
  layout c' = layout c → markup_layout c' = markup_layout c.
Proof. unfold layout, markup_layout. by intros [= -> -> -> -> ->]. Qed.

Lemma lines_markup_layout_of_layout s t :
  lines_layout t = lines_layout s → lines_markup_layout t = lines_markup_layout s.
Proof.
  assert (∀ l l' : list card,
            layout <$> l' = layout <$> l →
            markup_layout <$> l' = markup_layout <$> l) as Hl.
  { intros l l' Heq.
    assert (∀ l0 : list card,
              markup_layout <$> l0
              = (λ x : nat * nat * jsstring * jsstring * bool,
                   (x.1.1.1.1, x.1.1.1.2, parse_attr x.1.1.2, parse_attr x.1.2, x.2))
                  <$> (layout <$> l0)) as Hm.
    { intros l0. rewrite <- list_fmap_compose. by apply list_fmap_ext. }
    by rewrite !Hm, Heq. }
  unfold lines_layout, lines_markup_layout. intros [= H1 H2].
  by rewrite (Hl _ _ H1), (Hl _ _ H2).
Qed.

Lemma length_blanks_markup_layout s t :
  lines_markup_layout s = lines_markup_layout t →
  length (blanks s) = length (blanks t).
Proof.
  unfold lines_markup_layout, blanks, cards. intros [= H1 H2].
  assert (∀ l, length (filter (λ c, is_blank c = true) l)
               = length (filter (λ x : nat * nat * jsstring * jsstring * bool,
                                   x.2 = true) (markup_layout <$> l))) as Hl.
  { intros l. by rewrite (length_filter_fmap markup_layout). }
  by rewrite !filter_app, !length_app, !Hl, H1, H2.
Qed.

Section Layout.
Variable host : browser.

Lemma lines_layout_checkCompletion s :
  lines_layout (checkCompletion host s) = lines_layout s.
Proof.
  pose proof (checkCompletion_fields host s) as (H1 & H2 & _).
  unfold lines_layout. by rewrite H1, H2.
Qed.

Lemma lines_layout_update_source src f s :
  lines_layout (update_source src f s) = lines_layout s.
Proof. by destruct src. Qed.

Lemma lines_layout_undoLastDrag s :
  page_ok s → lines_layout (undoLastDrag s) = lines_layout s.
Proof.
  intros Hok. unfold undoLastDrag.
  destruct (lastDragAction s) as [a|] eqn:Ha; [|done].
  transitivity (lines_layout (update_card (a_card a) empty_card s));
    [by destruct (a_dragChar a)|].
  apply lines_layout_update_card. intros c Hc. apply layout_empty_card.
  apply card_ok_dropZone; [by eapply page_ok_card|].
  destruct Hok as (_ & Hact & _). by eapply Hact.
Qed.

Lemma lines_layout_fill ref a char c s :
  get_card ref s = Some c → is_blank c = true →
  lines_layout (update_card ref (fill_card char)
                  (updateUndoButtonState (set_lastDragAction a s)))
  = lines_layout s.
Proof.
  intros Hc Hb. rewrite lines_layout_update_card; [done|].
  intros c'. assert (get_card ref (updateUndoButtonState (set_lastDragAction a s))
                     = get_card ref s) as -> by (by destruct ref).
  rewrite Hc. intros [= <-]. by apply layout_fill_card.
Qed.

Lemma lines_layout_drop ref char dragIndex s :
  page_ok s → lines_layout (drop host ref char dragIndex s) = lines_layout s.
Proof.
  intros Hok. unfold drop, on_dropZone.
  destruct (get_card ref s) as [c|] eqn:Hc; [|done].
  destruct (dropZone c) eqn:Hd; [|done].
  assert (lines_layout (update_card ref (remove_class "drag-over") s)
          = lines_layout s) as H1 by (by apply lines_layout_update_card).
  case_bool_decide; [done|].
  destruct (querySelector host _ _) as [q|]; [|done].
  rewrite lines_layout_checkCompletion, <- H1.
  transitivity (lines_layout
    (update_card ref (fill_card char)
       (updateUndoButtonState
          (set_lastDragAction (Some (DragAction ref q char))
             (update_card ref (remove_class "drag-over") s)))));
    [by destruct q|].
  eapply lines_layout_fill.
  - by rewrite get_card_update_card_eq, Hc.
  - apply (card_ok_dropZone c); [by eapply page_ok_card|done].
Qed.

Lemma lines_layout_touchend src below s :
  page_ok s → lines_layout (touchend host src below s) = lines_layout s.
Proof.
  intros Hok. unfold touchend.
  destruct (touch_char src s) as [char|]; [|done].
  rewrite lines_layout_clear_drag_over.
  destruct below as [ref|]; [|apply lines_layout_update_source].
  rewrite get_card_update_source.
  destruct (get_card ref s) as [c|] eqn:Hc; [|apply lines_layout_update_source].
  destruct (contains "empty" (className c)) eqn:He;
    [|apply lines_layout_update_source].
  case_bool_decide as Hf; [apply lines_layout_update_source|]. simpl.
  rewrite lines_layout_checkCompletion, lines_layout_update_source.
  rewrite lines_layout_update_card by done.
  destruct (card_ok_empty_class c (page_ok_card _ _ _ Hok Hc) He) as [Hd _].
  erewrite lines_layout_fill.
  - apply lines_layout_update_source.
  - by rewrite get_card_update_source.
  - apply card_ok_dropZone; [by eapply page_ok_card|done].
Qed.

Lemma lines_layout_touchmove clone below s :
  lines_layout (touchmove clone below s) = lines_layout s.
Proof.
  destruct clone; [|done].
  unfold touchmove. cbn [negb]. destruct below as [ref|];
    [|apply lines_layout_clear_drag_over].
  destruct (get_card ref _) as [c|]; [|apply lines_layout_clear_drag_over].
  destruct (contains _ _); [|apply lines_layout_clear_drag_over].
  rewrite lines_layout_update_card by done. apply lines_layout_clear_drag_over.
Qed.

Lemma lines_layout_step e s :
  in_round e → no_timer e → page_ok s →
  lines_layout (step host e s) = lines_layout s.
Proof.
  intros He Hnt Hok. destruct e; simpl.
  - done.
  - by apply lines_layout_undoLastDrag.
  - unfold dragover, on_dropZone. destruct (get_card ref s) as [c|]; [|done].
    destruct (dropZone c); [|done]. by apply lines_layout_update_card.
  - unfold dragleave, on_dropZone. destruct (get_card ref s) as [c|]; [|done].
    destruct (dropZone c); [|done]. by apply lines_layout_update_card.
  - by apply lines_layout_drop.
  - done.
  - done.
  - done.
  - apply lines_layout_touchmove.
  - by apply lines_layout_touchend.
  - done.
Qed.

(** Within the round generated as [s1], the snapshot and the two lines
    stay those of [s1], and as long as no restore fires, so does the
    layout of the page. *)
Lemma round_layout_run s s1 es :
  startGame host s = Normal s1 →
  Forall in_round es →
  Forall no_timer es →
  page_ok s1 →
  page_ok (run host es s1)
  ∧ round_setup (run host es s1) = round_setup s1
  ∧ lines_layout (run host es s1) = lines_layout s1.
Proof.
  intros Hs Hes Hnt Hok1.
  assert (∀ t, page_ok t ∧ round_setup t = round_setup s1
               ∧ lines_layout t = lines_layout s1 →
               page_ok (run host es t) ∧ round_setup (run host es t) = round_setup s1
               ∧ lines_layout (run host es t) = lines_layout s1) as Hgen.
  { induction Hes as [|e es He Hes IH]; intros t Ht; [done|].
    apply Forall_cons in Hnt as [Hnt1 Hnt].
    simpl. apply IH; [done|]. destruct Ht as (Hok & Hsetup & Hlay).
    split; [by apply page_ok_step|].
    split; [by rewrite round_setup_step|].
    rewrite <- Hlay. by apply lines_layout_step. }
  by apply Hgen.
Qed.

(** With restores, the layout stays that of [s1] as the parser reads
    it. *)
Lemma round_markup_layout_run s s1 es :
  startGame host s = Normal s1 →
  Forall in_round es →
  page_ok s1 →
  page_ok (run host es s1)
  ∧ round_setup (run host es s1) = round_setup s1
  ∧ lines_markup_layout (run host es s1) = lines_markup_layout s1.
Proof.
  intros Hs Hes Hok1.
  assert (∀ t, page_ok t ∧ round_setup t = round_setup s1
               ∧ lines_markup_layout t = lines_markup_layout s1 →
               page_ok (run host es t) ∧ round_setup (run host es t) = round_setup s1
               ∧ lines_markup_layout (run host es t) = lines_markup_layout s1)
    as Hgen.
  { induction Hes as [|e es He Hes IH]; intros t Ht; [done|].
    simpl. apply IH. destruct Ht as (Hok & Hsetup & Hlay).
    split; [by apply page_ok_step|].
    split; [by rewrite round_setup_step|].
    assert (e = TimerFires ∨ no_timer e) as [->|Hnt]
      by (destruct e; (by left) || (by right)).
    - simpl. destruct (timers t) as [|n]; [done|].
      assert (stateR (set_timers n t) = stateR s1) as Hr
        by (unfold round_setup in Hsetup; simpl; congruence).
      pose proof (restoreStateR_generated host s s1 _ Hs Hr) as (H1 & H2 & _).
      unfold lines_markup_layout. rewrite H1, H2, <- !list_fmap_compose.
      f_equal; apply list_fmap_ext; intros i c _; apply markup_layout_reparse_card.
    - rewrite <- Hlay. apply lines_markup_layout_of_layout.
      by apply lines_layout_step. }
  by apply Hgen.
Qed.
End Layout.

(** ** The sample round *)

Lemma reachable_default_round : reachable sample_browser default_round.
Proof.
  unfold default_round. apply reachable_init.
Qed.

(** * The claims *)

(** C8 (amended).  For every Round produced by round generation, the blank
    positions are pairwise distinct and lie within the 2 x L grid
    ([lineIndex] 0 or 1, [charIndex] below [L]), and the cards that are
    blanks on the page are the cards at those positions.  Their number is
    the length of [allPositions.slice(0, removeCount)]: [removeCount]
    itself whenever [0 <= removeCount <= 2 L], and [2 L] when
    [removeCount] is larger. *)
Theorem startGame_blank_positions host s s' :
  startGame host s = Normal s' →
  NoDup (blankPositions s')
  ∧ (∀ p, p ∈ blankPositions s' →
          (p_line p < 2)%nat ∧ Z.of_nat (p_index p) < lineLength s')
  ∧ (∀ r c, get_card r s' = Some c →
            (is_blank c = true ↔ r ∈ card_of <$> blankPositions s'))
  ∧ Z.of_nat (length (blankPositions s')) =
    (if bool_decide (removeCount s' < 0)
     then Z.max (2 * Z.max (lineLength s') 0 + removeCount s') 0
     else Z.min (removeCount s') (2 * Z.max (lineLength s') 0))
  ∧ (0 ≤ removeCount s' ≤ 2 * lineLength s' →
     Z.of_nat (length (blankPositions s')) = removeCount s').
Proof.
  intros H. destruct (blank_positions_of_startGame _ _ _ H) as [rp Hbp].
  pose proof (shuffle_Permutation host (allPositions (lineLength s')) rp) as Hperm.
  assert (Z.of_nat (length (blankPositions s')) =
          if bool_decide (removeCount s' < 0)
          then Z.max (2 * Z.max (lineLength s') 0 + removeCount s') 0
          else Z.min (removeCount s') (2 * Z.max (lineLength s') 0)) as Hlen.
  { rewrite Hbp, length_slice0, (Permutation_length Hperm), length_allPositions.
    case_bool_decide; lia. }
  split_and!.
  - rewrite Hbp. eapply sublist_NoDup; [|apply slice0_sublist].
    rewrite Hperm. apply NoDup_allPositions.
  - intros p Hp. apply elem_of_allPositions. rewrite <- Hperm.
    rewrite Hbp in Hp. eapply elem_of_sublist; [exact Hp|apply slice0_sublist].
  - intros r c Hc. exact (startGame_page_blanks _ _ _ _ _ H Hc).
  - exact Hlen.
  - intros Hrc. rewrite Hlen. case_bool_decide; lia.
Qed.

Lemma startGame_blank_positions_witness :
  NoDup (blankPositions default_round)
  ∧ (∀ p, p ∈ blankPositions default_round →
          (p_line p < 2)%nat ∧ Z.of_nat (p_index p) < lineLength default_round)
  ∧ (∀ r c, get_card r default_round = Some c →
            (is_blank c = true ↔ r ∈ card_of <$> blankPositions default_round))
  ∧ Z.of_nat (length (blankPositions default_round)) =
    (if bool_decide (removeCount default_round < 0)
     then Z.max (2 * Z.max (lineLength default_round) 0
                 + removeCount default_round) 0
     else Z.min (removeCount default_round)
                (2 * Z.max (lineLength default_round) 0))
  ∧ (0 ≤ removeCount default_round ≤ 2 * lineLength default_round →
     Z.of_nat (length (blankPositions default_round)) = removeCount default_round).
Proof.
  apply (startGame_blank_positions sample_browser default_start default_round).
  vm_compute. reflexivity.
Defined.

(** C8, as stated, fails: with [removeCount = 11] and five-character lines
    a Round is produced whose ten blank positions are fewer than
    [removeCount]. *)
Lemma blank_count_differs_from_removeCount :
  startGame sample_browser start_11 = Normal round_11
  ∧ removeCount round_11 = 11
  ∧ length (blankPositions round_11) = 10%nat.
Proof. vm_compute. done. Qed.

(** C1 (amended).  If [removeCount] exceeds the number of available
    positions 2 x L, round generation does not fail: it silently clamps,
    and blanks every one of the 2 x L positions (whenever each rendered
    line has a card for every column of the grid). *)
Theorem removeRandomChars_clamps host s :
  2 * lineLength s < removeCount s →
  (Z.to_nat (lineLength s) ≤ length (line1 s))%nat →
  (Z.to_nat (lineLength s) ≤ length (line2 s))%nat →
  ∃ s', removeRandomChars host s = Normal s'
        ∧ blankPositions s' ≡ₚ allPositions (lineLength s)
        ∧ length (blankPositions s') = (2 * Z.to_nat (lineLength s))%nat.
Proof.
  intros Hrc H1 H2.
  destruct (removeRandomChars_success host s H1 H2) as [s' Hs'].
  exists s'. split; [done|].
  assert (blankPositions s' ≡ₚ allPositions (lineLength s)) as Hperm.
  { rewrite (removeRandomChars_blankPositions _ _ _ Hs').
    pose proof (shuffle_Permutation host (allPositions (lineLength s)) (rpos s))
      as Hsh.
    destruct (decide (0 < lineLength s)) as [HL|HL].
    - rewrite slice0_all; [done|].
      rewrite (Permutation_length Hsh), length_allPositions. lia.
    - pose proof (Permutation_length Hsh) as Hlen.
      rewrite length_allPositions in Hlen.
      destruct (shuffle host (allPositions (lineLength s)) (rpos s)).1 as [|p l];
        [|simpl in Hlen; lia].
      unfold slice0. by rewrite take_nil. }
  split; [done|]. by rewrite (Permutation_length Hperm), length_allPositions.
Qed.

Lemma removeRandomChars_clamps_witness :
  ∃ s', removeRandomChars sample_browser
          (state_of (renderPoem (state_of (selectRandomLines sample_browser start_11))))
        = Normal s'
        ∧ blankPositions s' ≡ₚ allPositions 5
        ∧ length (blankPositions s') = 10%nat.
Proof.
  apply (removeRandomChars_clamps sample_browser
           (state_of (renderPoem (state_of (selectRandomLines sample_browser start_11)))));
    vm_compute; [reflexivity|lia|lia].
Defined.

(** C1, as stated, fails: with [removeCount = 11] and five-character lines
    generation returns normally, with ten blanks and ten candidates. *)
Lemma generation_does_not_fail_fast :
  ∃ s', startGame sample_browser start_11 = Normal s'
        ∧ 2 * lineLength s' < removeCount s'
        ∧ length (removedChars s') = 10%nat
        ∧ length (dragChars s') = 10%nat.
Proof. eexists. vm_compute. done. Qed.

(** C6 (amended).  For every state and every fill whose target blank is
    already filled ([data-filled] is ["true"]), the fill is a no-op: the
    [drop] listener stops at its guard, having at most taken the class
    [drag-over] off the target, and the [touchend] listener does not enter
    its fill branch; either way the Round is unchanged: the existing
    assignment of the blank, the candidates consumed so far and
    [lastDragAction] stay as they were.  Neither listener gives back a
    result that says so: both return [undefined], as they do after a fill
    that was accepted. *)
Theorem fill_on_filled_blank_is_blocked host s ref c char dragIndex src :
  get_card ref s = Some c →
  data_filled c = Some "true" →
  drop host ref char dragIndex s
  = (if dropZone c then update_card ref (remove_class "drag-over") s else s)
  ∧ round_of (drop host ref char dragIndex s) = round_of s
  ∧ round_of (touchend host src (Some ref) s) = round_of s
  ∧ assignment <$> get_card ref (drop host ref char dragIndex s)
    = Some (assignment c)
  ∧ assignment <$> get_card ref (touchend host src (Some ref) s)
    = Some (assignment c)
  ∧ (dropZone c = true →
     drop_completion host ref char dragIndex s = Returns JsUndefined)
  ∧ (is_Some (touch_char src s) →
     touchend_completion src (Some ref) s = Returns JsUndefined).
Proof.
  intros Hc Hfilled.
  pose proof (drop_on_filled host s ref c char dragIndex Hc Hfilled) as Hdrop.
  assert (∀ ref' c', Some ref = Some ref' → get_card ref' s = Some c' →
            contains "empty" (className c')
            && negb (bool_decide (data_filled c' = Some "true")) = false) as Hb.
  { intros ref' c' [= <-]. rewrite Hc. intros [= <-].
    by rewrite Hfilled, bool_decide_eq_true_2, andb_false_r. }
  split_and!.
  - exact Hdrop.
  - by eapply round_of_drop_on_filled.
  - by apply round_of_touchend_no_fill.
  - rewrite Hdrop. destruct (dropZone c); [|by rewrite Hc].
    rewrite get_card_update_card_eq, Hc. simpl.
    by rewrite assignment_remove_drag_over.
  - destruct (touchend_no_fill host s src (Some ref) Hb) as [->| ->];
      [by rewrite Hc|].
    rewrite get_card_clear_drag_over, get_card_update_source, Hc. simpl.
    destruct (is_empty_card c); by rewrite ?assignment_remove_drag_over.
  - intros Hd. unfold drop_completion.
    by rewrite Hc, Hd, bool_decide_eq_true_2.
  - intros [ch Hch]. unfold touchend_completion. by rewrite Hch.
Qed.

Lemma fill_on_filled_blank_is_blocked_witness :
  round_of (drop sample_browser (InLine1 2) [21568%N] "1" after_first_fill)
  = round_of after_first_fill
  ∧ round_of (touchend sample_browser (TouchLive 1) (Some (InLine1 2))
                       after_first_fill)
    = round_of after_first_fill
  ∧ drop_completion sample_browser (InLine1 2) [21568%N] "1" after_first_fill
    = Returns JsUndefined.
Proof.
  let o := eval vm_compute in (get_card (InLine1 2) after_first_fill) in
  match o with
  | Some ?c =>
    assert (get_card (InLine1 2) after_first_fill = Some c) as Hc
      by (vm_compute; reflexivity);
    assert (data_filled c = Some "true") as Hf by (vm_compute; reflexivity);
    assert (dropZone c = true) as Hd by (vm_compute; reflexivity);
    pose proof (fill_on_filled_blank_is_blocked sample_browser after_first_fill
                  (InLine1 2) c [21568%N] "1" (TouchLive 1) Hc Hf)
      as (_ & H1 & H2 & _ & _ & H3 & _)
  end.
  exact (conj H1 (conj H2 (H3 Hd))).
Defined.

(** C6, as stated, fails: no blocked result is returned.  In
    [after_first_fill] the blank (0,2) is filled and the blank (0,4) is
    empty; the [drop] listener returns [undefined] for a drop on the first,
    which is turned away, as it does for the same drop on the second,
    which is accepted and changes the Round; the [touchend] listener
    returns [undefined] as well. *)
Lemma blocked_fill_returns_undefined :
  data_filled <$> get_card (InLine1 2) after_first_fill = Some (Some "true")
  ∧ data_filled <$> get_card (InLine1 4) after_first_fill = Some (Some "false")
  ∧ drop_completion sample_browser (InLine1 2) [21568%N] "1" after_first_fill
    = Returns JsUndefined
  ∧ drop_completion sample_browser (InLine1 4) [21568%N] "1" after_first_fill
    = Returns JsUndefined
  ∧ touchend_completion (TouchLive 1) (Some (InLine1 2)) after_first_fill
    = Returns JsUndefined
  ∧ round_of (drop sample_browser (InLine1 2) [21568%N] "1" after_first_fill)
    = round_of after_first_fill
  ∧ round_of (drop sample_browser (InLine1 4) [21568%N] "1" after_first_fill)
    ≠ round_of after_first_fill.
Proof. vm_compute. split_and!; done. Qed.

(** C7 (amended).  [undoLastDrag] returns [undefined] (it has no [false]
    to return) and changes nothing when [lastDragAction] is unset;
    otherwise it turns the most recently filled blank back into an empty
    blank, makes its candidate available again, touches no other card,
    clears [lastDragAction], and returns [undefined] as well; undoing
    twice in a row gives the same state as undoing once. *)
Theorem undo_once s :
  (lastDragAction s = None →
   undoLastDrag s = s ∧ undoLastDrag_completion s = Returns JsUndefined)
  ∧ undoLastDrag_completion s = Returns JsUndefined
  ∧ (∀ a, lastDragAction s = Some a →
       lastDragAction (undoLastDrag s) = None
       ∧ (∀ c, get_card (a_card a) s = Some c →
               get_card (a_card a) (undoLastDrag s) = Some (empty_card c)
               ∧ empty_blank (empty_card c)
               ∧ data_filledChar (empty_card c) = None)
       ∧ (∀ r, r ≠ a_card a → get_card r (undoLastDrag s) = get_card r s)
       ∧ (∀ k d, a_dragChar a = LiveDrag k → dragChars s !! k = Some d →
                 ∃ d', dragChars (undoLastDrag s) !! k = Some d'
                       ∧ available d' = true))
  ∧ undoLastDrag (undoLastDrag s) = undoLastDrag s.
Proof.
  assert (∀ t, lastDragAction t = None → undoLastDrag t = t) as Hnone.
  { intros t Ht. unfold undoLastDrag. by rewrite Ht. }
  assert (∀ t a, lastDragAction t = Some a → lastDragAction (undoLastDrag t) = None)
    as Hclear.
  { intros t a Ht. unfold undoLastDrag. by rewrite Ht. }
  assert (undoLastDrag_completion s = Returns JsUndefined) as Hret
    by (unfold undoLastDrag_completion; by destruct (lastDragAction s)).
  split_and!.
  - intros Hno. split; [by apply Hnone|done].
  - done.
  - intros a Ha. split_and!.
    + by eapply Hclear.
    + intros c Hc. split_and!; [|done|done].
      unfold undoLastDrag. rewrite Ha.
      assert (∀ t, get_card (a_card a)
                     (updateUndoButtonState (set_lastDragAction None t))
                   = get_card (a_card a) t) as -> by (intros; by destruct (a_card a)).
      assert (∀ k f t, get_card (a_card a) (update_drag k f t)
                       = get_card (a_card a) t) as Hd
          by (intros; by destruct (a_card a)).
      destruct (a_dragChar a); rewrite ?Hd, get_card_update_card_eq, Hc; done.
    + intros r Hr. unfold undoLastDrag. rewrite Ha.
      assert (∀ t, get_card r (updateUndoButtonState (set_lastDragAction None t))
                   = get_card r t) as -> by (intros; by destruct r).
      assert (∀ k f t, get_card r (update_drag k f t) = get_card r t) as Hd
          by (intros; by destruct r).
      destruct (a_dragChar a); rewrite ?Hd, get_card_update_card_ne; done.
    + intros k d Hk Hd. unfold undoLastDrag. rewrite Ha, Hk.
      exists (d_remove_class "hidden" d). split.
      * simpl. assert (∀ f t, dragChars (update_card (a_card a) f t) = dragChars t)
          as -> by (intros; by destruct (a_card a)).
        by rewrite list_lookup_alter_eq, Hd.
      * unfold available. simpl.
        by rewrite contains_classList_remove, bool_decide_eq_true_2, andb_false_r.
  - destruct (lastDragAction s) as [a|] eqn:Ha.
    + apply Hnone. by eapply Hclear.
    + rewrite (Hnone s Ha). exact (Hnone s Ha).
Qed.

Lemma undo_once_witness :
  (undoLastDrag default_round = default_round
   ∧ undoLastDrag_completion default_round = Returns JsUndefined)
  ∧ lastDragAction (undoLastDrag after_first_fill) = None.
Proof.
  split.
  - apply (proj1 (undo_once default_round)). vm_compute. reflexivity.
  - apply (proj1 (proj1 (proj2 (proj2 (undo_once after_first_fill)))
                    (DragAction (InLine1 2) (LiveDrag 0) [36935%N])
                    ltac:(vm_compute; reflexivity))).
Defined.

(** C7, as stated, fails: in [default_round] no drag is recorded, and the
    call of [undoLastDrag] returns [undefined], not [false]; it returns
    the same [undefined] in [after_first_fill], where it does undo a
    fill. *)
Lemma undo_returns_undefined :
  lastDragAction default_round = None
  ∧ undoLastDrag_completion default_round = Returns JsUndefined
  ∧ undoLastDrag_completion default_round ≠ Returns (JsBoolean false)
  ∧ is_Some (lastDragAction after_first_fill)
  ∧ undoLastDrag_completion after_first_fill = Returns JsUndefined.
Proof. vm_compute. split_and!; by eauto. Qed.


(** The verdict of [checkCompletion] on the pages that have at least
    [removeCount] blanks, as every Round generated with
    [0 <= removeCount <= 2 L] has: Incomplete if any blank is still empty;
    otherwise Correct if and only if every blank's filled character equals
    that position's original character, and Incorrect otherwise.  With
    fewer than [removeCount] blanks the second test of the guard decides
    Incomplete although no blank is empty. *)
Lemma checkCompletion_verdict host s :
  reachable host s →
  ((∃ c, c ∈ blanks s ∧ data_filled c = Some "false") → evaluate s = Incomplete)
  ∧ ((∀ c, c ∈ blanks s → data_filled c ≠ Some "false") →
     removeCount s ≤ Z.of_nat (length (blanks s)) →
     (evaluate s = Correct
      ↔ ∀ c, c ∈ blanks s → data_filledChar c = Some (data_char c))
     ∧ (evaluate s = Incorrect
        ↔ ∃ c, c ∈ blanks s ∧ data_filledChar c ≠ Some (data_char c)))
  ∧ ((∀ c, c ∈ blanks s → data_filled c ≠ Some "false") →
     Z.of_nat (length (blanks s)) < removeCount s →
     evaluate s = Incomplete).
Proof.
  intros Hreach. destruct (page_ok_reachable _ _ Hreach) as (Hok & _).
  split_and!.
  - intros (c & Hc & Hf). by eapply evaluate_some_empty.
  - intros Hfull Hcount. rewrite (evaluate_all_filled s Hok Hfull).
    rewrite bool_decide_eq_false_2 by lia.
    destruct (forallb _ (blanks s)) eqn:Hall.
    + assert (∀ c, c ∈ blanks s → data_filledChar c = Some (data_char c)) as Hm.
      { intros c Hc. apply Is_true_true, forallb_True in Hall.
        rewrite Forall_forall in Hall. specialize (Hall c Hc).
        by apply bool_decide_unpack in Hall. }
      split; [done|]. split; [done|]. intros (c & Hc & Hne). by destruct Hne; auto.
    + assert (∃ c, c ∈ blanks s ∧ data_filledChar c ≠ Some (data_char c)) as Hm.
      { apply Is_true_false in Hall. rewrite forallb_True in Hall.
        apply not_Forall_Exists in Hall; [|apply _].
        apply Exists_exists in Hall as (c & Hc & Hne). exists c. split; [done|].
        intros Heq. apply Hne. apply bool_decide_pack. done. }
      split; [|done]. split; [done|]. intros Hm'. destruct Hm as (c & Hc & Hne).
      by destruct Hne; auto.
  - intros Hfull Hcount. rewrite (evaluate_all_filled s Hok Hfull).
    by rewrite bool_decide_eq_true_2.
Qed.

Lemma checkCompletion_verdict_solved :
  ((∃ c, c ∈ blanks solved ∧ data_filled c = Some "false") →
   evaluate solved = Incomplete)
  ∧ ((∀ c, c ∈ blanks solved → data_filled c ≠ Some "false") →
     removeCount solved ≤ Z.of_nat (length (blanks solved)) →
     (evaluate solved = Correct
      ↔ ∀ c, c ∈ blanks solved → data_filledChar c = Some (data_char c))
     ∧ (evaluate solved = Incorrect
        ↔ ∃ c, c ∈ blanks solved ∧ data_filledChar c ≠ Some (data_char c)))
  ∧ ((∀ c, c ∈ blanks solved → data_filled c ≠ Some "false") →
     Z.of_nat (length (blanks solved)) < removeCount solved →
     evaluate solved = Incomplete).
Proof.
  apply (checkCompletion_verdict sample_browser solved).
  apply reachable_run. exact reachable_default_round.
Qed.

(** C4 (evaluation at the failing input).  With [removeCount = 11] and
    five-character lines the Round has ten blanks.  Once all ten hold
    their original characters no blank is empty and every filled character
    equals the original one, yet [checkCompletion] leaves at its guard:
    the verdict is Incomplete, no message is shown and no restore is
    scheduled. *)
Theorem all_filled_yet_Incomplete :
  reachable sample_browser all_filled_11
  ∧ removeCount all_filled_11 = 11
  ∧ length (blanks all_filled_11) = 10%nat
  ∧ filter (λ c, data_filled c ≠ Some "true"
                 ∨ data_filledChar c ≠ Some (data_char c))
           (blanks all_filled_11) = []
  ∧ emptyCards all_filled_11 = []
  ∧ evaluate all_filled_11 = Incomplete
  ∧ message all_filled_11 = NoMessage
  ∧ timers all_filled_11 = O.
Proof.
  split.
  - apply reachable_run. unfold round_11. apply reachable_init.
  - vm_compute. split_and!; done.
Qed.

(** C5.  Whatever was filled, undone or dragged since a Round was
    generated, restoring the Round to its snapshot resets every blank
    position to empty, makes every candidate available again and clears
    [lastDragAction], while the two lines, the blank positions and the
    layout of the cards (as the parser reads it from the saved markup) are
    those of the generated Round: a retry in the same Round.  The page is
    the generated page read back from its markup. *)
Theorem restoreStateR_restores_round host s s1 es :
  startGame host s = Normal s1 →
  Forall in_round es →
  line1 (restoreStateR (run host es s1)) = reparse_card <$> line1 s1
  ∧ line2 (restoreStateR (run host es s1)) = reparse_card <$> line2 s1
  ∧ dragChars (restoreStateR (run host es s1)) = reparse_drag <$> dragChars s1
  ∧ currentLines (restoreStateR (run host es s1)) = currentLines s1
  ∧ blankPositions (restoreStateR (run host es s1)) = blankPositions s1
  ∧ lines_markup_layout (restoreStateR (run host es s1)) = lines_markup_layout s1
  ∧ lastDragAction (restoreStateR (run host es s1)) = None
  ∧ (∀ c, c ∈ blanks (restoreStateR (run host es s1)) →
          empty_blank c ∧ data_filledChar c = None)
  ∧ (∀ r c, get_card r (restoreStateR (run host es s1)) = Some c →
            (is_blank c = true ↔ r ∈ card_of <$> blankPositions s1))
  ∧ (∀ d, d ∈ dragChars (restoreStateR (run host es s1)) → available d = true).
Proof.
  intros Hs Hes.
  pose proof (round_setup_run host es s1 Hes) as Hsetup.
  assert (stateR (run host es s1) = stateR s1) as Hr
    by (unfold round_setup in Hsetup; congruence).
  pose proof (restoreStateR_generated host s s1 _ Hs Hr)
    as (H1 & H2 & Hd & Ha & _ & _ & Hsetup' & _).
  rewrite Hsetup in Hsetup'.
  pose proof (startGame_generated _ _ _ Hs) as (Hgen & Hav & _).
  assert (∀ c, c ∈ cards (restoreStateR (run host es s1)) →
               ∃ c0, c0 ∈ cards s1 ∧ c = reparse_card c0) as Hcards.
  { intros c Hc. unfold cards in Hc. rewrite H1, H2, <- fmap_app in Hc.
    apply list_elem_of_fmap in Hc as (c0 & -> & Hc0). by exists c0. }
  split_and!; try done.
  - unfold round_setup in Hsetup'. congruence.
  - unfold blankPositions. unfold round_setup in Hsetup'. congruence.
  - unfold lines_markup_layout. rewrite H1, H2, <- !list_fmap_compose.
    f_equal; apply list_fmap_ext; intros i c _; apply markup_layout_reparse_card.
  - intros c [Hb Hc]%elem_of_blanks. apply generated_blank_is_empty; [|done].
    destruct (Hcards c Hc) as (c0 & Hc0 & ->).
    apply generated_reparse_card.
    rewrite Forall_forall in Hgen. by apply Hgen.
  - intros r c Hc.
    assert (∃ c0, get_card r s1 = Some c0 ∧ c = reparse_card c0) as (c0 & Hc0 & ->).
    { destruct r; simpl in Hc; [rewrite H1 in Hc|rewrite H2 in Hc];
        rewrite list_lookup_fmap in Hc;
        destruct (_ !! i) as [c0|] eqn:Hc0; try done;
        injection Hc as <-; by exists c0. }
    replace (is_blank (reparse_card c0)) with (is_blank c0) by (by destruct c0).
    eapply startGame_page_blanks; [exact Hs|exact Hc0].
  - intros d Hin. rewrite Hd in Hin.
    apply list_elem_of_fmap in Hin as (d0 & -> & Hd0).
    rewrite Forall_forall in Hav.
    apply drag_char_available. destruct d0. cbn. by apply (Hav _ Hd0).
Qed.

Lemma restoreStateR_restores_round_witness :
  line1 (restoreStateR (run sample_browser wrong_fills default_round))
    = reparse_card <$> line1 default_round
  ∧ line2 (restoreStateR (run sample_browser wrong_fills default_round))
    = reparse_card <$> line2 default_round
  ∧ dragChars (restoreStateR (run sample_browser wrong_fills default_round))
    = reparse_drag <$> dragChars default_round
  ∧ currentLines (restoreStateR (run sample_browser wrong_fills default_round))
    = currentLines default_round
  ∧ blankPositions (restoreStateR (run sample_browser wrong_fills default_round))
    = blankPositions default_round
  ∧ lines_markup_layout
      (restoreStateR (run sample_browser wrong_fills default_round))
    = lines_markup_layout default_round
  ∧ lastDragAction (restoreStateR (run sample_browser wrong_fills default_round))
    = None
  ∧ (∀ c, c ∈ blanks (restoreStateR
                        (run sample_browser wrong_fills default_round)) →
          empty_blank c ∧ data_filledChar c = None)
  ∧ (∀ r c, get_card r (restoreStateR
                          (run sample_browser wrong_fills default_round))
            = Some c →
            (is_blank c = true ↔ r ∈ card_of <$> blankPositions default_round))
  ∧ (∀ d, d ∈ dragChars (restoreStateR
                           (run sample_browser wrong_fills default_round)) →
          available d = true).
Proof.
  apply (restoreStateR_restores_round sample_browser default_start default_round
           wrong_fills).
  - vm_compute. reflexivity.
  - repeat constructor; discriminate.
Defined.

(** C3 (amended).  Starting a new Round does not cancel a pending restore:
    [startGame] leaves the pending callbacks in place, and a callback that
    fires in the new Round restores the page to the new Round's own
    snapshot, read back from its markup (its blanks empty, its candidates
    available, [lastDragAction] cleared).  So it never brings back the old
    Round, but it discards whatever was filled in the new Round until
    then. *)
Theorem pending_restore_survives_restart host s s1 es n :
  startGame host s = Normal s1 →
  Forall in_round es →
  timers (run host es s1) = S n →
  timers s1 = timers s
  ∧ line1 (step host TimerFires (run host es s1)) = reparse_card <$> line1 s1
  ∧ line2 (step host TimerFires (run host es s1)) = reparse_card <$> line2 s1
  ∧ dragChars (step host TimerFires (run host es s1))
    = reparse_drag <$> dragChars s1
  ∧ round_setup (step host TimerFires (run host es s1)) = round_setup s1
  ∧ lastDragAction (step host TimerFires (run host es s1)) = None
  ∧ (∀ c, c ∈ blanks (step host TimerFires (run host es s1)) →
          empty_blank c ∧ data_filledChar c = None)
  ∧ (∀ d, d ∈ dragChars (step host TimerFires (run host es s1)) →
          available d = true)
  ∧ timers (step host TimerFires (run host es s1)) = n.
Proof.
  intros Hs Hes Hn.
  pose proof (startGame_generated _ _ _ Hs)
    as (Hgen & Hav & _ & _ & _ & _ & _ & _ & Ht).
  pose proof (round_setup_run host es s1 Hes) as Hsetup.
  assert (stateR (set_timers n (run host es s1)) = stateR s1) as Hr
    by (unfold round_setup in Hsetup; simpl; congruence).
  pose proof (restoreStateR_generated host s s1 _ Hs Hr)
    as (H1 & H2 & Hd & Ha & _ & _ & Hsetup' & Ht').
  cbn [step]. rewrite Hn. split_and!; try done.
  - by rewrite Hsetup'.
  - intros c [Hb Hc]%elem_of_blanks. apply generated_blank_is_empty; [|done].
    unfold cards in Hc. rewrite H1, H2, <- fmap_app in Hc.
    apply list_elem_of_fmap in Hc as (c0 & -> & Hc0).
    apply generated_reparse_card.
    rewrite Forall_forall in Hgen. by apply Hgen.
  - intros d Hin. rewrite Hd in Hin.
    apply list_elem_of_fmap in Hin as (d0 & -> & Hd0).
    rewrite Forall_forall in Hav.
    apply drag_char_available. destruct d0. cbn. by apply (Hav _ Hd0).
Qed.

Lemma pending_restore_survives_restart_witness :
  timers restart_round = timers failed
  ∧ line1 (step sample_browser TimerFires (run sample_browser new_fill restart_round))
    = reparse_card <$> line1 restart_round
  ∧ line2 (step sample_browser TimerFires (run sample_browser new_fill restart_round))
    = reparse_card <$> line2 restart_round
  ∧ dragChars (step sample_browser TimerFires
                 (run sample_browser new_fill restart_round))
    = reparse_drag <$> dragChars restart_round
  ∧ round_setup (step sample_browser TimerFires
                   (run sample_browser new_fill restart_round))
    = round_setup restart_round
  ∧ lastDragAction (step sample_browser TimerFires
                      (run sample_browser new_fill restart_round)) = None
  ∧ (∀ c, c ∈ blanks (step sample_browser TimerFires
                        (run sample_browser new_fill restart_round)) →
          empty_blank c ∧ data_filledChar c = None)
  ∧ (∀ d, d ∈ dragChars (step sample_browser TimerFires
                           (run sample_browser new_fill restart_round)) →
          available d = true)
  ∧ timers (step sample_browser TimerFires
              (run sample_browser new_fill restart_round)) = O.
Proof.
  apply (pending_restore_survives_restart sample_browser failed restart_round
           new_fill O).
  - vm_compute. reflexivity.
  - repeat constructor; discriminate.
  - vm_compute. reflexivity.
Defined.

(** C3, as stated, fails: after the Incorrect verdict of [failed] one
    restore is pending; the restart keeps it pending, and when it fires it
    empties the blank that was filled in the new Round. *)
Lemma pending_restore_changes_new_round :
  evaluate (run sample_browser (removelast wrong_fills) default_round) = Incomplete
  ∧ evaluate failed = Incorrect
  ∧ timers failed = 1%nat
  ∧ timers (step sample_browser RestartClick failed) = 1%nat
  ∧ assignment <$> get_card (InLine1 4) restarted
    = Some (false, [21253%N], Some "true", Some [21253%N])
  ∧ assignment <$> get_card (InLine1 4) (step sample_browser TimerFires restarted)
    = Some (true, [], Some "false", None)
  ∧ round_of (step sample_browser TimerFires restarted) ≠ round_of restarted.
Proof. vm_compute. split_and!; done. Qed.





(** C10 (amended).  A [drop] on an empty blank succeeds and records the
    dropped character whenever the selector built from its candidate id is
    accepted, as it is for every id without a quote, a backslash, a line
    break or a NUL.  When such an id names no candidate at all (no child
    of [#dragChars] has that drag index), no candidate is marked consumed,
    and a later undo of that fill empties the blank without restoring any
    candidate: the number of filled blanks grows by one while the number
    of consumed candidates stays, so the first can exceed the second.
    When the id names a candidate, also one that is consumed already, a
    later undo of that fill makes that candidate available again.  When
    the selector is not accepted, [querySelector] throws before anything
    is recorded: the blank stays empty and [lastDragAction] is as it
    was. *)
Theorem drop_on_empty_blank host s ref c char dragIndex :
  get_card ref s = Some c →
  dropZone c = true →
  data_filled c ≠ Some "true" →
  (selector_plain dragIndex = true →
   ∃ q, querySelector host dragIndex s = Element q)
  ∧ (∀ q, querySelector host dragIndex s = Element q →
       get_card ref (drop host ref char dragIndex s) = Some (fill_card char c)
       ∧ lastDragAction (drop host ref char dragIndex s)
         = Some (DragAction ref q char)
       ∧ filled_count (drop host ref char dragIndex s) = S (filled_count s)
       ∧ get_card ref (undoLastDrag (drop host ref char dragIndex s))
         = Some (empty_card c)
       ∧ (∀ k, q = LiveDrag k →
               ∃ d, dragChars (undoLastDrag (drop host ref char dragIndex s)) !! k
                    = Some d ∧ available d = true))
  ∧ (selector_plain dragIndex = true →
     (∀ d, d ∈ dragChars s → d_dragIndex d ≠ dragIndex) →
     querySelector host dragIndex s = Element NullDrag
     ∧ dragChars (drop host ref char dragIndex s) = dragChars s
     ∧ consumed_count (drop host ref char dragIndex s) = consumed_count s
     ∧ dragChars (undoLastDrag (drop host ref char dragIndex s)) = dragChars s)
  ∧ (querySelector host dragIndex s = SyntaxError →
     drop_completion host ref char dragIndex s = Throws
     ∧ get_card ref (drop host ref char dragIndex s)
       = Some (remove_class "drag-over" c)
     ∧ lastDragAction (drop host ref char dragIndex s) = lastDragAction s
     ∧ dragChars (drop host ref char dragIndex s) = dragChars s
     ∧ filled_count (drop host ref char dragIndex s) = filled_count s).
Proof.
  intros Hc Hd Hf.
  assert (∀ q, querySelector host dragIndex s = Element q →
     get_card ref (drop host ref char dragIndex s) = Some (fill_card char c)
     ∧ lastDragAction (drop host ref char dragIndex s)
       = Some (DragAction ref q char)
     ∧ filled_count (drop host ref char dragIndex s) = S (filled_count s)
     ∧ get_card ref (undoLastDrag (drop host ref char dragIndex s))
       = Some (empty_card c)
     ∧ dragChars (drop host ref char dragIndex s)
       = match q with
         | LiveDrag k => alter (d_add_class "hidden") k (dragChars s)
         | NullDrag | DetachedDrag => dragChars s
         end
     ∧ dragChars (undoLastDrag (drop host ref char dragIndex s))
       = match q with
         | LiveDrag k =>
           alter (d_remove_class "hidden") k
                 (dragChars (drop host ref char dragIndex s))
         | NullDrag | DetachedDrag => dragChars (drop host ref char dragIndex s)
         end) as Hacc.
  { intros q Hq.
    pose proof (drop_on_empty_fields host s ref c char dragIndex q Hc Hd Hf Hq)
      as (Hget & Hdrag & Hact & Hcount).
    pose proof (undoLastDrag_fields _ _ Hact) as (Hget' & Hdrag' & _).
    simpl in Hget', Hdrag'.
    split_and!; try done.
    - by rewrite Hget, bool_decide_eq_true_2.
    - by rewrite Hget', bool_decide_eq_true_2, Hget, bool_decide_eq_true_2. }
  split_and!.
  - apply querySelector_plain_Element.
  - intros q Hq. destruct (Hacc q Hq) as (H1 & H2 & H3 & H4 & H5 & H6).
    split_and!; try done.
    intros k ->. rewrite H6, H5.
    destruct (querySelector_Live host _ _ _ Hq) as (d & Hd' & _).
    exists (d_remove_class "hidden" (d_add_class "hidden" d)). split.
    + by rewrite !list_lookup_alter_eq, Hd'.
    + unfold available. simpl.
      by rewrite contains_classList_remove, bool_decide_eq_true_2, andb_false_r.
  - intros Hp Hno.
    pose proof (querySelector_Null host dragIndex s Hp Hno) as Hq.
    destruct (Hacc _ Hq) as (_ & _ & _ & _ & H5 & H6).
    split_and!; [done|done| |by rewrite H6, H5].
    unfold consumed_count. by rewrite H5.
  - intros Hq.
    pose proof (drop_selector_error host s ref c char dragIndex Hc Hd Hf Hq)
      as Hdrop.
    split_and!.
    + unfold drop_completion. rewrite Hc, Hd.
      rewrite bool_decide_eq_false_2 by done.
      by rewrite querySelector_update_card, Hq.
    + by rewrite Hdrop, get_card_update_card_eq, Hc.
    + rewrite Hdrop. by destruct ref.
    + rewrite Hdrop. by destruct ref.
    + rewrite Hdrop. apply filled_count_update_card.
      intros c'. rewrite Hc. intros [= <-]. by destruct c.
Qed.

Lemma drop_on_empty_blank_witness :
  filled_count (drop sample_browser (InLine1 2) [36935%N] "" default_round)
  = S (filled_count default_round)
  ∧ consumed_count (drop sample_browser (InLine1 2) [36935%N] "" default_round)
    = consumed_count default_round.
Proof.
  assert (∀ d, d ∈ dragChars default_round → d_dragIndex d ≠ "") as Hno.
  { apply Forall_forall.
    apply (bool_decide_unpack (Forall (λ d, d_dragIndex d ≠ "")
                                      (dragChars default_round))).
    vm_compute. exact I. }
  assert (selector_plain "" = true) as Hp by reflexivity.
  let o := eval vm_compute in (get_card (InLine1 2) default_round) in
  match o with
  | Some ?c =>
    assert (get_card (InLine1 2) default_round = Some c) as Hc
      by (vm_compute; reflexivity);
    assert (dropZone c = true) as Hd by (vm_compute; reflexivity);
    assert (data_filled c ≠ Some "true") as Hf by (vm_compute; by intros [=]);
    pose proof (drop_on_empty_blank sample_browser default_round (InLine1 2) c
                  [36935%N] "" Hc Hd Hf) as (_ & Hacc & Hnone & _)
  end.
  destruct (Hnone Hp Hno) as (Hq & _ & Hcons & _).
  destruct (Hacc _ Hq) as (_ & _ & Hfilled & _).
  exact (conj Hfilled Hcons).
Defined.

(** C10, as stated, fails: once [first_fill] has consumed candidate 0, the
    id ["0"] names no available candidate; a drop that carries it on the
    empty blank (0,4) succeeds, and undoing that drop makes candidate 0
    available again although the blank (0,2) still holds it. *)
Lemma undo_restores_consumed_candidate :
  filter (λ d, d_dragIndex d = "0" ∧ available d = true)
         (dragChars after_first_fill) = []
  ∧ assignment <$> get_card (InLine1 4) after_first_fill
    = Some (true, [], Some "false", None)
  ∧ assignment <$> get_card (InLine1 4) second_fill
    = Some (false, [29483%N], Some "true", Some [29483%N])
  ∧ available <$> dragChars second_fill !! 0%nat = Some false
  ∧ available <$> dragChars (undoLastDrag second_fill) !! 0%nat = Some true
  ∧ assignment <$> get_card (InLine1 2) (undoLastDrag second_fill)
    = Some (false, [36935%N], Some "true", Some [36935%N]).
Proof. vm_compute. split_and!; done. Qed.

(** C9 (evaluation at the failing input).  With [lineLength = 6] and a
    failed load the game falls back to the built-in section, whose lines
    have five characters; [startGame] then throws in [removeRandomChars]
    at the first chosen position of column 5: three cards have been
    blanked, no candidate has been rendered and no snapshot saved. *)
Theorem fallback_round_throws :
  sections start_6 = [default_section]
  ∧ ∃ s, startGame sample_browser start_6 = Thrown s
         ∧ blankPositions s = [Position 0 3; Position 0 1; Position 1 3]
         ∧ length (blanks s) = 3%nat
         ∧ dragChars s = []
         ∧ stateR s = None.
Proof. split; [done|]. eexists. vm_compute. split_and!; done. Qed.

(** * Further properties of the code *)

(** ** The page after a completed [startGame] *)

Lemma page_ok_generated host s s1 : startGame host s = Normal s1 → page_ok s1.
Proof.
  intros Hs.
  pose proof (startGame_generated _ _ _ Hs) as (Hgen & _ & Hsnap & Ha & _).
  split_and!.
  - eapply Forall_impl; [exact Hgen|]. apply generated_card_ok.
  - intros a c. by rewrite Ha.
  - intros r. rewrite Hsnap. intros [= <-]. simpl. rewrite <- fmap_app.
    apply Forall_fmap. eapply Forall_impl; [exact Hgen|]. apply generated_snap_ok.
Qed.

(** X1.  In every state the page can reach, every card has the class
    [char-card]; it is shown empty exactly when its [data-filled] is
    ["false"]; it carries the drop listeners exactly when it is a blank;
    a blank is either empty or filled, and a filled blank has its
    [data-filled-char]. *)
Theorem reachable_card_shape host s c :
  reachable host s →
  c ∈ cards s →
  contains "char-card" (className c) = true
  ∧ (is_empty_card c = true ↔ data_filled c = Some "false")
  ∧ (dropZone c = true ↔ is_blank c = true)
  ∧ (is_blank c = true →
     data_filled c = Some "false" ∨ data_filled c = Some "true")
  ∧ (data_filled c = Some "true" → is_Some (data_filledChar c)).
Proof.
  intros Hreach Hc.
  destruct (page_ok_reachable _ _ Hreach) as (Hok & _).
  rewrite Forall_forall in Hok. specialize (Hok c Hc).
  destruct (is_blank c) eqn:Hb.
  - destruct (card_ok_blank_cases c Hok Hb)
      as [[Hf He]|(Hf & He & Hcc & Hfc)];
      destruct Hok as [Hcc' Hshape]; rewrite Hf in Hshape;
      destruct Hshape as [Hd _]; rewrite Hf, He, Hd; split_and!; try done;
      auto; try (by split).
  - destruct (card_ok_not_blank c Hok Hb) as [Hf He].
    destruct Hok as [Hcc' Hshape]. rewrite Hf in Hshape.
    destruct Hshape as [_ Hd]. rewrite Hf, He, Hd. split_and!; try done.
Qed.

Lemma reachable_card_shape_witness :
  Forall (λ c,
          contains "char-card" (className c) = true
          ∧ (is_empty_card c = true ↔ data_filled c = Some "false")
          ∧ (dropZone c = true ↔ is_blank c = true)
          ∧ (is_blank c = true →
             data_filled c = Some "false" ∨ data_filled c = Some "true")
          ∧ (data_filled c = Some "true" → is_Some (data_filledChar c)))
         (cards solved).
Proof.
  apply Forall_forall. intros c.
  apply (reachable_card_shape sample_browser solved c).
  apply reachable_run. exact reachable_default_round.
Defined.

(** ** The undo button and the message box *)

Section Interface.
Variable host : browser.

Lemma ui_ok_checkCompletion s : ui_ok s → ui_ok (checkCompletion host s).
Proof.
  intros [Hundo Hmsg]. unfold checkCompletion.
  destruct (evaluate s); [done| |]; (split; [exact Hundo|]); simpl.
  - apply floor_mul_range. lia.
  - apply floor_mul_range. lia.
Qed.

Lemma ui_ok_ext s t :
  lastDragAction t = lastDragAction s → undoDisabled t = undoDisabled s →
  message t = message s → ui_ok s → ui_ok t.
Proof. unfold ui_ok. by intros -> -> ->. Qed.

Lemma ui_ok_update_card r f s : ui_ok s → ui_ok (update_card r f s).
Proof. apply ui_ok_ext; by destruct r. Qed.

Lemma ui_ok_update_source src f s : ui_ok s → ui_ok (update_source src f s).
Proof. apply ui_ok_ext; by destruct src. Qed.

Lemma ui_ok_undoLastDrag s : ui_ok s → ui_ok (undoLastDrag s).
Proof.
  intros Hok. unfold undoLastDrag.
  destruct (lastDragAction s) as [a|] eqn:Ha; [|exact Hok].
  destruct Hok as [_ Hmsg].
  split; [by intros [? [=]]|]. by destruct (a_dragChar a), (a_card a).
Qed.

Lemma ui_ok_filled ref q char s :
  ui_ok s →
  ui_ok (update_card ref (fill_card char)
           (updateUndoButtonState
              (set_lastDragAction (Some (DragAction ref q char)) s))).
Proof. intros [_ Hmsg]. split; by destruct ref. Qed.

Lemma ui_ok_drop ref char dragIndex s :
  ui_ok s → ui_ok (drop host ref char dragIndex s).
Proof.
  intros Hok. unfold drop, on_dropZone.
  destruct (get_card ref s) as [c|]; [|done]. destruct (dropZone c); [|done].
  case_bool_decide; [by apply ui_ok_update_card|].
  destruct (querySelector host _ _) as [q|]; [|by apply ui_ok_update_card].
  apply ui_ok_checkCompletion.
  assert (ui_ok (update_card ref (fill_card char)
            (updateUndoButtonState
               (set_lastDragAction (Some (DragAction ref q char))
                  (update_card ref (remove_class "drag-over") s))))) as H1
    by (by apply ui_ok_filled, ui_ok_update_card).
  destruct q; [done|by eapply ui_ok_ext; [..|exact H1]|done].
Qed.

Lemma ui_ok_clear_drag_over s : ui_ok s → ui_ok (clear_drag_over s).
Proof. by apply ui_ok_ext. Qed.

Lemma ui_ok_touchend src below s :
  ui_ok s → ui_ok (touchend host src below s).
Proof.
  intros Hok. unfold touchend.
  destruct (touch_char src s) as [char|]; [|done].
  apply ui_ok_clear_drag_over.
  pose proof (ui_ok_update_source src (d_remove_class "dragging") s Hok) as H1.
  destruct below as [ref|]; [|done].
  destruct (get_card ref _) as [c|]; [|done].
  destruct (_ && _); [|done].
  apply ui_ok_checkCompletion, ui_ok_update_source, ui_ok_update_card.
  by apply ui_ok_filled.
Qed.

Lemma ui_ok_touchmove clone below s :
  ui_ok s → ui_ok (touchmove clone below s).
Proof.
  destruct clone; [|done].
  intros Hok%ui_ok_clear_drag_over. unfold touchmove. cbn [negb].
  destruct below as [ref|]; [|done].
  destruct (get_card ref _) as [c|]; [|done].
  destruct (contains _ _); [|done]. by apply ui_ok_update_card.
Qed.

Lemma startGame_clears_action s :
  lastDragAction (state_of (startGame host s)) = None
  ∧ (message (state_of (startGame host s)) = message s
     ∨ message (state_of (startGame host s)) = NoMessage).
Proof.
  unfold startGame.
  pose proof (selectRandomLines_frame host (set_lastDragAction None s)) as Hf.
  cbv zeta in Hf. simpl in Hf.
  destruct Hf as (_ & _ & _ & Ha & _ & _ & _ & _ & _ & Hm & _).
  destruct (selectRandomLines host _) as [sa|sa]; cbn [bind state_of] in *;
    [|by auto].
  pose proof (renderPoem_any sa) as (_ & Ha' & _).
  assert (message (state_of (renderPoem sa)) = message sa) as Hm'.
  { unfold renderPoem.
    destruct sa as [? [[l0|] [l1|]] ? ? ? ? ? ? ? ? ? ? ? ?]; done. }
  destruct (renderPoem sa) as [sb|sb]; cbn [bind state_of] in *;
    [|split; [congruence|left; congruence]].
  pose proof (removeRandomChars_any host (λ _, True) sb) as (_ & Ha'' & _).
  destruct (removeRandomChars host sb) as [sc|sc] eqn:Hc; cbn [bind state_of] in *.
  - split; [|by right]. simpl. congruence.
  - split; [congruence|]. left.
    rewrite removeRandomChars_unfold in Hc.
    match type of Hc with context [forEach remove_at ?ps ?t] =>
      pose proof (forEach_remove_at_frame ps t) as Hfr;
      destruct (forEach remove_at ps t) as [sd|sd]; [done|]
    end.
    cbv zeta in Hfr. cbn [bind state_of] in *. injection Hc as <-.
    destruct Hfr as (_ & _ & _ & _ & _ & _ & _ & -> & _). simpl. congruence.
Qed.

Lemma ui_ok_step e s : ui_ok s → ui_ok (step host e s).
Proof.
  intros Hok. destruct e; simpl.
  - destruct (startGame_clears_action s) as [Ha Hm]. split.
    + rewrite Ha. by intros [? [=]].
    + destruct Hm as [-> | ->]; [apply Hok|done].
  - by apply ui_ok_undoLastDrag.
  - unfold dragover, on_dropZone. destruct (get_card ref s) as [c|]; [|done].
    destruct (dropZone c); [by apply ui_ok_update_card|done].
  - unfold dragleave, on_dropZone. destruct (get_card ref s) as [c|]; [|done].
    destruct (dropZone c); [by apply ui_ok_update_card|done].
  - by apply ui_ok_drop.
  - done.
  - done.
  - done.
  - by apply ui_ok_touchmove.
  - by apply ui_ok_touchend.
  - destruct (timers s) as [|n]; [done|]. unfold restoreStateR. simpl.
    destruct (stateR s); [|done]. split; [by intros [? [=]]|done].
Qed.

Lemma ui_ok_reachable s : reachable host s → ui_ok s.
Proof.
  induction 1 as [cfg response|e s _ IH]; [|by apply ui_ok_step].
  unfold init. destruct (startGame_clears_action (loadPoems response (constructor cfg)))
    as [Ha Hm]. split.
  - rewrite Ha. by intros [? [=]].
  - destruct Hm as [-> | ->]; [by destruct response|done].
Qed.
End Interface.

(** X2.  In every state the page can reach, the undo button is enabled
    whenever there is a drag to take back. *)
Theorem undo_button_enabled host s :
  reachable host s → is_Some (lastDragAction s) → undoDisabled s = false.
Proof. intros Hreach. by apply ui_ok_reachable in Hreach as [? _]. Qed.

Lemma undo_button_enabled_witness : undoDisabled after_first_fill = false.
Proof.
  apply (undo_button_enabled sample_browser after_first_fill).
  - apply reachable_run. exact reachable_default_round.
  - vm_compute. eauto.
Defined.

(** X3.  In every state the page can reach, the message box is empty or
    shows one of the listed messages: the index drawn by [showSuccess] is
    one of its five, the index drawn by [showError] one of its four. *)
Theorem message_index_in_range host s : reachable host s → message_ok (message s).
Proof. intros Hreach. by apply ui_ok_reachable in Hreach as [_ ?]. Qed.

Lemma message_index_in_range_witness : message_ok (message failed).
Proof.
  apply (message_index_in_range sample_browser failed).
  apply reachable_run. exact reachable_default_round.
Defined.

(** ** The blanks of a round *)

Lemma card_of_inj p q :
  (p_line p < 2)%nat → (p_line q < 2)%nat → card_of p = card_of q → p = q.
Proof.
  destruct p as [[|[|lp]] ip], q as [[|[|lq]] iq]; unfold card_of; simpl;
    intros; try lia; by simplify_eq.
Qed.

Lemma filter_none {A} (P : A → Prop) `{!∀ x, Decision (P x)} (l : list A) :
  Forall (λ x, ¬ P x) l → filter P l = [].
Proof.
  induction 1 as [|x l Hx _ IH]; [done|]. by rewrite filter_cons, decide_False.
Qed.

Lemma length_blanks_update_card s ref c f :
  get_card ref s = Some c → is_blank c = false → is_blank (f c) = true →
  length (blanks (update_card ref f s)) = S (length (blanks s)).
Proof.
  intros Hc Hb Hfb. unfold blanks, cards.
  destruct ref; simpl in *; rewrite !filter_app, !length_app;
    erewrite length_filter_alter; try done; try lia; by rewrite Hb.
Qed.

Lemma forEach_remove_at_count ps s s' :
  forEach remove_at ps s = Normal s' →
  NoDup (card_of <$> ps) →
  (∀ p c, p ∈ ps → get_card (card_of p) s = Some c → is_blank c = false) →
  length (blanks s') = (length (blanks s) + length ps)%nat.
Proof.
  revert s. induction ps as [|p ps IH]; intros s; cbn [forEach].
  - intros [= <-] _ _. simpl. lia.
  - destruct (remove_at p s) as [t|t] eqn:Hp; cbn [bind]; [|done].
    intros H Hnd Hfresh. rewrite fmap_cons in Hnd.
    apply NoDup_cons in Hnd as [Hnotin Hnd].
    apply remove_at_Normal in Hp as (c & Hc & ->).
    rewrite (IH _ H Hnd).
    + assert (length (blanks (update_card (card_of p) blank_card
                (set_removedChars
                   (removedChars s ++
                    [Removed (data_char c) (p_line p) (p_index p)
                             (line_at s (p_line p))]) s)))
              = S (length (blanks s))) as ->; [|simpl; lia].
      rewrite (length_blanks_update_card _ _ c).
      * done.
      * by destruct (card_of p).
      * apply (Hfresh p); [apply list_elem_of_here|done].
      * done.
    + intros q d Hq. rewrite get_card_update_card_ne.
      * assert (∀ u, get_card (card_of q) (set_removedChars u s)
                     = get_card (card_of q) s) as ->
          by (intros; by destruct (card_of q)).
        apply Hfresh. by apply list_elem_of_further.
      * intros Heq. apply Hnotin. rewrite <- Heq.
        apply list_elem_of_fmap. by exists q.
Qed.

Lemma startGame_blank_count host s s1 :
  startGame host s = Normal s1 →
  length (blanks s1) = length (blankPositions s1).
Proof.
  intros Hs.
  destruct (startGame_Normal _ _ _ Hs) as (sa & sb & sc & Ha & Hb & Hc & ->).
  pose proof (removeRandomChars_blankPositions _ _ _ Hc) as Hbp.
  pose proof (renderPoem_fresh _ _ Hb) as Hfresh.
  apply removeRandomChars_Normal in Hc as (sd & Hd & ->).
  change (length (blanks sd) = length (blankPositions sd)).
  change (blankPositions sd = slice0
            (shuffle host (allPositions (lineLength sb)) (rpos sb)).1
            (removeCount sb)) in Hbp.
  assert (∀ c, c ∈ cards sb → is_blank c = false) as Hnb.
  { intros c Hin. rewrite Forall_forall in Hfresh.
    destruct (Hfresh c Hin) as (_ & Hf & _). unfold is_blank. rewrite Hf.
    apply bool_decide_eq_false. by intros [? ?]. }
  assert (NoDup (card_of <$> slice0
            (shuffle host (allPositions (lineLength sb)) (rpos sb)).1
            (removeCount sb))) as Hnd.
  { apply NoDup_fmap_2_strong.
    - intros p q Hp Hq. apply card_of_inj.
      + eapply elem_of_sublist in Hp; [|apply slice0_sublist].
        rewrite shuffle_Permutation in Hp.
        by apply elem_of_allPositions in Hp as [? _].
      + eapply elem_of_sublist in Hq; [|apply slice0_sublist].
        rewrite shuffle_Permutation in Hq.
        by apply elem_of_allPositions in Hq as [? _].
    - eapply sublist_NoDup; [|apply slice0_sublist].
      rewrite shuffle_Permutation. apply NoDup_allPositions. }
  assert (blanks (set_rpos (shuffle host (allPositions (lineLength sb)) (rpos sb)).2
                    (set_removedChars [] sb)) = []) as Hnone.
  { unfold blanks.
    change (cards (set_rpos _ (set_removedChars _ sb))) with (cards sb).
    apply filter_none. apply Forall_forall. intros c Hin. by rewrite (Hnb c). }
  pose proof (forEach_remove_at_count _ _ _ Hd Hnd) as Hcount.
  rewrite Hnone in Hcount. rewrite Hbp. apply Hcount.
  intros p c _ Hpc. apply Hnb. eapply get_card_elem_of.
  assert (∀ n u, get_card (card_of p) (set_rpos n (set_removedChars u sb))
                 = get_card (card_of p) sb) as Hg
    by (intros; by destruct (card_of p)).
  rewrite Hg in Hpc. exact Hpc.
Qed.

(** X5.  Within a round the blank layout is fixed: whatever is filled,
    undone, dragged or restored after a completed [startGame], every card
    keeps its place and its being a blank or not, and keeps its original
    character and line text as the parser reads them from markup (a
    restore puts a line feed for a carriage return); as long as no restore
    fires it keeps them exactly.  The number of blanks on the page stays
    the number of removed positions, which is [removeCount] whenever
    [0 <= removeCount <= 2 L]. *)
Theorem blank_layout_fixed host s s1 es :
  startGame host s = Normal s1 →
  Forall in_round es →
  lines_markup_layout (run host es s1) = lines_markup_layout s1
  ∧ (Forall no_timer es → lines_layout (run host es s1) = lines_layout s1)
  ∧ blankPositions (run host es s1) = blankPositions s1
  ∧ length (blanks (run host es s1)) = length (blankPositions s1)
  ∧ (0 ≤ removeCount s1 ≤ 2 * lineLength s1 →
     Z.of_nat (length (blanks (run host es s1))) = removeCount (run host es s1)).
Proof.
  intros Hs Hes.
  pose proof (round_markup_layout_run host s s1 es Hs Hes
                (page_ok_generated _ _ _ Hs))
    as (_ & Hsetup & Hlay).
  pose proof (startGame_blank_count _ _ _ Hs) as Hcount.
  assert (length (blanks (run host es s1)) = length (blankPositions s1)) as Hlen
    by (by rewrite (length_blanks_markup_layout _ _ Hlay)).
  unfold round_setup in Hsetup.
  split_and!; [done| |unfold blankPositions; congruence|done|].
  - intros Hnt.
    by destruct (round_layout_run host s s1 es Hs Hes Hnt
                   (page_ok_generated _ _ _ Hs)) as (_ & _ & ?).
  - intros Hrc. rewrite Hlen.
    destruct (blank_positions_of_startGame _ _ _ Hs) as [rp Hbp].
    rewrite Hbp, length_slice0,
      (Permutation_length (shuffle_Permutation host _ rp)), length_allPositions.
    assert (removeCount (run host es s1) = removeCount s1) as -> by congruence.
    case_bool_decide; lia.
Qed.

Lemma blank_layout_fixed_witness :
  lines_markup_layout (run sample_browser (wrong_fills ++ [TimerFires]) default_round)
  = lines_markup_layout default_round
  ∧ (Forall no_timer (wrong_fills ++ [TimerFires]) →
     lines_layout (run sample_browser (wrong_fills ++ [TimerFires]) default_round)
     = lines_layout default_round)
  ∧ blankPositions (run sample_browser (wrong_fills ++ [TimerFires]) default_round)
    = blankPositions default_round
  ∧ length (blanks (run sample_browser (wrong_fills ++ [TimerFires]) default_round))
    = length (blankPositions default_round)
  ∧ (0 ≤ removeCount default_round ≤ 2 * lineLength default_round →
     Z.of_nat (length (blanks (run sample_browser (wrong_fills ++ [TimerFires])
                                   default_round)))
     = removeCount (run sample_browser (wrong_fills ++ [TimerFires])
                        default_round)).
Proof.
  apply (blank_layout_fixed sample_browser default_start default_round
           (wrong_fills ++ [TimerFires])).
  - vm_compute. reflexivity.
  - repeat constructor; discriminate.
Defined.

(** ** What [startGame] renders *)

Lemma toString_inj : Inj (=) (=) toString.
Proof.
  intros m n H. unfold toString in H.
  apply (f_equal NilEmpty.uint_of_string) in H. rewrite !NilEmpty.usu in H.
  injection H as H. apply (f_equal Nat.of_uint) in H.
  by rewrite !Unsigned.of_to in H.
Qed.

Lemma forEach_remove_at_removed ps s s' :
  forEach remove_at ps s = Normal s' →
  Forall (removed_ok s) (removedChars s) → Forall (removed_ok s') (removedChars s').
Proof.
  revert s. induction ps as [|p ps IH]; intros s; cbn [forEach].
  - by intros [= <-].
  - destruct (remove_at p s) as [t|t] eqn:Hp; cbn [bind]; [|done].
    intros H Hs. apply (IH _ H). clear IH H.
    apply remove_at_Normal in Hp as (c & Hc & ->).
    assert (∀ q f u, line_at (update_card q f (set_removedChars u s)) =
                     line_at s) as Hline by (intros; by destruct q).
    assert (∀ q u, get_card q (set_removedChars u s) = get_card q s) as Hget
      by (intros; by destruct q).
    assert (∀ u, removedChars (update_card (card_of p) blank_card
                                 (set_removedChars u s)) = u) as ->
      by (intros; by destruct (card_of p)).
    apply Forall_app. split.
    + eapply Forall_impl; [exact Hs|]. intros r [Hr1 Hr2].
      split; [|by rewrite Hline].
      rewrite get_card_update_card, Hget. case_bool_decide; [|done].
      rewrite <- Hr1.
      by destruct (get_card (card_of (Position (r_line r) (r_index r))) s).
    + apply Forall_singleton. split; [|by rewrite Hline]. simpl.
      destruct p as [ln ix]. simpl.
      by rewrite get_card_update_card_eq, Hget, Hc.
Qed.

Section Rendered.
Variable host : browser.

(** The stages of a completed [startGame]. *)
Lemma startGame_stages s s1 :
  startGame host s = Normal s1 →
  ∃ sa sb sd l0 l1 ps sh,
    currentLines sa = (Some l0, Some l1)
    ∧ sb = set_line2 (imap (λ i c, createCharCard sa [c] 1 i) l1)
             (set_line1 (imap (λ i c, createCharCard sa [c] 0 i) l0) sa)
    ∧ (∃ n, forEach remove_at ps (set_rpos n (set_removedChars [] sb)) = Normal sd)
    ∧ sh ≡ₚ removedChars sd
    ∧ (∃ n, s1 = updateUndoButtonState
                   (clearMessage (saveStateR (renderDragChars sh (set_rpos n sd))))).
Proof.
  intros (sa & sb & sc & Ha & Hb & Hc & ->)%startGame_Normal.
  apply renderPoem_Normal in Hb as (l0 & l1 & Hlines & Hsb).
  apply removeRandomChars_Normal in Hc as (sd & Hd & ->).
  exists sa, sb, sd, l0, l1.
  exists (slice0 (shuffle host (allPositions (lineLength sb)) (rpos sb)).1
                 (removeCount sb)),
         (shuffle host (removedChars sd) (rpos sd)).1.
  split_and!; try done.
  - by eexists.
  - apply shuffle_Permutation.
  - by eexists.
Qed.
Lemma startGame_cards s s1 :
  startGame host s = Normal s1 →
  ∃ l0 l1,
    currentLines s1 = (Some l0, Some l1)
    ∧ length (line1 s1) = length l0 ∧ length (line2 s1) = length l1
    ∧ (∀ i c, line1 s1 !! i = Some c → card_shows l0 0 i c)
    ∧ (∀ i c, line2 s1 !! i = Some c → card_shows l1 1 i c)
    ∧ Forall (removed_ok s1) (removedChars s1).
Proof.
  intros (sa & sb & sd & l0 & l1 & ps & sh & Hlines & Hsb & [n Hd] & Hsh & [m ->])
    %startGame_stages.
  pose proof (forEach_remove_at_frame ps (set_rpos n (set_removedChars [] sb)))
    as Hf.
  rewrite Hd in Hf. cbv zeta in Hf. simpl in Hf.
  destruct Hf as (_ & Hcl & _ & _ & _ & _ & _ & _ & _ & _ & _ & Hl1 & Hl2).
  assert (currentLines sd = (Some l0, Some l1)) as Hcur
    by (rewrite Hcl, Hsb; exact Hlines).
  assert (∀ r c, get_card r sd = Some c →
                 ∃ c0, get_card r sb = Some c0
                       ∧ (c = c0 ∨ (c = blank_card c0 ∧ is_blank c = true)))
    as Hcards.
  { intros r c. rewrite (forEach_remove_at_get_card _ _ _ r Hd).
    assert (get_card r (set_rpos n (set_removedChars [] sb)) = get_card r sb)
      as -> by (by destruct r).
    destruct (get_card r sb) as [c0|]; [|by case_bool_decide].
    case_bool_decide; intros [= <-]; exists c0; split; auto. }
  exists l0, l1. split_and!.
  - exact Hcur.
  - simpl. rewrite Hl1, Hsb. simpl. apply length_imap.
  - simpl. rewrite Hl2, Hsb. simpl. apply length_imap.
  - intros i c Hc. destruct (Hcards (InLine1 i) c Hc) as (c0 & Hc0 & Hcc).
    rewrite Hsb in Hc0. simpl in Hc0.
    apply list_lookup_imap_Some in Hc0 as (u & Hu & ->).
    exists u. unfold createCharCard, line_at in *. rewrite Hlines in *.
    destruct Hcc as [-> |[-> Hb]]; simpl; split_and!; try done.
  - intros i c Hc. destruct (Hcards (InLine2 i) c Hc) as (c0 & Hc0 & Hcc).
    rewrite Hsb in Hc0. simpl in Hc0.
    apply list_lookup_imap_Some in Hc0 as (u & Hu & ->).
    exists u. unfold createCharCard, line_at in *. rewrite Hlines in *.
    destruct Hcc as [-> |[-> Hb]]; simpl; split_and!; try done.
  - apply forEach_remove_at_removed in Hd; [|by apply Forall_nil].
    eapply Forall_impl; [exact Hd|]. intros r [Hr1 Hr2]. split.
    + rewrite <- Hr1. by destruct (card_of _).
    + exact Hr2.
Qed.
End Rendered.

(** X6.  After a completed [startGame] the two containers mirror the two
    selected lines: each has one card per code unit of its line, and the
    card at column [i] carries that unit as [data-char], the whole line as
    [data-line-text] and its own place, and shows the unit unless the card
    was blanked. *)
Theorem rendered_cards_mirror_lines host s s1 :
  startGame host s = Normal s1 →
  ∃ l0 l1,
    currentLines s1 = (Some l0, Some l1)
    ∧ length (line1 s1) = length l0 ∧ length (line2 s1) = length l1
    ∧ (∀ i c, line1 s1 !! i = Some c → card_shows l0 0 i c)
    ∧ (∀ i c, line2 s1 !! i = Some c → card_shows l1 1 i c).
Proof.
  intros Hs.
  destruct (startGame_cards host s s1 Hs) as (l0 & l1 & H1 & H2 & H3 & H4 & H5 & _).
  by exists l0, l1.
Qed.

Lemma rendered_cards_mirror_lines_witness :
  ∃ l0 l1,
    currentLines default_round = (Some l0, Some l1)
    ∧ length (line1 default_round) = length l0
    ∧ length (line2 default_round) = length l1
    ∧ (∀ i c, line1 default_round !! i = Some c → card_shows l0 0 i c)
    ∧ (∀ i c, line2 default_round !! i = Some c → card_shows l1 1 i c).
Proof.
  apply (rendered_cards_mirror_lines sample_browser default_start default_round).
  vm_compute. reflexivity.
Defined.

Lemma startGame_dragChars host s s1 :
  startGame host s = Normal s1 →
  ∃ sh, sh ≡ₚ removedChars s1
        ∧ dragChars s1
          = imap (λ index charInfo,
                  DragEl ["drag-char"] (r_char charInfo) true (r_char charInfo)
                         (toString index)
                         (default undefined_text (r_lineText charInfo)))
                 sh.
Proof.
  intros (sa & sb & sd & l0 & l1 & ps & sh & _ & _ & _ & Hsh & [m ->])
    %startGame_stages.
  by exists sh.
Qed.

(** ** Saving and restoring the snapshot *)

Lemma markup_stable_unit l i u :
  markup_stable l → l !! i = Some u → markup_stable [u].
Proof.
  intros [H13 H0] Hu. apply list_elem_of_lookup_2 in Hu.
  split; intros Hin%list_elem_of_singleton; [apply H13|apply H0];
    by rewrite Hin.
Qed.

Lemma markup_stable_undefined_text : markup_stable undefined_text.
Proof.
  split; apply (bool_decide_unpack (_ ∉ undefined_text)); vm_compute; exact I.
Qed.

Lemma reparse_card_stable c :
  markup_stable (data_char c) → markup_stable (data_lineText c) →
  markup_stable (textContent c) → data_filledChar c = None →
  reparse_card c = c.
Proof.
  intros H1 H2 H3 H4. destruct c. unfold reparse_card.
  cbn -[parse_text parse_attr] in *.
  rewrite parse_text_stable, !parse_attr_stable by done. by subst.
Qed.

Lemma reparse_drag_stable d :
  markup_stable (d_char d) → markup_stable (d_lineText d) →
  markup_stable (d_textContent d) → reparse_drag d = d.
Proof.
  intros H1 H2 H3. destruct d. unfold reparse_drag.
  cbn -[parse_text parse_attr] in *.
  by rewrite parse_text_stable, !parse_attr_stable by done.
Qed.

Lemma markup_stable_nil : markup_stable [].
Proof. split; apply not_elem_of_nil. Qed.

(** The page generated from two lines without a carriage return or a NUL
    is read back from its markup as it is. *)
Lemma generated_page_stable host s s1 l0 l1 :
  startGame host s = Normal s1 →
  currentLines s1 = (Some l0, Some l1) →
  markup_stable l0 → markup_stable l1 →
  reparse_card <$> line1 s1 = line1 s1
  ∧ reparse_card <$> line2 s1 = line2 s1
  ∧ reparse_drag <$> dragChars s1 = dragChars s1.
Proof.
  intros Hs Hlines Hl0 Hl1.
  pose proof (startGame_generated _ _ _ Hs) as (Hgen & _).
  destruct (startGame_cards host s s1 Hs)
    as (l0' & l1' & Hlines' & _ & _ & Hc1 & Hc2 & Hrem).
  rewrite Hlines in Hlines'. injection Hlines' as <- <-.
  rewrite Forall_forall in Hgen.
  assert (∀ l ln i c, markup_stable l → card_shows l ln i c → c ∈ cards s1 →
                      reparse_card c = c) as Hcard.
  { intros l ln i c Hl (u & Hu & Hdc & Hdl & _ & _ & Hshow) Hin.
    pose proof (markup_stable_unit l i u Hl Hu) as Hsu.
    destruct (Hgen c Hin) as [(_ & Hf & Hfc & _)|(_ & Ht & _ & Hfc & _)].
    - apply reparse_card_stable; rewrite ?Hdc, ?Hdl; try done.
      destruct Hshow as [-> _]; [|done].
      unfold is_blank. rewrite Hf. apply bool_decide_eq_false_2. by intros [? ?].
    - apply reparse_card_stable; rewrite ?Hdc, ?Hdl, ?Ht; try done.
      apply markup_stable_nil. }
  assert (∀ l : list card, (∀ i c, l !! i = Some c → reparse_card c = c) →
                           reparse_card <$> l = l) as Hmap.
  { intros l Hl. rewrite <- (list_fmap_id l) at 2. apply list_fmap_ext.
    intros i c Hc. by apply (Hl i). }
  split_and!.
  - apply Hmap. intros i c Hc. eapply (Hcard l0 0%nat i); [done|by apply Hc1|].
    unfold cards. apply elem_of_app. left. by eapply list_elem_of_lookup_2.
  - apply Hmap. intros i c Hc. eapply (Hcard l1 1%nat i); [done|by apply Hc2|].
    unfold cards. apply elem_of_app. right. by eapply list_elem_of_lookup_2.
  - destruct (startGame_dragChars host s s1 Hs) as (sh & Hperm & ->).
    rewrite <- (list_fmap_id (imap _ sh)) at 2. apply list_fmap_ext.
    intros k d. rewrite list_lookup_imap_Some. intros (r & Hr & ->).
    assert (r ∈ removedChars s1) as Hin.
    { rewrite <- Hperm. by eapply list_elem_of_lookup_2. }
    rewrite Forall_forall in Hrem. destruct (Hrem r Hin) as [Hch Hlt].
    assert (markup_stable (r_char r)) as Hsc.
    { destruct (get_card _ s1) as [c|] eqn:Hc; [|done].
      injection Hch as Hch. rewrite <- Hch.
      unfold card_of in Hc. cbn [p_line p_index] in Hc.
      case_bool_decide as Hln; cbn [get_card] in Hc.
      - destruct (Hc1 _ _ Hc) as (u & Hu & Hdc & _). rewrite Hdc.
        exact (markup_stable_unit l0 _ u Hl0 Hu).
      - destruct (Hc2 _ _ Hc) as (u & Hu & Hdc & _). rewrite Hdc.
        exact (markup_stable_unit l1 _ u Hl1 Hu). }
    assert (markup_stable (default undefined_text (r_lineText r))) as Hsl.
    { rewrite Hlt. unfold line_at. rewrite Hlines.
      destruct (r_line r) as [|[|n]]; cbn; try done.
      apply markup_stable_undefined_text. }
    by apply reparse_drag_stable.
Qed.

(** X4.  The snapshot round trip: right after a completed [startGame],
    [restoreStateR] gives back the same state with every card and every
    candidate read back from the markup saved by [saveStateR]: a carriage
    return has become a line feed, a NUL is gone from a text and replaced
    in an attribute.  When the two lines hold neither, it gives back the
    very same state.  On any state, restoring twice is the same as
    restoring once. *)
Theorem restoreStateR_round_trip host s s1 t :
  startGame host s = Normal s1 →
  restoreStateR s1
  = set_dragChars (reparse_drag <$> dragChars s1)
      (set_line2 (reparse_card <$> line2 s1)
         (set_line1 (reparse_card <$> line1 s1) s1))
  ∧ (∀ l0 l1, currentLines s1 = (Some l0, Some l1) →
              markup_stable l0 → markup_stable l1 → restoreStateR s1 = s1)
  ∧ restoreStateR (restoreStateR t) = restoreStateR t.
Proof.
  intros Hs.
  assert (restoreStateR s1
          = set_dragChars (reparse_drag <$> dragChars s1)
              (set_line2 (reparse_card <$> line2 s1)
                 (set_line1 (reparse_card <$> line1 s1) s1))) as Hrestore.
  { pose proof (startGame_generated _ _ _ Hs)
      as (Hgen & _ & Hsnap & Ha & Hm & _).
    apply Forall_app in Hgen as [Hg1 Hg2].
    assert (undoDisabled s1 = true) as Hu.
    { destruct (startGame_Normal _ _ _ Hs) as (sa & sb & sc & _ & _ & _ & ->).
      simpl in Ha |- *. by rewrite Ha. }
    unfold restoreStateR. rewrite Hsnap. unfold rebindEvents. simpl.
    rewrite !rebind_reparse_generated by done.
    destruct s1. simpl in *. by subst. }
  split_and!.
  - exact Hrestore.
  - intros l0 l1 Hlines Hl0 Hl1. rewrite Hrestore.
    destruct (generated_page_stable host s s1 l0 l1 Hs Hlines Hl0 Hl1)
      as (-> & -> & ->).
    by destruct s1.
  - destruct t as [? ? ? [r|] ? ? ? ? ? ? ? ? ? ?]; reflexivity.
Qed.

Lemma restoreStateR_round_trip_witness :
  restoreStateR default_round
  = set_dragChars (reparse_drag <$> dragChars default_round)
      (set_line2 (reparse_card <$> line2 default_round)
         (set_line1 (reparse_card <$> line1 default_round) default_round))
  ∧ (∀ l0 l1, currentLines default_round = (Some l0, Some l1) →
              markup_stable l0 → markup_stable l1 →
              restoreStateR default_round = default_round)
  ∧ restoreStateR (restoreStateR failed) = restoreStateR failed.
Proof.
  apply (restoreStateR_round_trip sample_browser default_start default_round failed).
  vm_compute. reflexivity.
Defined.

(** X7.  After a completed [startGame] the candidates are the removed
    characters in another order: the candidates' characters, each with
    its line text, are a permutation of the removed records'; every
    removed record holds the code unit its line has at its position,
    together with that line; and every candidate starts out displayed
    and available. *)
Theorem candidates_are_removed_chars host s s1 :
  startGame host s = Normal s1 →
  (λ d, (d_char d, d_lineText d)) <$> dragChars s1
  ≡ₚ (λ r, (r_char r, default undefined_text (r_lineText r))) <$> removedChars s1
  ∧ length (dragChars s1) = length (blankPositions s1)
  ∧ (∀ r, r ∈ removedChars s1 →
          ∃ line u, line_at s1 (r_line r) = Some line
                    ∧ line !! r_index r = Some u
                    ∧ r_char r = [u] ∧ r_lineText r = Some line)
  ∧ (∀ d, d ∈ dragChars s1 →
          d_textContent d = d_char d ∧ available d = true).
Proof.
  intros Hs.
  destruct (startGame_dragChars _ _ _ Hs) as (sh & Hsh & Hdrag).
  destruct (startGame_cards host s s1 Hs)
    as (l0 & l1 & Hlines & _ & _ & Hc1 & Hc2 & Hrem).
  split_and!.
  - rewrite Hdrag, fmap_imap, <- Hsh. by rewrite <- imap_const.
  - rewrite Hdrag, length_imap, (Permutation_length Hsh).
    unfold blankPositions. by rewrite length_fmap.
  - intros r Hr. rewrite Forall_forall in Hrem.
    destruct (Hrem r Hr) as [Hr1 Hr2].
    assert (Position (r_line r) (r_index r) ∈ blankPositions s1) as Hpos
      by (apply list_elem_of_fmap; by exists r).
    destruct (blank_positions_of_startGame _ _ _ Hs) as [rp Hbp].
    rewrite Hbp in Hpos. eapply elem_of_sublist in Hpos; [|apply slice0_sublist].
    rewrite shuffle_Permutation in Hpos.
    apply elem_of_allPositions in Hpos as [Hln _]. simpl in Hln.
    unfold line_at in *. rewrite Hlines in *. unfold card_of in Hr1. simpl in *.
    destruct (r_line r) as [|[|ln]]; [| |lia]; simpl in *.
    + destruct (line1 s1 !! r_index r) as [c|] eqn:Hc; [|done].
      destruct (Hc1 _ _ Hc) as (u & Hu & Hdc & _). injection Hr1 as Hr1.
      exists l0, u. split_and!; congruence.
    + destruct (line2 s1 !! r_index r) as [c|] eqn:Hc; [|done].
      destruct (Hc2 _ _ Hc) as (u & Hu & Hdc & _). injection Hr1 as Hr1.
      exists l1, u. split_and!; congruence.
  - intros d Hd. rewrite Hdrag in Hd.
    apply list_elem_of_lookup_1 in Hd as [k Hk].
    by apply list_lookup_imap_Some in Hk as (r & _ & ->).
Qed.

Lemma candidates_are_removed_chars_witness :
  (λ d, (d_char d, d_lineText d)) <$> dragChars default_round
  ≡ₚ (λ r, (r_char r, default undefined_text (r_lineText r)))
       <$> removedChars default_round
  ∧ length (dragChars default_round) = length (blankPositions default_round)
  ∧ (∀ r, r ∈ removedChars default_round →
          ∃ line u, line_at default_round (r_line r) = Some line
                    ∧ line !! r_index r = Some u
                    ∧ r_char r = [u] ∧ r_lineText r = Some line)
  ∧ (∀ d, d ∈ dragChars default_round →
          d_textContent d = d_char d ∧ available d = true).
Proof.
  apply (candidates_are_removed_chars sample_browser default_start default_round).
  vm_compute. reflexivity.
Defined.

Lemma selector_plain_toString k : selector_plain (toString k) = true.
Proof.
  unfold toString. generalize (Nat.to_uint k). intros d.
  unfold selector_plain.
  induction d as [|d IH|d IH|d IH|d IH|d IH|d IH|d IH|d IH|d IH|d IH];
    [reflexivity|..];
    cbn [NilEmpty.string_of_uint list_ascii_of_string forallb];
    rewrite IH; vm_compute; reflexivity.
Qed.

(** X8.  After a completed [startGame] the drag index written on a
    candidate finds it again: candidate [k] carries the decimal text of
    [k], the selector built from that text finds candidate [k] and no
    other, and a plain text (one without a quote, a backslash, a line
    break or a NUL) that is no candidate's index finds nothing. *)
Theorem drag_index_finds_candidate host s s1 :
  startGame host s = Normal s1 →
  (∀ k d, dragChars s1 !! k = Some d →
          d_dragIndex d = toString k
          ∧ querySelector host (toString k) s1 = Element (LiveDrag k))
  ∧ (∀ dragIndex,
       selector_plain dragIndex = true →
       (∀ k, (k < length (dragChars s1))%nat → dragIndex ≠ toString k) →
       querySelector host dragIndex s1 = Element NullDrag).
Proof.
  intros Hs. destruct (startGame_dragChars _ _ _ Hs) as (sh & _ & Hdrag).
  assert (∀ k d, dragChars s1 !! k = Some d → d_dragIndex d = toString k) as Hix.
  { intros k d. rewrite Hdrag.
    by intros (r & _ & ->)%list_lookup_imap_Some. }
  split.
  - intros k d Hk. split; [by apply Hix|].
    rewrite querySelector_plain by apply selector_plain_toString.
    assert (list_find (λ d0, d_dragIndex d0 = toString k) (dragChars s1)
            = Some (k, d)) as ->; [|done].
    apply list_find_Some. split_and!; [done|by apply Hix|].
    intros j y Hj Hlt Heq. rewrite (Hix j y Hj) in Heq.
    apply toString_inj in Heq. lia.
  - intros dragIndex Hp Hno. apply querySelector_Null; [done|]. intros d Hd.
    apply list_elem_of_lookup_1 in Hd as [k Hk].
    rewrite (Hix k d Hk). intros Heq. apply (Hno k); [|done].
    by eapply lookup_lt_Some.
Qed.

Lemma drag_index_finds_candidate_witness :
  (∀ k d, dragChars default_round !! k = Some d →
          d_dragIndex d = toString k
          ∧ querySelector sample_browser (toString k) default_round
            = Element (LiveDrag k))
  ∧ (∀ dragIndex,
       selector_plain dragIndex = true →
       (∀ k, (k < length (dragChars default_round))%nat →
             dragIndex ≠ toString k) →
       querySelector sample_browser dragIndex default_round = Element NullDrag).
Proof.
  apply (drag_index_finds_candidate sample_browser default_start default_round).
  vm_compute. reflexivity.
Defined.

(** ** The corpus *)

Lemma length_trimStart s : (length (trimStart s) ≤ length s)%nat.
Proof.
  induction s as [|c s IH]; simpl; [lia|]. destruct (is_whitespace c); simpl; lia.
Qed.

Lemma length_trim s : (length (trim s) ≤ length s)%nat.
Proof.
  unfold trim. rewrite length_reverse.
  etransitivity; [apply length_trimStart|]. rewrite length_reverse.
  apply length_trimStart.
Qed.

Lemma split_go_unit_free c skip cur s :
  c ∉ cur → Forall (λ piece, c ∉ piece) (split_go [c] skip cur s).
Proof.
  revert skip cur. induction s as [|x s IH]; intros skip cur Hcur; simpl.
  - apply Forall_singleton. by rewrite elem_of_reverse.
  - destruct skip as [|k]; [|by apply IH].
    case_bool_decide as Hx; simpl.
    + apply Forall_cons. split; [by rewrite elem_of_reverse|].
      apply IH. apply not_elem_of_nil.
    + apply IH. rewrite not_elem_of_cons. split; [done|exact Hcur].
Qed.

(** X9.  [loadPoems] keeps only usable sections.  After a failed load the
    corpus is the built-in section.  After a load that went through, every
    kept section has at least two lines, and every kept line holds no line
    feed, has exactly [lineLength] code units once trimmed, and is stored
    untrimmed, so with at least [lineLength] code units.  No other field
    of the game changes. *)
Theorem loadPoems_keeps_usable_sections response s :
  (response = None → sections (loadPoems response s) = [default_section])
  ∧ (∀ section, section ∈ sections (loadPoems response s) →
       (2 ≤ length section)%nat
       ∧ (is_Some response →
          ∀ line, line ∈ section →
            Z.of_nat (length (trim line)) = lineLength s
            ∧ lineLength s ≤ Z.of_nat (length line)
            ∧ 10%N ∉ line))
  ∧ set_sections (sections s) (loadPoems response s) = s.
Proof.
  split_and!.
  - by intros ->.
  - intros section Hin.
    destruct (loadPoems_sections response s section Hin) as (Hlen & _ & Htrim).
    split; [done|]. intros Hsome line Hline.
    pose proof (Htrim Hsome line Hline) as Ht. split; [done|].
    split; [pose proof (length_trim line); lia|].
    destruct response as [text|]; [|by destruct Hsome]. simpl in Hin.
    apply list_elem_of_filter in Hin as [_ Hin].
    apply list_elem_of_fmap in Hin as (raw & -> & _).
    apply list_elem_of_filter in Hline as [_ Hline].
    pose proof (split_go_unit_free 10%N O [] (trim raw) (not_elem_of_nil _)) as Hfree.
    rewrite Forall_forall in Hfree. by apply Hfree.
  - by destruct response, s.
Qed.

Section Corpus.
Variable host : browser.

Lemma selectRandomLines_adjacent_lines s :
  (∀ section, section ∈ sections s → (2 ≤ length section)%nat) →
  ∃ sa l0 l1,
    selectRandomLines host s = Normal sa
    ∧ currentLines sa = (Some l0, Some l1)
    ∧ adjacent_lines s l0 l1.
Proof.
  intros Hlen. unfold selectRandomLines. case_bool_decide as Hnil.
  - eexists _, _, _. split; [done|]. split; [done|]. left.
    split; [by apply nil_length_inv|done].
  - unfold random_floor. cbn [rpos set_rpos sections].
    pose proof (floor_mul_range (Math_random host (rpos s)) (Z.of_nat (length (sections s)))
                  ltac:(lia)) as Hk.
    rewrite js_index_nat by lia.
    destruct (sections s !! Z.to_nat _) as [section|] eqn:Hsec.
    2: { apply lookup_ge_None in Hsec. lia. }
    pose proof (Hlen section (list_elem_of_lookup_2 _ _ _ Hsec)) as H2.
    pose proof (floor_mul_range (Math_random host (S (rpos s)))
                  (Z.of_nat (length section) - 2 + 1) ltac:(lia)) as Hi.
    set (i := floor_mul (Math_random host (S (rpos s))) (Z.of_nat (length section) - 2 + 1))
      in *.
    rewrite (js_index_nat _ i), (js_index_nat _ (i + 1)) by lia.
    replace (Z.to_nat (i + 1)) with (S (Z.to_nat i)) by lia.
    destruct (section !! Z.to_nat i) as [l0|] eqn:H0.
    2: { apply lookup_ge_None in H0. lia. }
    destruct (section !! S (Z.to_nat i)) as [l1|] eqn:H1.
    2: { apply lookup_ge_None in H1. lia. }
    exists (set_currentLines (Some l0, Some l1)
              (set_rpos (S (S (rpos s))) (set_rpos (S (rpos s)) s))), l0, l1.
    split; [done|]. split; [done|]. right.
    exists section, (Z.to_nat i). split_and!; [|done|done].
    by eapply list_elem_of_lookup_2.
Qed.

Lemma startGame_keeps_corpus s :
  sections (state_of (startGame host s)) = sections s
  ∧ lineLength (state_of (startGame host s)) = lineLength s.
Proof.
  unfold startGame.
  pose proof (selectRandomLines_frame host (set_lastDragAction None s)) as Hf.
  cbv zeta in Hf. simpl in Hf.
  destruct Hf as (Hs & _ & _ & _ & HL & _).
  destruct (selectRandomLines host _) as [sa|sa]; cbn [bind state_of] in *; [|done].
  assert (sections (state_of (renderPoem sa)) = sections sa
          ∧ lineLength (state_of (renderPoem sa)) = lineLength sa) as [Hs' HL'].
  { unfold renderPoem.
    destruct sa as [? [[l0|] [l1|]] ? ? ? ? ? ? ? ? ? ? ? ?]; done. }
  destruct (renderPoem sa) as [sb|sb]; cbn [bind state_of] in *;
    [|split; congruence].
  assert (sections (state_of (removeRandomChars host sb)) = sections sb
          ∧ lineLength (state_of (removeRandomChars host sb)) = lineLength sb)
    as [Hs'' HL''].
  { rewrite removeRandomChars_unfold.
    match goal with |- context [forEach remove_at ?ps ?t] =>
      pose proof (forEach_remove_at_frame ps t) as Hfr;
      destruct (forEach remove_at ps t) as [sd|sd]
    end; cbv zeta in Hfr; cbn [bind state_of] in *;
      destruct Hfr as (Hx & _ & _ & _ & Hy & _); simpl in *; split; congruence. }
  destruct (removeRandomChars host sb) as [sc|sc]; cbn [bind state_of] in *;
    simpl; split; congruence.
Qed.

Lemma corpus_fits_step e s : corpus_fits s → corpus_fits (step host e s).
Proof.
  assert (sections (step host e s) = sections s
          ∧ lineLength (step host e s) = lineLength s) as [Hs HL].
  { assert (e = RestartClick ∨ in_round e) as [->|He]
      by (destruct e; (by left) || (right; discriminate)).
    - apply startGame_keeps_corpus.
    - pose proof (round_setup_step host e s He) as H. unfold round_setup in H.
      split; congruence. }
  unfold corpus_fits. by rewrite Hs, HL.
Qed.

Lemma corpus_fits_run es s : corpus_fits s → corpus_fits (run host es s).
Proof.
  revert s. induction es as [|e es IH]; intros s Hs; simpl; [done|].
  by apply IH, corpus_fits_step.
Qed.

Lemma startGame_completes s :
  corpus_fits s →
  ∃ s1 l0 l1, startGame host s = Normal s1
              ∧ currentLines s1 = (Some l0, Some l1)
              ∧ adjacent_lines s l0 l1.
Proof.
  intros [Hfit Hnil].
  destruct (selectRandomLines_adjacent_lines (set_lastDragAction None s))
    as (sa & l0 & l1 & Ha & Hlines & Hadj).
  { intros section Hin. by apply Hfit. }
  pose proof (selectRandomLines_frame host (set_lastDragAction None s)) as Hf.
  rewrite Ha in Hf. cbv zeta in Hf. simpl in Hf.
  destruct Hf as (_ & _ & _ & _ & HL & _).
  assert (lineLength s ≤ Z.of_nat (length l0)
          ∧ lineLength s ≤ Z.of_nat (length l1)) as [H0 H1].
  { destruct Hadj as [(Hs & -> & ->)|(section & i & Hin & Hi0 & Hi1)].
    - simpl in Hs. specialize (Hnil Hs). simpl. lia.
    - simpl in Hin. destruct (Hfit section Hin) as [_ Hline].
      split; apply Hline; by eapply list_elem_of_lookup_2. }
  unfold startGame. rewrite Ha. cbn [bind].
  assert (renderPoem sa
          = Normal (set_line2 (imap (λ i c, createCharCard sa [c] 1 i) l1)
                      (set_line1 (imap (λ i c, createCharCard sa [c] 0 i) l0) sa)))
    as Hb.
  { unfold renderPoem. destruct sa as [? [o0 o1] ? ? ? ? ? ? ? ? ? ? ? ?].
    simpl in Hlines |- *. by injection Hlines as -> ->. }
  rewrite Hb. cbn [bind].
  match goal with |- context [removeRandomChars host ?t] =>
    destruct (removeRandomChars_success host t) as [sc Hc]
  end.
  - simpl. rewrite length_imap, HL. lia.
  - simpl. rewrite length_imap, HL. lia.
  - rewrite Hc. cbn [bind]. eexists _, l0, l1. split; [done|].
    pose proof (removeRandomChars_fields _ _ _ Hc) as (_ & Hcl & _).
    cbn [currentLines updateUndoButtonState clearMessage saveStateR
         set_undoDisabled set_message set_stateR].
    split; [by rewrite Hcl|]. exact Hadj.
Qed.
End Corpus.

(** X10.  Whenever every section has two lines or more (as [loadPoems]
    leaves them), [selectRandomLines] does not throw and picks two lines
    that follow each other within one section, never across two sections;
    with no section at all it picks the two built-in lines. *)
Theorem selectRandomLines_adjacent host s :
  (∀ section, section ∈ sections s → (2 ≤ length section)%nat) →
  ∃ sa l0 l1,
    selectRandomLines host s = Normal sa
    ∧ currentLines sa = (Some l0, Some l1)
    ∧ adjacent_lines s l0 l1.
Proof. apply selectRandomLines_adjacent_lines. Qed.

Lemma selectRandomLines_adjacent_witness :
  ∃ sa l0 l1,
    selectRandomLines sample_browser default_start = Normal sa
    ∧ currentLines sa = (Some l0, Some l1)
    ∧ adjacent_lines default_start l0 l1.
Proof.
  apply (selectRandomLines_adjacent sample_browser default_start).
  intros section Hin. vm_compute in Hin.
  apply list_elem_of_singleton in Hin. subst. vm_compute. lia.
Defined.

(** X11.  When the corpus fits the configured line length, [startGame]
    never throws, however many events (restarts included) came before:
    every round it starts shows two adjacent lines of the corpus. *)
Theorem startGame_never_throws host s es :
  corpus_fits s →
  ∃ s1 l0 l1,
    startGame host (run host es s) = Normal s1
    ∧ currentLines s1 = (Some l0, Some l1)
    ∧ adjacent_lines (run host es s) l0 l1.
Proof. intros Hfit. by apply startGame_completes, corpus_fits_run. Qed.

Lemma loadPoems_keeps_usable_sections_witness :
  Forall (λ section,
          (2 ≤ length section)%nat
          ∧ (is_Some (Some sample_text) →
             ∀ line, line ∈ section →
               Z.of_nat (length (trim line))
               = lineLength (constructor (Config None None))
               ∧ lineLength (constructor (Config None None))
                 ≤ Z.of_nat (length line)
               ∧ 10%N ∉ line))
         (sections sample_loaded).
Proof.
  apply Forall_forall.
  exact (proj1 (proj2 (loadPoems_keeps_usable_sections (Some sample_text)
                         (constructor (Config None None))))).
Defined.

Lemma corpus_fits_default_round : corpus_fits default_round.
Proof.
  assert (sections default_round = [default_section]) as Hs
    by (vm_compute; reflexivity).
  assert (lineLength default_round = 5) as HL by (vm_compute; reflexivity).
  unfold corpus_fits. rewrite Hs, HL. split; [|done].
  intros section ->%list_elem_of_singleton. split; [simpl; lia|].
  intros line Hl. unfold default_section in Hl.
  rewrite !elem_of_cons, elem_of_nil in Hl.
  destruct Hl as [->|[->|[->|[->|[]]]]]; vm_compute; by intros [=].
Qed.

Lemma startGame_never_throws_witness :
  ∃ s1 l0 l1,
    startGame sample_browser (run sample_browser wrong_fills default_round)
    = Normal s1
    ∧ currentLines s1 = (Some l0, Some l1)
    ∧ adjacent_lines (run sample_browser wrong_fills default_round) l0 l1.
Proof.
  apply (startGame_never_throws sample_browser default_round wrong_fills).
  exact corpus_fits_default_round.
Defined.

(** ** The shuffle *)

(** X12.  The Fisher-Yates loop of [removeRandomChars] returns a
    permutation of its input, calls [Math.random] once for every position
    but the first, and the index it draws for position [i] is never above
    [i], so no swap leaves the array. *)
Theorem shuffle_is_permutation host {A} (l : list A) (rp : nat) :
  (shuffle host l rp).1 ≡ₚ l
  ∧ (shuffle host l rp).2 = (rp + (length l - 1))%nat
  ∧ ∀ r i, (Z.to_nat (floor_mul r (Z.of_nat i + 1)) ≤ i)%nat.
Proof.
  split_and!.
  - apply shuffle_Permutation.
  - apply shuffle_from_calls.
  - intros r i. pose proof (floor_mul_range r (Z.of_nat i + 1) ltac:(lia)). lia.
Qed.

(** ** A fill and its undo *)

Lemma evaluate_Incomplete_of_empty s c :
  c ∈ cards s → is_empty_card c = true → evaluate s = Incomplete.
Proof.
  intros Hc He. unfold evaluate.
  assert (c ∈ emptyCards s) as Hin
    by (unfold emptyCards; by apply list_elem_of_filter).
  rewrite (bool_decide_eq_true_2 (0 < length (emptyCards s))%nat); [done|].
  destruct (emptyCards s); [by apply elem_of_nil in Hin|simpl; lia].
Qed.

Lemma assignments_ext s s' :
  (∀ r, assignment <$> get_card r s' = assignment <$> get_card r s) →
  assignment <$> cards s' = assignment <$> cards s.
Proof.
  intros H. unfold cards. rewrite !fmap_app. f_equal; apply list_eq; intros i;
    rewrite !list_lookup_fmap; [apply (H (InLine1 i))|apply (H (InLine2 i))].
Qed.

(** X13.  A drop on an empty blank followed by undo leaves the Round as it
    was, provided the drop did not complete the round (another card is
    still empty), no earlier drag was pending, and the candidate named by
    the drop, if any, was available. *)
Theorem drop_then_undo host s ref c char dragIndex ref' c' :
  get_card ref s = Some c →
  dropZone c = true →
  empty_blank c →
  data_filledChar c = None →
  ref' ≠ ref → get_card ref' s = Some c' → is_empty_card c' = true →
  lastDragAction s = None →
  (∀ k, querySelector host dragIndex s = Element (LiveDrag k) →
        ∃ d, dragChars s !! k = Some d ∧ available d = true) →
  round_of (undoLastDrag (drop host ref char dragIndex s)) = round_of s.
Proof.
  intros Hc Hd (He & Htext & Hf) Hfc Hne Hc' He' Hla Hcand.
  assert (data_filled c ≠ Some "true") as Hnf by (rewrite Hf; by intros [=]).
  destruct (querySelector host dragIndex s) as [q|] eqn:Hsel.
  2:{ rewrite (drop_selector_error host s ref c char dragIndex Hc Hd Hnf Hsel).
      assert (undoLastDrag (update_card ref (remove_class "drag-over") s)
              = update_card ref (remove_class "drag-over") s) as ->.
      { unfold undoLastDrag.
        replace (lastDragAction (update_card ref (remove_class "drag-over") s))
          with (lastDragAction s) by (by destruct ref).
        by rewrite Hla. }
      apply round_of_update_card. intros. apply assignment_remove_drag_over. }
  rewrite (drop_on_empty host s ref c char dragIndex q Hc Hd Hnf Hsel).
  match goal with |- context [checkCompletion host ?u] => set (t := u) end.
  assert (∀ r, get_card r t
               = if bool_decide (r = ref) then Some (fill_card char c)
                 else get_card r s) as Hget.
  { intros r. subst t.
    assert (∀ u, get_card r
              (match q with
               | LiveDrag k => update_drag k (d_add_class "hidden")
               | NullDrag | DetachedDrag => λ t, t
               end u) = get_card r u) as -> by (intros u; by destruct q, r).
    rewrite get_card_update_card.
    assert (∀ a u, get_card r (updateUndoButtonState (set_lastDragAction a u))
                   = get_card r u) as -> by (intros; by destruct r).
    rewrite get_card_update_card. case_bool_decide as Hr; [|done].
    subst r. rewrite Hc. by destruct c. }
  assert (checkCompletion host t = t) as ->.
  { unfold checkCompletion. rewrite (evaluate_Incomplete_of_empty t c'); [done| |done].
    apply (get_card_elem_of ref'). by rewrite Hget, bool_decide_eq_false_2. }
  assert (lastDragAction t = Some (DragAction ref q char)) as Ha
    by (subst t; by destruct q, ref).
  pose proof (undoLastDrag_fields t _ Ha) as (Hget' & Hdrag' & Hla').
  pose proof (round_setup_undoLastDrag t) as Hsetup. unfold round_setup in Hsetup.
  assert (round_setup t = round_setup s ∧ message t = message s
          ∧ timers t = timers s
          ∧ dragChars t = match q with
                          | LiveDrag k => alter (d_add_class "hidden") k (dragChars s)
                          | NullDrag | DetachedDrag => dragChars s
                          end) as (Hsetup' & Hm & Ht & Hdrag).
  { subst t. by destruct q, ref. }
  assert (message (undoLastDrag t) = message t
          ∧ timers (undoLastDrag t) = timers t) as [Hm' Ht'].
  { unfold undoLastDrag. rewrite Ha. simpl. by destruct q, ref. }
  unfold round_setup in Hsetup'. unfold round_of.
  rewrite Hla', Hla, Hm', Hm, Ht', Ht.
  assert (assignment <$> cards (undoLastDrag t) = assignment <$> cards s) as ->.
  { apply assignments_ext. intros r. rewrite Hget'. simpl.
    rewrite Hget. case_bool_decide as Hr; [|done]. subst r. rewrite Hc. simpl.
    unfold assignment. simpl. rewrite Htext, Hf, Hfc.
    unfold is_empty_card in He. apply andb_prop in He as [_ ->]. done. }
  assert ((λ d, (d_char d, d_dragIndex d, available d)) <$> dragChars (undoLastDrag t)
          = (λ d, (d_char d, d_dragIndex d, available d)) <$> dragChars s) as ->.
  { rewrite Hdrag'. simpl. rewrite Hdrag. destruct q as [|k|] eqn:Hq; [done| |done].
    rewrite list_alter_alter_eq. apply fmap_alter_same. intros d Hk.
    destruct (Hcand k eq_refl) as (d' & Hk' & Hav). rewrite Hk in Hk'.
    injection Hk' as <-. simpl. rewrite Hav. unfold available. simpl.
    by rewrite contains_classList_remove, bool_decide_eq_true_2, andb_false_r. }
  f_equal; congruence.
Qed.

Lemma drop_then_undo_witness :
  round_of (undoLastDrag (drop sample_browser (InLine1 2) [36935%N] "0"
                               default_round))
  = round_of default_round.
Proof.
  let o := eval vm_compute in (get_card (InLine1 2) default_round) in
  let o' := eval vm_compute in (get_card (InLine1 4) default_round) in
  match o with
  | Some ?c =>
    match o' with
    | Some ?c' =>
      apply (drop_then_undo sample_browser default_round (InLine1 2) c
               [36935%N] "0" (InLine1 4) c')
    end
  end.
  - vm_compute. reflexivity.
  - vm_compute. reflexivity.
  - vm_compute. done.
  - vm_compute. reflexivity.
  - discriminate.
  - vm_compute. reflexivity.
  - vm_compute. reflexivity.
  - vm_compute. reflexivity.
  - intros k Hk. vm_compute in Hk. injection Hk as <-.
    eexists. split; vm_compute; reflexivity.
Defined.

(** ** Filling every blank with its original character *)

Section OriginalFills.
Variable host : browser.

Lemma run_fills_of ix rs t :
  (∀ r, r ∈ rs → selector_plain (ix r) = true) →
  NoDup (removed_ref <$> rs) →
  (∀ r, r ∈ rs →
        ∃ c, get_card (removed_ref r) t = Some c ∧ dropZone c = true
             ∧ data_filled c ≠ Some "true" ∧ data_char c = r_char r) →
  ∀ ref, get_card ref (run host (fills_of ix rs) t)
         = if bool_decide (ref ∈ removed_ref <$> rs)
           then (λ c, fill_card (data_char c) c) <$> get_card ref t
           else get_card ref t.
Proof.
  intros Hplain. revert t.
  induction rs as [|r rs IH]; intros t Hnd Hrs ref.
  - change (run host (fills_of ix []) t) with t.
    rewrite (bool_decide_eq_false_2 (ref ∈ removed_ref <$> [])); [done|].
    apply not_elem_of_nil.
  - rewrite fmap_cons in Hnd. apply NoDup_cons in Hnd as [Hnotin Hnd].
    destruct (Hrs r (list_elem_of_here _ _)) as (c & Hc & Hd & Hf & Hdc).
    destruct (querySelector_plain_Element host (ix r) t
                (Hplain r (list_elem_of_here _ _))) as [q Hq].
    pose proof (drop_on_empty_fields host t (removed_ref r) c (r_char r) (ix r)
                  q Hc Hd Hf Hq) as (Hget & _).
    change (run host (fills_of ix (r :: rs)) t)
      with (run host (fills_of ix rs)
              (drop host (removed_ref r) (r_char r) (ix r) t)).
    rewrite IH; [|by intros r' Hr'; apply Hplain, list_elem_of_further|done|].
    + rewrite fmap_cons, !Hget.
      destruct (decide (ref = removed_ref r)) as [->|Hne].
      * rewrite (bool_decide_eq_false_2 (removed_ref r ∈ removed_ref <$> rs))
          by done.
        rewrite (bool_decide_eq_true_2 (removed_ref r = removed_ref r)) by done.
        rewrite bool_decide_eq_true_2 by apply list_elem_of_here.
        rewrite Hc. simpl. by rewrite Hdc.
      * rewrite (bool_decide_eq_false_2 (ref = removed_ref r)) by done.
        rewrite (bool_decide_ext (ref ∈ removed_ref r :: (removed_ref <$> rs))
                                 (ref ∈ removed_ref <$> rs)); [done|].
        rewrite elem_of_cons. tauto.
    + intros r' Hr'. rewrite Hget.
      rewrite bool_decide_eq_false_2.
      * apply Hrs. by apply list_elem_of_further.
      * intros Heq. apply Hnotin. rewrite <- Heq.
        apply list_elem_of_fmap. by exists r'.
Qed.

Lemma NoDup_blank_refs s s1 :
  startGame host s = Normal s1 → NoDup (removed_ref <$> removedChars s1).
Proof.
  intros Hs. destruct (blank_positions_of_startGame _ _ _ Hs) as [rp Hbp].
  assert (removed_ref <$> removedChars s1 = card_of <$> blankPositions s1) as ->
    by (unfold blankPositions; by rewrite <- list_fmap_compose).
  rewrite Hbp. apply NoDup_fmap_2_strong.
  - intros p q Hp Hq. apply card_of_inj.
    + eapply elem_of_sublist in Hp; [|apply slice0_sublist].
      rewrite shuffle_Permutation in Hp.
      by apply elem_of_allPositions in Hp as [? _].
    + eapply elem_of_sublist in Hq; [|apply slice0_sublist].
      rewrite shuffle_Permutation in Hq.
      by apply elem_of_allPositions in Hq as [? _].
  - eapply sublist_NoDup; [|apply slice0_sublist].
    rewrite shuffle_Permutation. apply NoDup_allPositions.
Qed.

Lemma fills_of_in_round ix rs : Forall in_round (fills_of ix rs).
Proof. apply Forall_fmap, Forall_forall. by intros r _. Qed.

Lemma fills_of_no_timer ix rs : Forall no_timer (fills_of ix rs).
Proof. apply Forall_fmap, Forall_forall. by intros r _. Qed.
End OriginalFills.

(** X14.  Filling every blank of a generated Round with its original
    character, in any order and whatever candidate ids the drops carry
    among those that make a valid selector (ids without a quote, a
    backslash, a line break or a NUL), ends with the verdict Correct (as
    long as [removeCount] does not exceed the 2 x L positions of the
    grid). *)
Theorem original_fills_are_Correct host s s1 ix rs :
  startGame host s = Normal s1 →
  removeCount s1 ≤ 2 * lineLength s1 →
  rs ≡ₚ removedChars s1 →
  (∀ r, r ∈ rs → selector_plain (ix r) = true) →
  evaluate (run host (fills_of ix rs) s1) = Correct.
Proof.
  intros Hs Hrc Hperm Hplain.
  pose proof (page_ok_generated _ _ _ Hs) as Hok1.
  pose proof (round_layout_run host s s1 _ Hs (fills_of_in_round ix rs)
                (fills_of_no_timer ix rs) Hok1)
    as ((Hok & _) & Hsetup & Hlay).
  pose proof (startGame_generated _ _ _ Hs) as (Hgen & _).
  destruct (startGame_cards host s s1 Hs)
    as (l0 & l1 & _ & _ & _ & _ & _ & Hrem).
  rewrite Forall_forall in Hgen. rewrite Forall_forall in Hrem.
  assert (removed_ref <$> rs ≡ₚ card_of <$> blankPositions s1) as Hrefs.
  { rewrite Hperm. unfold blankPositions. by rewrite <- list_fmap_compose. }
  assert (∀ ref, get_card ref (run host (fills_of ix rs) s1)
                 = if bool_decide (ref ∈ removed_ref <$> rs)
                   then (λ c, fill_card (data_char c) c) <$> get_card ref s1
                   else get_card ref s1) as Hget.
  { apply run_fills_of.
    - exact Hplain.
    - rewrite Hperm. by eapply NoDup_blank_refs.
    - intros r Hr. rewrite Hperm in Hr. destruct (Hrem r Hr) as [Hr1 _].
      change (card_of (Position (r_line r) (r_index r))) with (removed_ref r) in Hr1.
      destruct (get_card (removed_ref r) s1) as [c|] eqn:Hc; [|done].
      injection Hr1 as Hr1. exists c. split; [done|].
      assert (is_blank c = true) as Hb.
      { apply (startGame_page_blanks _ _ _ (removed_ref r) c Hs Hc).
        rewrite <- Hrefs. apply list_elem_of_fmap. exists r.
        by rewrite Hperm. }
      destruct (Hgen c (get_card_elem_of _ _ _ Hc))
        as [(_ & Hf & _)|(_ & _ & Hf & _ & Hd)].
      + unfold is_blank in Hb. rewrite Hf in Hb.
        by apply bool_decide_eq_true in Hb as [? ?].
      + rewrite Hf. by split_and!. }
  assert (∀ c, c ∈ blanks (run host (fills_of ix rs) s1) →
               data_filled c = Some "true"
               ∧ data_filledChar c = Some (data_char c)) as Hfilled.
  { intros c [Hb [ref Hc]%elem_of_cards]%elem_of_blanks.
    rewrite Hget in Hc. case_bool_decide as Hin.
    - destruct (get_card ref s1) as [c0|]; [|done]. by injection Hc as <-.
    - apply (startGame_page_blanks _ _ _ ref c Hs Hc) in Hb.
      by rewrite <- Hrefs in Hb. }
  rewrite evaluate_all_filled; [|done|].
  - rewrite bool_decide_eq_false_2.
    + assert (forallb (λ c, bool_decide (Some (data_char c) = data_filledChar c))
                (blanks (run host (fills_of ix rs) s1)) = true) as ->; [|done].
      apply Is_true_true, forallb_True, Forall_forall. intros c Hc.
      apply bool_decide_pack. by destruct (Hfilled c Hc) as [_ ->].
    + rewrite (length_blanks_layout _ _ Hlay), (startGame_blank_count _ _ _ Hs).
      destruct (blank_positions_of_startGame _ _ _ Hs) as [rp Hbp].
      rewrite Hbp, length_slice0,
        (Permutation_length (shuffle_Permutation host _ rp)), length_allPositions.
      unfold round_setup in Hsetup.
      assert (removeCount (run host (fills_of ix rs) s1) = removeCount s1) as ->
        by congruence.
      case_bool_decide; lia.
  - intros c Hc. destruct (Hfilled c Hc) as [-> _]. by intros [=].
Qed.

Lemma original_fills_are_Correct_witness :
  evaluate (run sample_browser
              (fills_of (λ _, "") (reverse (removedChars default_round)))
              default_round) = Correct.
Proof.
  apply (original_fills_are_Correct sample_browser default_start default_round).
  - vm_compute. reflexivity.
  - vm_compute. by intros [=].
  - apply reverse_Permutation.
  - intros r _. reflexivity.
Defined.

(** ** Pronunciation *)





(** ** Touch and mouse *)

Lemma classList_remove_idemp c cl :
  classList_remove c (classList_remove c cl) = classList_remove c cl.
Proof.
  unfold classList_remove. induction cl as [|x cl IH]; [done|].
  rewrite (filter_cons _ x cl). case_decide; [|done].
  rewrite filter_cons. case_decide; [|done]. by rewrite IH.
Qed.

Lemma classList_remove_add_remove c c' cl :
  c ≠ c' →
  classList_remove c' (classList_add c (classList_remove c' cl))
  = classList_remove c' (classList_add c cl).
Proof.
  intros Hne. unfold classList_add.
  rewrite contains_classList_remove.
  rewrite (bool_decide_eq_false_2 (c = c')) by done.
  rewrite andb_true_r. destruct (contains c cl).
  - apply classList_remove_idemp.
  - unfold classList_remove at 1 3. rewrite !filter_app.
    fold (classList_remove c' (classList_remove c' cl)).
    by rewrite classList_remove_idemp.
Qed.

Lemma is_empty_card_remove_drag_over c :
  is_empty_card (remove_class "drag-over" c) = is_empty_card c.
Proof.
  unfold is_empty_card. destruct c; cbn -[classList_remove contains].
  rewrite !contains_classList_remove.
  rewrite !bool_decide_eq_false_2 by done. by rewrite !andb_true_r.
Qed.

Lemma remove_drag_over_idemp c :
  remove_class "drag-over" (remove_class "drag-over" c)
  = remove_class "drag-over" c.
Proof.
  destruct c; unfold remove_class; cbn -[classList_remove].
  by rewrite classList_remove_idemp.
Qed.

Lemma filter_fmap_list {A B} (f : A → B) (P : B → Prop)
    `{!∀ x, Decision (P x)} (l : list A) :
  filter P (f <$> l) = f <$> filter (λ x, P (f x)) l.
Proof.
  induction l as [|x l IH]; [done|].
  rewrite fmap_cons, (filter_cons P), (filter_cons (λ x, P (f x))).
  case_decide; by rewrite IH.
Qed.

Ltac unfold_page :=
  cbv [at_rest clear_drag_over update_drag update_card updateUndoButtonState
       set_dragChars set_line1 set_line2 set_lastDragAction set_undoDisabled
       sections currentLines removedChars stateR lastDragAction lineLength
       removeCount line1 line2 dragChars message undoDisabled timers rpos].

Lemma cards_at_rest s :
  cards (at_rest s) = remove_class "drag-over" <$> cards s.
Proof. unfold cards. by rewrite fmap_app. Qed.

Lemma at_rest_clear_drag_over s : at_rest (clear_drag_over s) = at_rest s.
Proof.
  assert (Hl : ∀ l : list card,
    remove_class "drag-over"
      <$> ((λ c, if is_empty_card c then remove_class "drag-over" c else c) <$> l)
    = remove_class "drag-over" <$> l).
  { intros l. rewrite <- list_fmap_compose. apply list_fmap_ext.
    intros i c _. cbn. destruct (is_empty_card c); [|done].
    apply remove_drag_over_idemp. }
  destruct s; unfold_page. by rewrite !Hl.
Qed.

Lemma emptyCards_at_rest s :
  emptyCards (at_rest s) = remove_class "drag-over" <$> emptyCards s.
Proof.
  unfold emptyCards. rewrite cards_at_rest, filter_fmap_list.
  f_equal. apply list_filter_iff. intros c. cbn.
  by rewrite is_empty_card_remove_drag_over.
Qed.

Lemma filledCards_at_rest s :
  filledCards (at_rest s) = remove_class "drag-over" <$> filledCards s.
Proof.
  unfold filledCards. rewrite cards_at_rest, filter_fmap_list.
  f_equal. apply list_filter_iff. intros c. cbn.
  destruct c; cbn -[classList_remove contains]. rewrite contains_classList_remove.
  rewrite bool_decide_eq_false_2 by done. by rewrite andb_true_r.
Qed.

Lemma forallb_fmap {A B} (p : B → bool) (q : A → bool) (f : A → B)
    (l : list A) :
  (∀ x, p (f x) = q x) → forallb p (f <$> l) = forallb q l.
Proof. intros Hpq. induction l as [|x l IH]; [done|]. cbn. by rewrite Hpq, IH. Qed.

Lemma evaluate_at_rest s : evaluate (at_rest s) = evaluate s.
Proof.
  unfold evaluate. rewrite emptyCards_at_rest, filledCards_at_rest.
  rewrite !length_fmap.
  rewrite (forallb_fmap _ (λ c, bool_decide (Some (data_char c) = data_filledChar c)))
    by by intros [].
  by replace (removeCount (at_rest s)) with (removeCount s) by by destruct s.
Qed.

(** ** Candidate indices on reachable pages *)

Lemma indexed_fmap l l' :
  d_dragIndex <$> l' = d_dragIndex <$> l → indexed l → indexed l'.
Proof.
  intros Heq Hl k d Hk.
  assert ((d_dragIndex <$> l) !! k = Some (d_dragIndex d)) as Hk'.
  { rewrite <- Heq, list_lookup_fmap, Hk. done. }
  rewrite list_lookup_fmap in Hk'.
  destruct (l !! k) as [d0|] eqn:Hd0; [|done].
  injection Hk' as <-. by eapply Hl.
Qed.

Lemma candidates_ok_frame s s' :
  drag_frame s s' → candidates_ok s → candidates_ok s'.
Proof.
  intros [Hd Hr] [Hi Hs]. split.
  - by eapply indexed_fmap.
  - intros r. rewrite Hr. apply Hs.
Qed.

Lemma drag_frame_refl s : drag_frame s s.
Proof. done. Qed.

Lemma drag_frame_update_card s t r f :
  drag_frame s t → drag_frame s (update_card r f t).
Proof. by destruct r. Qed.

Lemma drag_frame_update_drag s t k f :
  (∀ d, d_dragIndex (f d) = d_dragIndex d) →
  drag_frame s t → drag_frame s (update_drag k f t).
Proof.
  intros Hf [Hd Hr]. split; [|done].
  rewrite <- Hd. cbn. apply fmap_alter_same. intros x _. apply Hf.
Qed.

Lemma drag_frame_clear_drag_over s t :
  drag_frame s t → drag_frame s (clear_drag_over t).
Proof. done. Qed.

Lemma indexed_imap {A} (f : nat → A → dragEl) (l : list A) :
  (∀ k x, d_dragIndex (f k x) = toString k) → indexed (imap f l).
Proof.
  intros Hf k d. rewrite list_lookup_imap_Some. intros (x & _ & ->). apply Hf.
Qed.

Section Candidates.
Variable host : browser.

Lemma drag_frame_checkCompletion s t :
  drag_frame s t → drag_frame s (checkCompletion host t).
Proof.
  pose proof (checkCompletion_fields host t) as Hf. cbv zeta in Hf.
  destruct Hf as (_ & _ & Hd & _ & Hr & _). unfold drag_frame.
  by rewrite Hd, Hr.
Qed.

Ltac solve_frame :=
  repeat lazymatch goal with
  | |- drag_frame ?s ?s => apply drag_frame_refl
  | |- drag_frame _ (checkCompletion _ _) => apply drag_frame_checkCompletion
  | |- drag_frame _ (clear_drag_over _) => apply drag_frame_clear_drag_over
  | |- drag_frame _ (update_card _ _ _) => apply drag_frame_update_card
  | |- drag_frame _ (update_drag _ _ _) =>
      apply drag_frame_update_drag; [by intros []|]
  | |- drag_frame ?s (set_lastDragAction _ ?t) => change (drag_frame s t)
  | |- drag_frame ?s (updateUndoButtonState ?t) => change (drag_frame s t)
  end.

Lemma drag_frame_drop s ref char dragIndex :
  drag_frame s (drop host ref char dragIndex s).
Proof.
  unfold drop, on_dropZone. destruct (get_card ref s) as [c|]; [|done].
  destruct (dropZone c); [|done]. cbv zeta. case_bool_decide; [solve_frame|].
  destruct (querySelector host _ _) as [q|]; [destruct q|]; solve_frame.
Qed.

Lemma drag_frame_touchmove s clone below :
  drag_frame s (touchmove clone below s).
Proof.
  destruct clone; [|done].
  unfold touchmove. cbn [negb]. cbv zeta. destruct below as [ref|]; [|done].
  destruct (get_card ref _) as [c|]; [|done].
  destruct (contains _ _); solve_frame.
Qed.

Lemma drag_frame_touchend s src below :
  drag_frame s (touchend host src below s).
Proof.
  unfold touchend. destruct (touch_char src s) as [char|]; [|done].
  cbv zeta. apply drag_frame_clear_drag_over.
  destruct below as [ref|]; [|destruct src; cbn [update_source]; solve_frame].
  destruct (get_card ref _) as [c|];
    [|destruct src; cbn [update_source]; solve_frame].
  destruct (_ && _); destruct src; cbn [update_source]; solve_frame.
Qed.

Lemma drag_frame_undoLastDrag s : drag_frame s (undoLastDrag s).
Proof.
  unfold undoLastDrag. destruct (lastDragAction s) as [a|]; [|done].
  cbv zeta. destruct (a_dragChar a); solve_frame.
Qed.

Lemma candidates_ok_restoreStateR s :
  candidates_ok s → candidates_ok (restoreStateR s).
Proof.
  intros Hok. unfold restoreStateR.
  destruct (stateR s) as [r|] eqn:Hs; [|done].
  destruct Hok as [Hd Hr].
  split; cbn; [|intros r'; rewrite Hs; intros [= <-]; by apply Hr].
  eapply indexed_fmap; [|by apply (Hr r)].
  rewrite <- list_fmap_compose. apply list_fmap_ext. by intros i [].
Qed.

Lemma candidates_ok_startGame s :
  candidates_ok s → candidates_ok (state_of (startGame host s)).
Proof.
  intros Hok. destruct (startGame host s) as [s1|s1] eqn:Hstart; cbn [state_of].
  - pose proof (startGame_generated host _ _ Hstart) as (_ & _ & Hr & _).
    apply startGame_dragChars in Hstart as (sh & _ & Hd).
    assert (indexed (dragChars s1)) as Hi.
    { rewrite Hd. by apply indexed_imap. }
    split; [done|]. intros r. rewrite Hr. by intros [= <-].
  - eapply candidates_ok_frame; [|exact Hok].
    unfold startGame in Hstart.
    pose proof (selectRandomLines_frame host (set_lastDragAction None s)) as Hf.
    cbv zeta in Hf. cbn in Hf.
    destruct Hf as (_ & _ & Hr & _ & _ & _ & _ & _ & Hd & _).
    destruct (selectRandomLines host _) as [sa|sa]; cbn [bind state_of] in *;
      [|injection Hstart as <-; split; congruence].
    assert (dragChars (state_of (renderPoem sa)) = dragChars sa
            ∧ stateR (state_of (renderPoem sa)) = stateR sa) as [Hd' Hr'].
    { unfold renderPoem.
      destruct sa as [? [[l0|] [l1|]] ? ? ? ? ? ? ? ? ? ? ? ?]; done. }
    destruct (renderPoem sa) as [sb|sb]; cbn [bind state_of] in *;
      [|injection Hstart as <-; split; congruence].
    rewrite removeRandomChars_unfold in Hstart.
    match type of Hstart with context [forEach remove_at ?ps ?t] =>
      pose proof (forEach_remove_at_frame ps t) as Hfr;
      destruct (forEach remove_at ps t) as [sd|sd]; [done|]
    end.
    cbv zeta in Hfr. cbn [bind state_of] in *. injection Hstart as <-.
    destruct Hfr as (_ & _ & Hr'' & _ & _ & _ & Hd'' & _).
    cbn in Hr'', Hd''. split; congruence.
Qed.

Lemma candidates_ok_step e s : candidates_ok s → candidates_ok (step host e s).
Proof.
  intros Hok. destruct e; cbn [step].
  - by apply candidates_ok_startGame.
  - eapply candidates_ok_frame; [apply drag_frame_undoLastDrag|done].
  - eapply candidates_ok_frame; [|done].
    unfold dragover, on_dropZone. destruct (get_card ref s) as [c|]; [|done].
    destruct (dropZone c); solve_frame.
  - eapply candidates_ok_frame; [|done].
    unfold dragleave, on_dropZone. destruct (get_card ref s) as [c|]; [|done].
    destruct (dropZone c); solve_frame.
  - eapply candidates_ok_frame; [apply drag_frame_drop|done].
  - eapply candidates_ok_frame; [|done]. unfold dragstart. solve_frame.
  - eapply candidates_ok_frame; [|done]. unfold dragend. solve_frame.
  - eapply candidates_ok_frame; [|done]. unfold touchstart. solve_frame.
  - eapply candidates_ok_frame; [apply drag_frame_touchmove|done].
  - eapply candidates_ok_frame; [apply drag_frame_touchend|done].
  - destruct (timers s) as [|n]; [done|]. by apply candidates_ok_restoreStateR.
Qed.

Lemma candidates_ok_reachable s : reachable host s → candidates_ok s.
Proof.
  induction 1 as [cfg response|e s _ IH]; [|by apply candidates_ok_step].
  apply candidates_ok_startGame. split.
  - intros k d. by destruct response.
  - intros r. by destruct response.
Qed.

Lemma querySelector_indexed s k d :
  indexed (dragChars s) → dragChars s !! k = Some d →
  querySelector host (d_dragIndex d) s = Element (LiveDrag k).
Proof.
  intros Hi Hk. rewrite querySelector_plain
    by (rewrite (Hi _ _ Hk); apply selector_plain_toString).
  destruct (list_find _ _) as [[j d']|] eqn:Hfind.
  - apply list_find_Some in Hfind as (Hj & Heq & _).
    rewrite (Hi _ _ Hj), (Hi _ _ Hk) in Heq.
    apply toString_inj in Heq. by subst.
  - apply list_find_None in Hfind.
    eapply Forall_lookup_1 in Hfind; [|exact Hk]. done.
Qed.

(** X16 ([renderDragChars], [restoreStateR], [setupDropZone]).  On every
    reachable page, whatever was dragged, undone, restored or restarted, the
    candidate at position [k] of [#dragChars] carries [k] as its
    [data-drag-index], and the lookup by that index, which the [drop]
    listener uses to hide the dragged candidate, finds this candidate and
    no other. *)
Theorem reachable_candidates_indexed (s : state) (k : nat) (d : dragEl) :
  reachable host s →
  dragChars s !! k = Some d →
  d_dragIndex d = toString k
  ∧ querySelector host (toString k) s = Element (LiveDrag k).
Proof.
  intros [Hi _]%candidates_ok_reachable Hk.
  pose proof (Hi _ _ Hk) as Hidx. split; [done|].
  rewrite <- Hidx. by apply querySelector_indexed.
Qed.

End Candidates.

Lemma reachable_candidates_indexed_witness :
  ∃ d,
    reachable sample_browser failed
    ∧ dragChars failed !! 2%nat = Some d
    ∧ d_dragIndex d = toString 2
    ∧ querySelector sample_browser (toString 2) failed = Element (LiveDrag 2).
Proof.
  assert (Hr : reachable sample_browser failed)
    by (apply reachable_run; exact reachable_default_round).
  let o := eval vm_compute in (dragChars failed !! 2%nat) in
  match o with
  | Some ?d =>
    exists d;
    assert (Hd : dragChars failed !! 2%nat = Some d)
      by (vm_compute; reflexivity)
  end.
  split; [exact Hr|]. split; [exact Hd|].
  exact (reachable_candidates_indexed sample_browser failed 2 _ Hr Hd).
Defined.

Section Touch.
Variable host : browser.

Lemma at_rest_checkCompletion s :
  at_rest (checkCompletion host s) = checkCompletion host (at_rest s).
Proof.
  unfold checkCompletion. rewrite evaluate_at_rest.
  destruct (evaluate s); by destruct s.
Qed.

(** X17 ([setupTouchDrag], [setupDropZone]).  On a reachable page, lifting
    the finger from a candidate over an element leaves the page as
    dropping that candidate there with the mouse does (the drop carries
    the character and the index that [dragstart] on the candidate stores),
    up to the classes [drag-over] and [dragging]: the same card is filled
    or left alone, the same candidate hidden, the same action kept for
    undo and the same verdict shown. *)
Theorem touchend_as_drop (s : state) (k : nat) (d : dragEl) (ref : cardRef) :
  reachable host s →
  dragChars s !! k = Some d →
  at_rest (touchend host (TouchLive k) (Some ref) s)
  = at_rest (drop host ref (d_char d) (d_dragIndex d) s).
Proof.
  intros Hreach Hd.
  assert (Hq : querySelector host (d_dragIndex d) s = Element (LiveDrag k)).
  { apply querySelector_indexed; [|done].
    by apply (candidates_ok_reachable host). }
  apply page_ok_reachable in Hreach as (Hcards & _ & _).
  unfold touchend. cbn [touch_char update_source touch_ref].
  rewrite Hd. cbn [fmap option_fmap option_map].
  rewrite at_rest_clear_drag_over.
  replace (get_card ref (update_drag k (d_remove_class "dragging") s))
    with (get_card ref s) by by destruct ref.
  assert (Hdrag : ∀ t : state,
    at_rest (update_drag k (d_remove_class "dragging") t) = at_rest t).
  { intros t. destruct t; unfold_page. f_equal.
    apply fmap_alter_same. intros x _. destruct x; unfold d_remove_class; cbn -[classList_remove].
    by rewrite classList_remove_idemp. }
  destruct (get_card ref s) as [c|] eqn:Hc.
  2:{ unfold drop, on_dropZone. rewrite Hc. apply Hdrag. }
  assert (Hok : card_ok c).
  { eapply Forall_forall; [exact Hcards|]. eapply get_card_elem_of, Hc. }
  destruct Hok as [_ Hok].
  destruct (data_filled c) as [f|] eqn:Hf.
  2:{ destruct Hok as [He Hz]. rewrite He. cbn [andb].
      unfold drop, on_dropZone. rewrite Hc, Hz. apply Hdrag. }
  destruct Hok as [Hz [[-> He]|(-> & He & _)]].
  - rewrite He. rewrite bool_decide_eq_false_2 by done. cbn [andb negb].
    rewrite (drop_on_empty host s ref c _ _ (LiveDrag k))
      by (done || by rewrite Hf).
    rewrite !at_rest_checkCompletion. f_equal.
    destruct s, ref; unfold_page; cbn [get_card line1 line2] in Hc; f_equal.
    + apply list_eq. intros j. rewrite !list_lookup_fmap.
      rewrite !list_lookup_alter. case_decide; [subst j|done].
      rewrite ?decide_True by done.
      destruct (_ !! i) as [x|]; [|done]. by destruct x.
    + apply list_eq. intros j. rewrite !list_lookup_fmap.
      rewrite !list_lookup_alter. case_decide; [subst j|done].
      rewrite ?decide_True by done.
      destruct (_ !! k) as [x|]; [|done]. destruct x.
      unfold d_remove_class, d_add_class; cbn -[classList_remove classList_add].
      by rewrite classList_remove_add_remove.
    + apply list_eq. intros j. rewrite !list_lookup_fmap.
      rewrite !list_lookup_alter. case_decide; [subst j|done].
      rewrite ?decide_True by done.
      destruct (_ !! i) as [x|]; [|done]. by destruct x.
    + apply list_eq. intros j. rewrite !list_lookup_fmap.
      rewrite !list_lookup_alter. case_decide; [subst j|done].
      rewrite ?decide_True by done.
      destruct (_ !! k) as [x|]; [|done]. destruct x.
      unfold d_remove_class, d_add_class; cbn -[classList_remove classList_add].
      by rewrite classList_remove_add_remove.
  - rewrite He. cbn [andb].
    unfold drop, on_dropZone. rewrite Hc, Hz.
    rewrite bool_decide_eq_true_2 by done.
    rewrite Hdrag. destruct s, ref; unfold_page; f_equal.
    + symmetry. apply fmap_alter_same. intros x _. apply remove_drag_over_idemp.
    + symmetry. apply fmap_alter_same. intros x _. apply remove_drag_over_idemp.
Qed.

End Touch.

Lemma touchend_as_drop_witness :
  ∃ d,
    reachable sample_browser after_first_fill
    ∧ dragChars after_first_fill !! 3%nat = Some d
    ∧ at_rest (touchend sample_browser (TouchLive 3) (Some (InLine1 4))
                 after_first_fill)
      = at_rest (drop sample_browser (InLine1 4) (d_char d) (d_dragIndex d)
                   after_first_fill).
Proof.
  assert (Hr : reachable sample_browser after_first_fill)
    by (apply reachable_run; exact reachable_default_round).
  let o := eval vm_compute in (dragChars after_first_fill !! 3%nat) in
  match o with
  | Some ?d =>
    exists d;
    assert (Hd : dragChars after_first_fill !! 3%nat = Some d)
      by (vm_compute; reflexivity)
  end.
  split; [exact Hr|]. split; [exact Hd|].
  exact (touchend_as_drop sample_browser _ _ _ (InLine1 4) Hr Hd).
Defined.

(** ** A restart forgets the round *)

Lemma remove_at_overlay s pos t :
  remove_at pos (overlay s t) = result_map (overlay s) (remove_at pos t).
Proof.
  unfold remove_at.
  replace (get_card (card_of pos) (overlay s t))
    with (get_card (card_of pos) t) by (by destruct (card_of pos)).
  destruct (get_card (card_of pos) t) as [c|]; [|done].
  cbn [result_map]. f_equal.
  destruct t as [? [? ?] ? ? ? ? ? ? ? ? ? ? ? ?], pos as [[|[|n]] i];
    unfold card_of; cbn [p_line]; case_bool_decide; done.
Qed.

Lemma forEach_remove_at_overlay s ps t :
  forEach remove_at ps (overlay s t)
  = result_map (overlay s) (forEach remove_at ps t).
Proof.
  revert t. induction ps as [|p ps IH]; intros t; [done|].
  cbn [forEach]. rewrite remove_at_overlay.
  destruct (remove_at p t) as [u|u]; cbn [bind result_map]; [apply IH|done].
Qed.

(** X18 ([startGame]).  A restart that completes forgets the round it
    replaces: the page it produces depends only on the corpus, the two
    settings, the pending timers and the position in the [Math.random]
    sequence, and on nothing else of the page before it (lines, cards,
    fills, candidates, snapshot, pending undo, message). *)
Theorem startGame_forgets_round host (s s' s1 : state) :
  same_inputs s s' →
  startGame host s = Normal s1 →
  startGame host s' = Normal s1.
Proof.
  intros (Hsec & HL & HR & HT & Hrp) Hs.
  destruct s as [sec cl rc sR la L R l1 l2 dc m u T rp].
  destruct s' as [sec' cl' rc' sR' la' L' R' l1' l2' dc' m' u' T' rp'].
  cbn in Hsec, HL, HR, HT, Hrp. subst sec' L' R' T' rp'.
  revert Hs. unfold startGame, selectRandomLines.
  cbn [set_lastDragAction sections currentLines removedChars stateR
       lastDragAction lineLength removeCount line1 line2 dragChars message
       undoDisabled timers rpos random_floor set_rpos set_currentLines].
  assert (Hrender : ∀ lines rp0 rc0 sR0 dc0 m0 u0 l10 l20 s2,
    (sb <- renderPoem
             (State sec lines rc sR None L R l1 l2 dc m u T rp0);;
     sc <- removeRandomChars host sb;;
     Normal (updateUndoButtonState (clearMessage (saveStateR sc)))) = Normal s2 →
    (sb <- renderPoem
             (State sec lines rc0 sR0 None L R l10 l20 dc0 m0 u0 T rp0);;
     sc <- removeRandomChars host sb;;
     Normal (updateUndoButtonState (clearMessage (saveStateR sc)))) = Normal s2).
  { intros [[l0|] [l1x|]] rp0 rc0 sR0 dc0 m0 u0 l10 l20 s2;
      cbv [renderPoem bind line_at createCharCard set_line1 set_line2 fst snd
           sections currentLines removedChars stateR lastDragAction lineLength
           removeCount line1 line2 dragChars message undoDisabled timers rpos];
      try done.
    rewrite !removeRandomChars_unfold.
    cbv [bind set_removedChars set_rpos
         sections currentLines removedChars stateR lastDragAction lineLength
         removeCount line1 line2 dragChars message undoDisabled timers rpos].
    intros Hs.
    match type of Hs with
    | context [forEach remove_at ?ps ?t] =>
      match goal with
      | |- context [forEach remove_at ps ?t'] =>
        change t' with (overlay (State sec (Some l0, Some l1x) rc0 sR0 None L R
                                       l10 l20 dc0 m0 u0 T rp0) t);
        rewrite (forEach_remove_at_overlay _ ps t);
        destruct (forEach remove_at ps t) as [sd|sd]
      end
    end; cbv [result_map] in *; [|done].
    injection Hs as <-. by destruct sd. }
  case_bool_decide.
  - cbn [bind]. apply Hrender.
  - destruct (js_index sec _) as [section|]; cbn [bind]; [|done].
    apply Hrender.
Qed.

Lemma startGame_forgets_round_witness :
  ∃ s1,
    same_inputs after_first_fill default_round
    ∧ startGame sample_browser after_first_fill = Normal s1
    ∧ startGame sample_browser default_round = Normal s1.
Proof.
  assert (Hsame : same_inputs after_first_fill default_round)
    by (vm_compute; repeat split; reflexivity).
  let o := eval vm_compute in (startGame sample_browser after_first_fill) in
  match o with
  | Normal ?s1 =>
    exists s1;
    assert (Hs : startGame sample_browser after_first_fill = Normal s1)
      by (vm_compute; reflexivity)
  end.
  split; [exact Hsame|]. split; [exact Hs|].
  exact (startGame_forgets_round sample_browser _ _ _ Hsame Hs).
Defined.

(** ** The highlight under the finger *)

Lemma cleared_card_no_highlight c0 c :
  (if is_empty_card c0 then remove_class "drag-over" c0 else c0) = c →
  is_empty_card c = true →
  contains "drag-over" (className c) = false.
Proof.
  intros <- He. destruct (is_empty_card c0) eqn:He0; [|congruence].
  destruct c0. cbn -[classList_remove contains].
  rewrite contains_classList_remove.
  rewrite bool_decide_eq_true_2 by done. apply andb_false_r.
Qed.

(** X19 ([setupTouchDrag]).  While a finger moves and the listener holds
    its clone, at most one card shown empty is highlighted, the one under
    the finger; a move that arrives when the clone is gone changes
    nothing; once the finger is lifted, no card shown empty is
    highlighted. *)
Theorem touch_highlight host (s : state) (ref : cardRef) (c : card) :
  is_empty_card c = true →
  (∀ below,
     get_card ref (touchmove true below s) = Some c →
     contains "drag-over" (className c) = true →
     below = Some ref)
  ∧ (∀ below, touchmove false below s = s)
  ∧ (∀ src below,
       is_Some (touch_char src s) →
       get_card ref (touchend host src below s) = Some c →
       contains "drag-over" (className c) = false).
Proof.
  intros He. split_and!.
  - intros below Hc Hover.
    assert (Hclear : ∀ t, get_card ref (clear_drag_over t) = Some c → False).
    { intros t Ht. rewrite get_card_clear_drag_over in Ht.
      destruct (get_card ref t) as [c0|]; [|done]. injection Ht as Ht.
      apply cleared_card_no_highlight in Ht; [congruence|done]. }
    unfold touchmove in Hc. cbn [negb] in Hc. cbv zeta in Hc.
    destruct below as [ref'|]; [|by apply Hclear in Hc].
    destruct (get_card ref' (clear_drag_over s)) as [c'|];
      [|by apply Hclear in Hc].
    destruct (contains "empty" (className c')); [|by apply Hclear in Hc].
    rewrite get_card_update_card in Hc.
    case_bool_decide; [by subst|by apply Hclear in Hc].
  - done.
  - intros src below [char Hchar] Hc.
    unfold touchend in Hc. rewrite Hchar in Hc. cbv zeta in Hc.
    rewrite get_card_clear_drag_over in Hc.
    destruct (get_card ref _) as [c0|]; [|done]. injection Hc as Hc.
    by eapply cleared_card_no_highlight.
Qed.

Lemma touch_highlight_witness :
  ∃ c,
    is_empty_card c = true
    ∧ get_card (InLine1 2) (touchmove true (Some (InLine1 2)) default_round)
      = Some c
    ∧ (∀ below,
         get_card (InLine1 2) (touchmove true below default_round) = Some c →
         contains "drag-over" (className c) = true →
         below = Some (InLine1 2))
    ∧ (∀ below, touchmove false below default_round = default_round)
    ∧ (∀ src below,
         is_Some (touch_char src default_round) →
         get_card (InLine1 2) (touchend sample_browser src below default_round)
         = Some c →
         contains "drag-over" (className c) = false).
Proof.
  let o := eval vm_compute in
      (get_card (InLine1 2) (touchmove true (Some (InLine1 2)) default_round)) in
  match o with
  | Some ?c =>
    exists c;
    assert (He : is_empty_card c = true) by (vm_compute; reflexivity);
    assert (Hc : get_card (InLine1 2)
                   (touchmove true (Some (InLine1 2)) default_round) = Some c)
      by (vm_compute; reflexivity)
  end.
  split; [exact He|]. split; [exact Hc|].
  exact (touch_highlight sample_browser default_round (InLine1 2) _ He).
Defined.
